(** * Request-gating pipeline of the TypeScript server template

    A shallow embedding of the rate limiter, the sanitization helpers, the
    error classes, the error translator and the admin authorization
    middleware, followed by the properties proved about them.

    Conventions of the embedding:
    - a JavaScript string is the list of its UTF-16 code units ([jsstring]);
      [str] turns an ASCII literal into one;
    - [Date.now()] is an explicit argument [now : Z] (milliseconds);
    - the [Map] of the rate limiter is a [gmap] that is passed in and
      returned; [record.count++] on the stored object is an insert at the
      same key;
    - a middleware returns the argument it hands to [next] (or the response
      it writes) instead of calling it. *)

From Stdlib Require Import ZArith NArith List String Ascii Bool Lia.
From stdpp Require Import base option gmap list.

Import ListNotations.
#[local] Open Scope Z_scope.
#[local] Set Warnings "-register-all".

(** ** JavaScript strings and values *)

Module JS.

(** A string is its sequence of UTF-16 code units. *)
Abbreviation jsstring := (list N).

Definition str (s : string) : jsstring :=
  List.map N_of_ascii (list_ascii_of_string s).

Definition jsstring_eqb (a b : jsstring) : bool :=
  bool_decide (a = b).

(** [String(n)] for a non-negative integer: its decimal digits. *)
Fixpoint digits_fuel (fuel : nat) (n : N) (acc : jsstring) : jsstring :=
  match fuel with
  | O => acc
  | S fuel' =>
      let acc' := (48 + n mod 10)%N :: acc in
      if (n <? 10)%N then acc' else digits_fuel fuel' (n / 10)%N acc'
  end.

Definition decimal (n : N) : jsstring :=
  digits_fuel (S (N.to_nat (N.log2 n))) n [].

(** Deserialized data: the shapes [JSON.parse] produces, plus [undefined]
    for an absent value.  The entries of an object are in the order of
    [Object.entries].  Numbers pass through every function below
    untouched; an integer stands for one. *)
Inductive value : Type :=
| VUndefined
| VNull
| VBool (b : bool)
| VNum (n : Z)
| VStr (s : jsstring)
| VArr (items : list value)
| VObj (props : list (jsstring * value)).

(** [Array.prototype.join]. *)
Fixpoint join (sep : jsstring) (l : list jsstring) : jsstring :=
  match l with
  | [] => []
  | [x] => x
  | x :: r => x ++ sep ++ join sep r
  end.

(** Induction on values that reaches the items of an array and the property
    values of an object. *)
Section value_induction.
Variable P : value -> Prop.
Hypothesis P_undefined : P VUndefined.
Hypothesis P_null : P VNull.
Hypothesis P_bool : forall b, P (VBool b).
Hypothesis P_num : forall n, P (VNum n).
Hypothesis P_str : forall s, P (VStr s).
Hypothesis P_arr : forall items, Forall P items -> P (VArr items).
Hypothesis P_obj : forall props, Forall (fun kv => P kv.2) props -> P (VObj props).

Fixpoint value_nested_ind (v : value) : P v :=
  match v with
  | VUndefined => P_undefined
  | VNull => P_null
  | VBool b => P_bool b
  | VNum n => P_num n
  | VStr s => P_str s
  | VArr items =>
      P_arr items
        ((fix all (l : list value) : Forall P l :=
            match l with
            | [] => @List.Forall_nil _ P
            | x :: r => @List.Forall_cons _ P x r (value_nested_ind x) (all r)
            end) items)
  | VObj props =>
      P_obj props
        ((fix all (l : list (jsstring * value)) : Forall (fun kv => P kv.2) l :=
            match l with
            | [] => List.Forall_nil _
            | (k, x) :: r =>
                @List.Forall_cons _ (fun kv => P kv.2) (k, x) r (value_nested_ind x) (all r)
            end) props)
  end.
End value_induction.

End JS.
Import JS.

(** ** shared/constants *)

Module Constants.

Module HTTP_STATUS.
Definition OK : Z := 200.
Definition CREATED : Z := 201.
Definition NO_CONTENT : Z := 204.
Definition BAD_REQUEST : Z := 400.
Definition UNAUTHORIZED : Z := 401.
Definition FORBIDDEN : Z := 403.
Definition NOT_FOUND : Z := 404.
Definition CONFLICT : Z := 409.
Definition UNPROCESSABLE_ENTITY : Z := 422.
Definition TOO_MANY_REQUESTS : Z := 429.
Definition INTERNAL_SERVER_ERROR : Z := 500.
Definition SERVICE_UNAVAILABLE : Z := 503.
End HTTP_STATUS.

(** [ERROR_CODES]: every code is the string of its own name, so the
    enumeration loses nothing. *)
Inductive ErrorCode : Set :=
| AUTH_INVALID_CREDENTIALS | AUTH_TOKEN_EXPIRED | AUTH_TOKEN_INVALID
| AUTH_UNAUTHORIZED | AUTH_FORBIDDEN
| OTP_EXPIRED | OTP_INVALID | OTP_MAX_ATTEMPTS | OTP_SEND_FAILED
| VALIDATION_ERROR | INVALID_INPUT
| RESOURCE_NOT_FOUND | RESOURCE_ALREADY_EXISTS
| ONBOARDING_INCOMPLETE | ONBOARDING_STEP_INVALID | DOCTOR_NOT_VERIFIED
| SLOT_NOT_AVAILABLE | BOOKING_CONFLICT | BOOKING_CANCELLATION_FAILED
| INTERNAL_ERROR | DATABASE_ERROR | RATE_LIMIT_EXCEEDED.

(** [USER_ROLES]. *)
Inductive UserRole : Set := PATIENT | DOCTOR | ADMIN.

Definition UserRole_eqb (a b : UserRole) : bool :=
  match a, b with
  | PATIENT, PATIENT | DOCTOR, DOCTOR | ADMIN, ADMIN => true
  | _, _ => false
  end.

Definition UserRole_name (r : UserRole) : jsstring :=
  match r with
  | PATIENT => str "patient"
  | DOCTOR => str "doctor"
  | ADMIN => str "admin"
  end.

End Constants.
Import Constants.

(** ** shared/utils/errors *)

Module Errors.

(** An [AppError] instance.  All four own fields are [readonly]; no
    function of the embedding updates one. *)
Record AppError : Type := mkAppError {
  message : jsstring;
  statusCode : Z;
  code : ErrorCode;
  isOperational : bool;
  details : value
}.

(** The base constructor; an omitted argument is [None] and takes the
    default of the signature. *)
Definition new_AppError (msg : jsstring) (status : option Z)
    (c : option ErrorCode) (operational : option bool) (d : value) : AppError :=
  {| message := msg;
     statusCode := default HTTP_STATUS.INTERNAL_SERVER_ERROR status;
     code := default INTERNAL_ERROR c;
     isOperational := default true operational;
     details := d |}.

Definition ValidationError (msg : option jsstring) (d : value) : AppError :=
  new_AppError (default (str "Validation failed") msg)
    (Some HTTP_STATUS.BAD_REQUEST) (Some VALIDATION_ERROR) (Some true) d.

Definition AuthenticationError (msg : option jsstring) (c : option ErrorCode) : AppError :=
  new_AppError (default (str "Authentication failed") msg)
    (Some HTTP_STATUS.UNAUTHORIZED) (Some (default AUTH_UNAUTHORIZED c))
    (Some true) VUndefined.

Definition AuthorizationError (msg : option jsstring) : AppError :=
  new_AppError (default (str "Access forbidden") msg)
    (Some HTTP_STATUS.FORBIDDEN) (Some AUTH_FORBIDDEN) (Some true) VUndefined.

Definition NotFoundError (msg : option jsstring) : AppError :=
  new_AppError (default (str "Resource not found") msg)
    (Some HTTP_STATUS.NOT_FOUND) (Some RESOURCE_NOT_FOUND) (Some true) VUndefined.

Definition ConflictError (msg : option jsstring) : AppError :=
  new_AppError (default (str "Resource already exists") msg)
    (Some HTTP_STATUS.CONFLICT) (Some RESOURCE_ALREADY_EXISTS) (Some true) VUndefined.

Definition RateLimitError (msg : option jsstring) : AppError :=
  new_AppError (default (str "Too many requests") msg)
    (Some HTTP_STATUS.TOO_MANY_REQUESTS) (Some RATE_LIMIT_EXCEEDED) (Some true) VUndefined.

Definition DatabaseError (msg : option jsstring) (d : value) : AppError :=
  new_AppError (default (str "Database operation failed") msg)
    (Some HTTP_STATUS.INTERNAL_SERVER_ERROR) (Some DATABASE_ERROR) (Some true) d.

Definition OTPError (msg : jsstring) (c : ErrorCode) : AppError :=
  new_AppError msg (Some HTTP_STATUS.BAD_REQUEST) (Some c) (Some true) VUndefined.

(** A thrown value, as the error handler tells them apart: a [ZodError],
    an [AppError] (or subclass) instance, or any other [Error], of which
    the handler reads [name], [message], [stack] and, when present, the
    numeric [code] of a driver error. *)
Inductive PathSegment : Type :=
| Key (k : jsstring)
| Index (i : N).

Definition PathSegment_toString (p : PathSegment) : jsstring :=
  match p with
  | Key k => k
  | Index i => decimal i
  end.

Record ZodIssue : Type := mkZodIssue {
  issue_path : list PathSegment;
  issue_message : jsstring
}.

Record PlainError : Type := mkPlainError {
  err_name : jsstring;
  err_message : jsstring;
  err_stack : jsstring;
  err_code : option Z
}.

Inductive failure : Type :=
| FZod (issues : list ZodIssue)
| FApp (e : AppError)
| FOther (e : PlainError).

Definition isOperationalError (error : failure) : bool :=
  match error with
  | FApp e => isOperational e
  | _ => false
  end.

(** The status that the mapping table of the specification gives for a
    kind, for the kinds of which it says one: ValidationFailed,
    PermissionDenied and AccountDeactivated (the code knows one forbidden
    code), NotFound, Conflict, RateLimitExceeded, StorageFailure and
    Unknown. *)
Definition spec_status_of_kind (c : ErrorCode) : option Z :=
  match c with
  | VALIDATION_ERROR => Some 400
  | AUTH_FORBIDDEN => Some 403
  | RESOURCE_NOT_FOUND => Some 404
  | RESOURCE_ALREADY_EXISTS => Some 409
  | RATE_LIMIT_EXCEEDED => Some 429
  | DATABASE_ERROR | INTERNAL_ERROR => Some 500
  | _ => None
  end.

(** The error carries the status that the table gives for its kind. *)
Definition status_fixed_by_kind (e : AppError) : Prop :=
  forall st, spec_status_of_kind (code e) = Some st -> statusCode e = st.

End Errors.
Import Errors.

(** ** shared/middleware/rate-limit.middleware *)

Module RateLimit.

Record RateLimitRecord : Type := mkRecord {
  count : Z;
  resetTime : Z
}.

Abbreviation Store := (gmap jsstring RateLimitRecord).

(** The guard [!record || now > record.resetTime]. *)
Definition expired (now : Z) (record : option RateLimitRecord) : bool :=
  match record with
  | None => true
  | Some r => now >? resetTime r
  end.

(** [isRateLimited]: the returned boolean and the store after the call. *)
Definition isRateLimited (now : Z) (key : jsstring) (maxRequests windowMs : Z)
    (store : Store) : bool * Store :=
  let record := store !! key in
  if expired now record then
    (false, <[key := {| count := 1; resetTime := now + windowMs |}]> store)
  else
    match record with
    | None => (false, store)
    | Some r =>
        if count r >=? maxRequests then (true, store)
        else (false, <[key := {| count := count r + 1; resetTime := resetTime r |}]> store)
    end.

Definition getRemaining (now : Z) (key : jsstring) (maxRequests : Z)
    (store : Store) : Z :=
  let record := store !! key in
  if expired now record then maxRequests
  else match record with
       | None => maxRequests
       | Some r => Z.max 0 (maxRequests - count r)
       end.

Definition getResetTime (now : Z) (key : jsstring) (store : Store) : option Z :=
  let record := store !! key in
  if expired now record then None
  else resetTime <$> record.

(** [cleanup]: every entry with [now > record.resetTime] is deleted. *)
Definition cleanup (now : Z) (store : Store) : Store :=
  filter (fun kr : jsstring * RateLimitRecord => ¬ (now > resetTime kr.2)) store.

Definition clear (store : Store) : Store := ∅.

(** One call on the shared limiter. *)
Inductive op : Type :=
| Check (now : Z) (key : jsstring) (maxRequests windowMs : Z)
| Cleanup (now : Z)
| Clear.

Definition step (store : Store) (o : op) : Store :=
  match o with
  | Check now key maxRequests windowMs =>
      (isRateLimited now key maxRequests windowMs store).2
  | Cleanup now => cleanup now store
  | Clear => clear store
  end.

Definition run (ops : list op) (store : Store) : Store :=
  fold_left step ops store.

(** Successive checks of one key at the given instants: the answers, in
    order, and the final store. *)
Fixpoint checks (key : jsstring) (maxRequests windowMs : Z) (times : list Z)
    (store : Store) : list bool * Store :=
  match times with
  | [] => ([], store)
  | now :: rest =>
      let '(limited, store') := isRateLimited now key maxRequests windowMs store in
      let '(answers, store'') := checks key maxRequests windowMs rest store' in
      (limited :: answers, store'')
  end.

(** The behaviour claimed for a limit [L] and a window [W]: of the checks
    at [t0] and then at the instants [later], the first [L] are admitted
    and the one after them is refused. *)
Definition admits_L_then_rejects (L : nat) (W : Z) (key : jsstring) (t0 : Z)
    (later : list Z) (store : Store) : Prop :=
  (checks key (Z.of_nat L) W (t0 :: later) store).1 = repeat false L ++ [true].

(** The count of the record of [key], when there is one, is in [1..L]. *)
Definition count_in_range (L : Z) (key : jsstring) (store : Store) : Prop :=
  forall r, store !! key = Some r -> 1 <= count r <= L.

(** Every check of [key] in a run passes the limit [L]. *)
Definition uses_limit (key : jsstring) (L : Z) (o : op) : Prop :=
  match o with
  | Check _ k maxRequests _ => k = key -> maxRequests = L
  | _ => True
  end.

End RateLimit.

(** ** shared/utils/sanitization.util *)

Module Sanitization.

(** *** Character classes of the regular expressions *)

(** [\s], which is also what [trim] removes: WhiteSpace and
    LineTerminator code points, all of them single code units. *)
Definition isSpace (c : N) : bool :=
  ((9 <=? c) && (c <=? 13) || (c =? 32) || (c =? 160) || (c =? 5760)
   || (8192 <=? c) && (c <=? 8202) || (c =? 8232) || (c =? 8233)
   || (c =? 8239) || (c =? 8287) || (c =? 12288) || (c =? 65279))%N.

(** [\d]; [\D] is its complement. *)
Definition isDigit (c : N) : bool := ((48 <=? c) && (c <=? 57))%N.

(** [\w]: [A-Za-z0-9_]. *)
Definition isWord (c : N) : bool :=
  ((65 <=? c) && (c <=? 90) || (97 <=? c) && (c <=? 122) || isDigit c
   || (c =? 95))%N.

(** Case folding of the [i] flag (no [u] flag): a code unit is compared
    by its upper-case form, and a code unit above 127 never folds to an
    ASCII one, so against the ASCII letters of these patterns only the
    ASCII letters fold. *)
Definition canonicalize (c : N) : N :=
  if ((97 <=? c) && (c <=? 122))%N then (c - 32)%N else c.

Definition ci_eq (p c : N) : bool := (canonicalize p =? canonicalize c)%N.

(** *** String primitives *)

Fixpoint skip_while (p : N -> bool) (s : jsstring) : jsstring :=
  match s with
  | [] => []
  | c :: r => if p c then skip_while p r else s
  end.

Definition trimStart (s : jsstring) : jsstring := skip_while isSpace s.
Definition trimEnd (s : jsstring) : jsstring := rev (skip_while isSpace (rev s)).
Definition trim (s : jsstring) : jsstring := trimEnd (trimStart s).

Fixpoint startsWith (pre s : jsstring) : bool :=
  match pre, s with
  | [], _ => true
  | _ :: _, [] => false
  | p :: pre', c :: s' => (p =? c)%N && startsWith pre' s'
  end.

Definition substring (start : nat) (s : jsstring) : jsstring := skipn start s.

(** [s.replace(re, '')] for a global regular expression whose matches are
    never empty.  [m s] is the length of the match of [re] that starts at
    the head of [s], if there is one; the scan drops that many code units
    and resumes behind them, and copies one code unit where nothing
    matches.  [skip] counts the code units of a match still to drop. *)
Fixpoint replace_from (m : jsstring -> option nat) (skip : nat) (s : jsstring)
    : jsstring :=
  match s with
  | [] => []
  | c :: r =>
      match skip with
      | S k => replace_from m k r
      | O =>
          match m s with
          | Some (S k) => replace_from m k r
          | _ => c :: replace_from m O r
          end
      end
  end.

Definition replace_all (m : jsstring -> option nat) (s : jsstring) : jsstring :=
  replace_from m O s.

(** [/[<>]/]. *)
Definition match_angle (s : jsstring) : option nat :=
  match s with
  | c :: _ => if ((c =? 60) || (c =? 62))%N then Some 1%nat else None
  | [] => None
  end.

(** [/javascript:/i]. *)
Fixpoint ci_prefix (pat s : jsstring) : bool :=
  match pat, s with
  | [], _ => true
  | _ :: _, [] => false
  | p :: pat', c :: s' => ci_eq p c && ci_prefix pat' s'
  end.

Definition match_javascript (s : jsstring) : option nat :=
  if ci_prefix (str "javascript:") s then Some 11%nat else None.

(** [/on\w+\s*=/i].  The greedy [\w+] takes the whole run of word
    characters and [\s*] the whole run of spaces behind it; giving one
    back never helps, since the code unit that follows must be [=], which
    is neither a word character nor a space. *)
Definition match_handler (s : jsstring) : option nat :=
  match s with
  | o :: n :: w :: rest =>
      if ci_eq 111 o && ci_eq 110 n && isWord w then
        match skip_while isSpace (skip_while isWord rest) with
        | e :: behind =>
            if (e =? 61)%N then Some (length s - length behind)%nat else None
        | [] => None
        end
      else None
  | _ => None
  end.

(** *** The exported helpers *)

Definition sanitizeString (input : value) : jsstring :=
  match input with
  | VStr s =>
      replace_all match_handler
        (replace_all match_javascript
           (replace_all match_angle (trim s)))
  | _ => []
  end.

Definition sanitizePhoneNumber (phone : jsstring) : jsstring :=
  let cleaned := List.filter isDigit phone in
  if (length cleaned =? 10)%nat then cleaned
  else if (length cleaned =? 12)%nat && startsWith (str "91") cleaned
       then substring 2 cleaned
  else cleaned.

(** *** Objects *)

(** [sanitized[key] = v] on the plain object under construction: an
    existing own property keeps its place and takes the new value, a new
    one goes last (the keys arrive in the order of [Object.entries], index
    keys first and ascending, so last is where the engine puts it).  The
    key [__proto__] reaches the inherited setter and creates no own
    property: with a string, number, boolean or [undefined] the setter does
    nothing; with an object, an array or [null] it replaces the prototype
    of [sanitized].  A list of entries holds the own properties of an
    object and not its prototype, so [set_prop] gives the own properties of
    the result; what is said of a result as a whole is said for input in
    which no object has an own [__proto__] ([proto_free] below). *)
Fixpoint assign (k : jsstring) (v : value) (o : list (jsstring * value))
    : list (jsstring * value) :=
  match o with
  | [] => [(k, v)]
  | (k', v') :: r =>
      if jsstring_eqb k k' then (k, v) :: r else (k', v') :: assign k v r
  end.

Definition set_prop (o : list (jsstring * value)) (kv : jsstring * value)
    : list (jsstring * value) :=
  if jsstring_eqb kv.1 (str "__proto__") then o else assign kv.1 kv.2 o.

(** The object built by assigning the entries in order to [{}]. *)
Definition assign_all (es : list (jsstring * value)) : list (jsstring * value) :=
  fold_left set_prop es [].

(** [Object.entries] of an array. *)
Fixpoint indexed (i : N) (items : list value) : list (jsstring * value) :=
  match items with
  | [] => []
  | v :: r => (decimal i, v) :: indexed (N.succ i) r
  end.

Definition map_values (f : value -> value) (es : list (jsstring * value))
    : list (jsstring * value) :=
  List.map (fun kv => (kv.1, f kv.2)) es.

(** The value the loop of [sanitizeObject] stores for a property whose
    value is [v].  The recursive call [sanitizeObject(x)] on an object is
    the assignment of its sanitized entries; on an array that is an item
    of an array it is the same over the entries [(index, item)], so the
    result is a plain object keyed by the indices. *)
Fixpoint sanitizeProperty (v : value) : value :=
  match v with
  | VStr s => VStr (sanitizeString v)
  | VObj props =>
      VObj (assign_all (List.map (fun kv => (kv.1, sanitizeProperty kv.2)) props))
  | VArr items =>
      VArr (List.map
              (fun item =>
                 match item with
                 | VStr s => VStr (sanitizeString item)
                 | VObj props =>
                     VObj (assign_all
                             (List.map (fun kv => (kv.1, sanitizeProperty kv.2)) props))
                 | VArr items' =>
                     VObj (assign_all (indexed 0 (List.map sanitizeProperty items')))
                 | other => other
                 end) items)
  | other => other
  end.

(** [sanitizeObject(obj)]; [None] outside the parameter type (neither an
    object nor an array). *)
Definition sanitizeObject (obj : value) : option value :=
  match obj with
  | VObj props => Some (VObj (assign_all (map_values sanitizeProperty props)))
  | VArr items => Some (VObj (assign_all (indexed 0 (List.map sanitizeProperty items))))
  | _ => None
  end.

(** *** Strings on which no removal step fires *)

(** No suffix of [s] starts with a match of [m]. *)
Fixpoint no_match (m : jsstring -> option nat) (s : jsstring) : bool :=
  match s with
  | [] => true
  | _ :: r => negb (bool_decide (is_Some (m s))) && no_match m r
  end.

Definition inert (s : jsstring) : bool :=
  no_match match_angle s && no_match match_javascript s
  && no_match match_handler s.

(** The array callback of [sanitizeObject]: what [value.map] stores for
    [item]. *)
Definition sanitizeItem (item : value) : value :=
  match item with
  | VStr s => VStr (sanitizeString item)
  | VObj props => VObj (assign_all (map_values sanitizeProperty props))
  | VArr items => VObj (assign_all (indexed 0 (List.map sanitizeProperty items)))
  | other => other
  end.

(** *** Notions used by the properties *)

(** One more pass changes nothing. *)
Definition string_idempotent (s : jsstring) : Prop :=
  sanitizeString (VStr (sanitizeString (VStr s))) = sanitizeString (VStr s).

Definition object_idempotent (x : value) : Prop :=
  sanitizeObject x ≫= sanitizeObject = sanitizeObject x.

(** The head of [s], when there is one, is not dropped by [skip_while p]. *)
Definition head_stays (p : N -> bool) (s : jsstring) : Prop :=
  match s with
  | [] => True
  | c :: _ => p c = false
  end.

(** A matcher that still matches when the string goes on. *)
Definition extends (m : jsstring -> option nat) : Prop :=
  forall u b, is_Some (m u) -> is_Some (m (u ++ b)).

Definition keys (o : list (jsstring * value)) : list jsstring := List.map fst o.

(** A string with nothing to trim on which no removal step fires. *)
Definition settled (s : jsstring) : bool := jsstring_eqb (trim s) s && inert s.

Fixpoint leaves_settled (v : value) : bool :=
  match v with
  | VStr s => settled s
  | VArr items => forallb leaves_settled items
  | VObj props => forallb (fun kv => leaves_settled kv.2) props
  | _ => true
  end.

(** No object inside [v] has an own property named [__proto__]. *)
Fixpoint proto_free (v : value) : bool :=
  match v with
  | VArr items => forallb proto_free items
  | VObj props =>
      forallb (fun kv => negb (jsstring_eqb kv.1 (str "__proto__")) && proto_free kv.2)
        props
  | _ => true
  end.

(** A matcher whose matches are never empty. *)
Definition nonempty_matches (m : jsstring -> option nat) : Prop :=
  forall s n, m s = Some n -> (0 < n)%nat.

End Sanitization.

(** ** shared/utils/response.util *)

Module Response.

(** What [res.status(statusCode).json(response)] sends for an error: the
    status line and the fields of the body.  [error_details] and
    [meta_requestId] are [None] when the spread leaves the key out. *)
Record ErrorResponse : Type := mkErrorResponse {
  status : Z;
  success : bool;
  body_message : jsstring;
  error_code : ErrorCode;
  error_details : option value;
  meta_timestamp : jsstring;
  meta_requestId : option jsstring
}.

(** [typeof v === 'object'] for a value that is not [null]. *)
Definition is_object (v : value) : bool :=
  match v with
  | VObj _ | VArr _ => true
  | _ => false
  end.

(** [requestId && { requestId }]: the empty string is left out too. *)
Definition spread_requestId (requestId : option jsstring) : option jsstring :=
  match requestId with
  | Some (c :: r) => Some (c :: r)
  | _ => None
  end.

(** [errorResponse]; [timestamp] is [new Date().toISOString()]. *)
Definition errorResponse (timestamp : jsstring) (error : failure)
    (requestId : option jsstring) : ErrorResponse :=
  let '(statusCode, errorCode, msg, d) :=
    match error with
    | FApp e => (statusCode e, code e, message e, details e)
    | _ => (HTTP_STATUS.INTERNAL_SERVER_ERROR, INTERNAL_ERROR,
            str "An unexpected error occurred", VUndefined)
    end in
  {| status := statusCode;
     success := false;
     body_message := msg;
     error_code := errorCode;
     error_details := if is_object d then Some d else None;
     meta_timestamp := timestamp;
     meta_requestId := spread_requestId requestId |}.

End Response.
Import Response.

(** ** shared/middleware/error-handler.middleware *)

Module ErrorHandler.

Inductive NodeEnv : Set := development | production | test.

(** [err.name]: [ZodError] sets its own; an [AppError] inherits
    [Error.prototype.name]. *)
Definition name_of (err : failure) : jsstring :=
  match err with
  | FZod _ => str "ZodError"
  | FApp _ => str "Error"
  | FOther e => err_name e
  end.

Definition message_of (err : failure) : jsstring :=
  match err with
  | FZod _ => str "Validation failed"
  | FApp e => message e
  | FOther e => err_message e
  end.

(** ['code' in err && err.code === 11000]. *)
Definition has_code (err : failure) (n : Z) : bool :=
  match err with
  | FOther e => match err_code e with Some c => c =? n | None => false end
  | _ => false
  end.

Definition formatIssue (e : ZodIssue) : value :=
  VObj [(str "field", VStr (join (str ".") (List.map PathSegment_toString (issue_path e))));
        (str "message", VStr (issue_message e))].

(** [errorHandler]: the response it sends.  The two [console.error] calls
    write to the server log only and are left out. *)
Definition errorHandler (NODE_ENV : NodeEnv) (timestamp : jsstring)
    (err : failure) (correlationId : option jsstring) : ErrorResponse :=
  match err with
  | FZod issues =>
      errorResponse timestamp
        (FApp (ValidationError (Some (str "Validation failed"))
                 (VArr (List.map formatIssue issues))))
        correlationId
  | _ =>
      if jsstring_eqb (name_of err) (str "ValidationError") then
        errorResponse timestamp
          (FApp (ValidationError (Some (message_of err)) VUndefined)) correlationId
      else if jsstring_eqb (name_of err) (str "CastError") then
        errorResponse timestamp
          (FApp (ValidationError (Some (str "Invalid ID format")) VUndefined))
          correlationId
      else if jsstring_eqb (name_of err) (str "MongoServerError")
              && has_code err 11000 then
        errorResponse timestamp
          (FApp (ValidationError (Some (str "Resource already exists")) VUndefined))
          correlationId
      else
        match err with
        | FApp _ => errorResponse timestamp err correlationId
        | _ =>
            if negb (isOperationalError err)
               && match NODE_ENV with production => true | _ => false end
            then
              errorResponse timestamp
                (FApp (new_AppError (str "An unexpected error occurred")
                         None None None VUndefined))
                correlationId
            else errorResponse timestamp err correlationId
        end
  end.

(** [notFoundHandler]: the error handed to [next]. *)
Definition notFoundHandler (method path : jsstring) : AppError :=
  new_AppError (str "Route not found: " ++ method ++ str " " ++ path)
    (Some 404) None None VUndefined.

(** *** Notions used by the properties *)

(** A failure that the handler knows: a [ZodError], an [AppError], or a
    database error it tells by its name. *)
Definition recognized (err : failure) : bool :=
  match err with
  | FZod _ | FApp _ => true
  | FOther e =>
      jsstring_eqb (err_name e) (str "ValidationError")
      || jsstring_eqb (err_name e) (str "CastError")
      || jsstring_eqb (err_name e) (str "MongoServerError") && has_code err 11000
  end.

(** The response that shows nothing of the failure. *)
Definition generic_response (timestamp : jsstring) (requestId : option jsstring)
    : ErrorResponse :=
  {| status := 500;
     success := false;
     body_message := str "An unexpected error occurred";
     error_code := INTERNAL_ERROR;
     error_details := None;
     meta_timestamp := timestamp;
     meta_requestId := spread_requestId requestId |}.

(** The response shows the details of the error whenever it has some. *)
Definition details_pass_through (e : AppError) (r : ErrorResponse) : Prop :=
  error_details r
  = match details e with
    | VUndefined => None
    | d => Some d
    end.

End ErrorHandler.
Import ErrorHandler.

(** ** Admin authorization middleware *)

Module AdminAuth.

(** [IDecodedToken]. *)
Record DecodedToken : Type := mkDecodedToken {
  userId : jsstring;
  role : UserRole;
  sessionId : option jsstring;
  iat : Z;
  exp : Z
}.

(** Modelled from the spec: [IAdminPermissions] is declared in the admin
    schema, which is not among the sources; the specification gives it as
    a fixed mapping from permission name to boolean.  The map holds the
    own properties of the object that carries the permissions. *)
Abbreviation AdminPermissions := (gmap jsstring bool).

(** The fields of an admin document that the middleware reads. *)
Record AdminDocument : Type := mkAdminDocument {
  doc_id : jsstring;
  doc_email : jsstring;
  doc_adminRole : jsstring;
  doc_permissions : AdminPermissions;
  doc_isActive : bool
}.

(** [req.admin]. *)
Record AdminData : Type := mkAdminData {
  id : jsstring;
  email : jsstring;
  adminRole : jsstring;
  permissions : AdminPermissions
}.

(** What [await AdminModel.findById(id)] gives: a document, [null], or a
    rejection. *)
Inductive lookup : Type :=
| Found (admin : AdminDocument)
| Missing
| Rejected (error : failure).

(** What a middleware does with [next]: [Next a] continues with the data
    it attached, [NextError e] hands over the error it caught. *)
Inductive outcome (A : Type) : Type :=
| Next (attached : A)
| NextError (error : failure).
Arguments Next {A} attached.
Arguments NextError {A} error.

Definition requireAdmin (user : option DecodedToken)
    (findById : jsstring -> lookup) : outcome AdminData :=
  match user with
  | None => NextError (FApp (AuthenticationError (Some (str "Not authenticated")) None))
  | Some u =>
      if negb (UserRole_eqb (role u) ADMIN) then
        NextError (FApp (AuthorizationError (Some (str "Admin access required"))))
      else
        match findById (userId u) with
        | Rejected error => NextError error
        | Missing =>
            NextError (FApp (AuthenticationError (Some (str "Admin account not found")) None))
        | Found admin =>
            if negb (doc_isActive admin) then
              NextError (FApp (AuthorizationError (Some (str "Admin account is deactivated"))))
            else
              Next {| id := doc_id admin;
                      email := doc_email admin;
                      adminRole := doc_adminRole admin;
                      permissions := doc_permissions admin |}
        end
  end.

(** The names of the properties of [Object.prototype], which every plain
    object inherits. *)
Definition Object_prototype_names : list jsstring :=
  [str "constructor"; str "hasOwnProperty"; str "isPrototypeOf";
   str "propertyIsEnumerable"; str "toLocaleString"; str "toString";
   str "valueOf"; str "__proto__"; str "__defineGetter__";
   str "__defineSetter__"; str "__lookupGetter__"; str "__lookupSetter__"].

Definition inherited (name : jsstring) : bool :=
  existsb (jsstring_eqb name) Object_prototype_names.

(** Truthiness of [permissions[permission]].  The map holds the own
    properties of the object.  A name that is not an own property is looked
    up along the prototype chain: there it reads as [undefined], unless it
    names a property of [Object.prototype], which reads as a function (as
    the prototype object itself for [__proto__]) and is truthy. *)
Definition has_permission (perms : AdminPermissions) (permission : jsstring) : bool :=
  match perms !! permission with
  | Some b => b
  | None => inherited permission
  end.

Definition requirePermission (permission : jsstring) (admin : option AdminData)
    : outcome unit :=
  match admin with
  | None =>
      NextError (FApp (AuthenticationError (Some (str "Admin authentication required")) None))
  | Some a =>
      if jsstring_eqb (adminRole a) (str "super_admin") then Next tt
      else if negb (has_permission (permissions a) permission) then
        NextError (FApp (AuthorizationError
                           (Some (str "Permission denied. Required permission: "
                                  ++ permission))))
      else Next tt
  end.

Definition requireSuperAdmin (admin : option AdminData) : outcome unit :=
  match admin with
  | None =>
      NextError (FApp (AuthenticationError (Some (str "Admin authentication required")) None))
  | Some a =>
      if negb (jsstring_eqb (adminRole a) (str "super_admin")) then
        NextError (FApp (AuthorizationError (Some (str "Super admin access required"))))
      else Next tt
  end.

(** *** Notions used by the properties *)

(** The error of a denied permission. *)
Definition permission_denied (permission : jsstring) : AppError :=
  AuthorizationError (Some (str "Permission denied. Required permission: " ++ permission)).

(** The error of a deactivated admin account. *)
Definition account_deactivated : AppError :=
  AuthorizationError (Some (str "Admin account is deactivated")).

(** Two errors that a caller can tell apart by their kind. *)
Definition distinct_kind (e1 e2 : AppError) : Prop := code e1 ≠ code e2.

End AdminAuth.
Import AdminAuth.

(** ** Regular expressions tested against a whole string *)

Module Regex.

(** The regular expressions of the sources that are tested between [^] and
    [$] use character classes, sequence, [+] and bounded repetition only;
    for these [re.test(s)] says whether the whole of [s] belongs to the
    language of the expression, which the derivative matcher decides. *)
Inductive re : Type :=
| Void
| Eps
| Chr (p : N -> bool)
| Seq (a b : re)
| Alt (a b : re)
| Star (a : re).

Fixpoint nullable (r : re) : bool :=
  match r with
  | Void | Chr _ => false
  | Eps | Star _ => true
  | Seq a b => nullable a && nullable b
  | Alt a b => nullable a || nullable b
  end.

Fixpoint deriv (c : N) (r : re) : re :=
  match r with
  | Void | Eps => Void
  | Chr p => if p c then Eps else Void
  | Seq a b =>
      if nullable a then Alt (Seq (deriv c a) b) (deriv c b)
      else Seq (deriv c a) b
  | Alt a b => Alt (deriv c a) (deriv c b)
  | Star a => Seq (deriv c a) (Star a)
  end.

Fixpoint matches (r : re) (s : jsstring) : bool :=
  match s with
  | [] => nullable r
  | c :: s' => matches (deriv c r) s'
  end.

(** [a+] and [a{n}]. *)
Definition Plus (a : re) : re := Seq a (Star a).

Fixpoint Times (n : nat) (a : re) : re :=
  match n with
  | O => Eps
  | S n' => Seq a (Times n' a)
  end.

(** The language of an expression. *)
Inductive lang : re -> jsstring -> Prop :=
| lang_eps : lang Eps []
| lang_chr p c : p c = true -> lang (Chr p) [c]
| lang_seq a b s t : lang a s -> lang b t -> lang (Seq a b) (s ++ t)
| lang_alt_l a b s : lang a s -> lang (Alt a b) s
| lang_alt_r a b s : lang b s -> lang (Alt a b) s
| lang_star_nil a : lang (Star a) []
| lang_star_cons a s t : lang a s -> lang (Star a) t -> lang (Star a) (s ++ t).

End Regex.

(** ** shared/utils/sanitization.util: validation and masking helpers *)

Module Masking.
Import Sanitization Regex.

(** [[6-9]]. *)
Definition isSixToNine (c : N) : bool := ((54 <=? c) && (c <=? 57))%N.

(** [/^[6-9]\d{9}$/]. *)
Definition indianMobile : re := Seq (Chr isSixToNine) (Times 9 (Chr isDigit)).

Definition isValidIndianPhone (phone : jsstring) : bool :=
  matches indianMobile (sanitizePhoneNumber phone).

(** [[^\s@]]. *)
Definition isAddressChar (c : N) : bool := negb (isSpace c) && negb (c =? 64)%N.

(** [/^[^\s@]+@[^\s@]+\.[^\s@]+$/]. *)
Definition emailRegex : re :=
  Seq (Plus (Chr isAddressChar))
    (Seq (Chr (N.eqb 64))
       (Seq (Plus (Chr isAddressChar))
          (Seq (Chr (N.eqb 46)) (Plus (Chr isAddressChar))))).

Definition isValidEmail (email : jsstring) : bool := matches emailRegex email.

(** [s.slice(-n)]. *)
Definition slice_last (n : nat) (s : jsstring) : jsstring :=
  skipn (length s - n) s.

Definition maskPhoneNumber (phone : jsstring) : jsstring :=
  let cleaned := sanitizePhoneNumber phone in
  if (4 <=? length cleaned)%nat then str "******" ++ slice_last 4 cleaned
  else str "******".

(** [s.split(sep)] for a separator of one code unit. *)
Fixpoint split (sep : N) (s : jsstring) : list jsstring :=
  match s with
  | [] => [[]]
  | c :: r =>
      if (c =? sep)%N then [] :: split sep r
      else match split sep r with
           | h :: t => (c :: h) :: t
           | [] => [[c]]
           end
  end.

(** ['*'.repeat(n)]. *)
Definition stars (n : nat) : jsstring := repeat 42%N n.

Definition maskLocal (localPart : jsstring) : jsstring :=
  if (2 <? length localPart)%nat
  then firstn 2 localPart ++ stars (length localPart - 2)
  else stars (length localPart).

(** [maskEmail]: the destructuring takes the first two pieces of the split;
    a missing or empty piece is falsy. *)
Definition maskEmail (email : jsstring) : jsstring :=
  match split 64 email with
  | localPart :: domain :: _ =>
      match localPart, domain with
      | [], _ | _, [] => str "***@***"
      | _, _ => maskLocal localPart ++ str "@" ++ domain
      end
  | _ => str "***@***"
  end.

End Masking.

(** ** Notions about sanitized values *)

Module Leaves.

(** [<] or [>]. *)
Definition isAngle (c : N) : bool := ((c =? 60) || (c =? 62))%N.

Definition no_angle (s : jsstring) : bool := forallb (fun c => negb (isAngle c)) s.

(** Every string leaf of [v] satisfies [P]. *)
Fixpoint leaves_all (P : jsstring -> bool) (v : value) : bool :=
  match v with
  | VStr s => P s
  | VArr items => forallb (leaves_all P) items
  | VObj props => forallb (fun kv => leaves_all P kv.2) props
  | _ => true
  end.

(** [o[k]] for an own property. *)
Fixpoint get_prop (k : jsstring) (o : list (jsstring * value)) : option value :=
  match o with
  | [] => None
  | (k', v) :: r => if jsstring_eqb k k' then Some v else get_prop k r
  end.

(** No [@] in [s]. *)
Definition no_at (s : jsstring) : bool := forallb (fun c => negb (c =? 64)%N) s.

End Leaves.

(** ** The request, as the middleware reads it *)

Module Http.

Record Request : Type := mkRequest {
  req_ip : option jsstring;
  req_method : jsstring;
  req_path : jsstring;
  req_authorization : option jsstring;
  req_contentType : option jsstring;
  req_cookie_accessToken : option jsstring;
  req_body : value;
  req_query : value;
  req_params : value;
  req_correlationId : option jsstring
}.

(** [n.toString()] for an integer. *)
Definition Number_toString (z : Z) : jsstring :=
  if z <? 0 then 45%N :: decimal (Z.to_N (- z)) else decimal (Z.to_N z).

(** [Math.ceil(a / b)] for integers [a] and [b > 0]. *)
Definition ceil_div (a b : Z) : Z := - ((- a) / b).

(** [s || d] for an optional string: [undefined] and the empty string are
    falsy. *)
Definition string_or (s : option jsstring) (d : jsstring) : jsstring :=
  match s with
  | Some (c :: r) => c :: r
  | _ => d
  end.

(** [n || d] for an optional number: [undefined] and [0] are falsy. *)
Definition number_or (n : option Z) (d : Z) : Z :=
  match n with
  | None | Some 0 => d
  | Some v => v
  end.

End Http.

(** ** shared/middleware/rate-limit.middleware: the middleware *)

Module RateLimitMiddleware.
Import Http RateLimit.

Record Options : Type := mkOptions {
  maxRequests : option Z;
  windowMs : option Z;
  keyGenerator : option (Request -> jsstring);
  skip : option (Request -> bool)
}.

(** The two values read from [env]. *)
Record Env : Type := mkEnv {
  RATE_LIMIT_MAX_REQUESTS : Z;
  RATE_LIMIT_WINDOW_MS : Z
}.

(** What the middleware does: the headers it sets, in order, the argument
    of [next] ([None] for a plain [next()]) and the store it leaves. *)
Record Handled : Type := mkHandled {
  headers : list (jsstring * jsstring);
  next_arg : option failure;
  store_after : gmap jsstring RateLimitRecord
}.

Definition tooManyRequests (windowMs : Z) : jsstring :=
  str "Too many requests. Please try again after "
  ++ Number_toString (ceil_div windowMs 1000) ++ str " seconds.".

(** [rateLimit(options)(req, res, next)].  [isRateLimited], [getRemaining]
    and [getResetTime] read the clock one after the other: [now1], [now2],
    [now3]. *)
Definition rateLimit (options : option Options) (env : Env) (now1 now2 now3 : Z)
    (req : Request) (store : gmap jsstring RateLimitRecord) : Handled :=
  let maxRequests := number_or (options ≫= maxRequests) (RATE_LIMIT_MAX_REQUESTS env) in
  let windowMs := number_or (options ≫= windowMs) (RATE_LIMIT_WINDOW_MS env) in
  let keyGenerator :=
    default (fun req => string_or (req_ip req) (str "unknown")) (options ≫= keyGenerator) in
  let skip := default (fun _ => false) (options ≫= skip) in
  if skip req then {| headers := []; next_arg := None; store_after := store |}
  else
    let key := keyGenerator req in
    let '(isLimited, store') := isRateLimited now1 key maxRequests windowMs store in
    let remaining := getRemaining now2 key maxRequests store' in
    let resetTime := getResetTime now3 key store' in
    {| headers :=
         [(str "X-RateLimit-Limit", Number_toString maxRequests);
          (str "X-RateLimit-Remaining", Number_toString remaining)]
         ++ match resetTime with
            | Some t =>
                if t =? 0 then []
                else [(str "X-RateLimit-Reset", Number_toString (ceil_div t 1000))]
            | None => []
            end;
       next_arg :=
         if isLimited then Some (FApp (RateLimitError (Some (tooManyRequests windowMs))))
         else None;
       store_after := store' |}.

Definition strictRateLimit : Env -> Z -> Z -> Z -> Request ->
    gmap jsstring RateLimitRecord -> Handled :=
  rateLimit (Some {| maxRequests := Some 5; windowMs := Some (15 * 60 * 1000);
                     keyGenerator := None; skip := None |}).

(** *** Notions used by the properties *)

(** The key of a request under the default [keyGenerator]. *)
Definition defaultKey (req : Request) : jsstring :=
  string_or (req_ip req) (str "unknown").

(** A request reaching a middleware, with the three clock reads of its
    handling. *)
Record Arrival : Type := mkArrival {
  read1 : Z;
  read2 : Z;
  read3 : Z;
  request : Request
}.

Definition handle
    (middleware : Z -> Z -> Z -> Request -> gmap jsstring RateLimitRecord -> Handled)
    (a : Arrival) (store : gmap jsstring RateLimitRecord) : Handled :=
  middleware (read1 a) (read2 a) (read3 a) (request a) store.

(** Requests handled one after the other by one middleware on the store of
    the module's limiter: what each handling did, in order, and the store
    after the last. *)
Fixpoint serve
    (middleware : Z -> Z -> Z -> Request -> gmap jsstring RateLimitRecord -> Handled)
    (arrivals : list Arrival) (store : gmap jsstring RateLimitRecord)
    : list Handled * gmap jsstring RateLimitRecord :=
  match arrivals with
  | [] => ([], store)
  | a :: rest =>
      let h := handle middleware a store in
      let '(hs, store') := serve middleware rest (store_after h) in
      (h :: hs, store')
  end.

End RateLimitMiddleware.

(** ** shared/utils/validation.util and the validation middleware *)

Module Validation.
Import Http Sanitization.

(** A Zod schema, as far as the callers see it: [schema.parse(data)]
    returns the parsed value or throws; a [ZodError] is [FZod]. *)
Definition Schema : Type := value -> value + failure.

Definition formatIssues (issues : list ZodIssue) : list value :=
  List.map formatIssue issues.

(** [validateSchema]: the value returned ([inl]) or the error thrown
    ([inr]). *)
Definition validateSchema (schema : Schema) (data : value) : value + failure :=
  match schema data with
  | inl v => inl v
  | inr (FZod issues) =>
      inr (FApp (ValidationError (Some (str "Validation failed"))
                   (VArr (formatIssues issues))))
  | inr error => inr error
  end.

Inductive SafeResult : Type :=
| Success (data : value)
| Failure (errors : list value).

Definition safeValidate (schema : Schema) (data : value) : SafeResult :=
  match schema data with
  | inl validData => Success validData
  | inr (FZod issues) => Failure (formatIssues issues)
  | inr _ =>
      Failure [VObj [(str "field", VStr (str "unknown"));
                     (str "message", VStr (str "Validation failed"))]]
  end.

Record ValidationSchema : Type := mkValidationSchema {
  body : option Schema;
  query : option Schema;
  params : option Schema
}.

(** [req.validated]. *)
Record Validated : Type := mkValidated {
  validated_body : option value;
  validated_query : option value;
  validated_params : option value
}.

(** [sanitizeObject(req.body)] for a body that is neither [undefined] nor
    [null]: besides objects and arrays, [Object.entries] lists the code
    units of a string and nothing for a number or a boolean. *)
Definition sanitizeBody (b : value) : value :=
  match sanitizeObject b with
  | Some v => v
  | None =>
      match b with
      | VStr s =>
          VObj (assign_all
                  (map_values sanitizeProperty
                     (indexed 0 (List.map (fun c => VStr [c]) s))))
      | _ => VObj []
      end
  end.

(** What [validate(schema)] leaves: [req.validated] as far as it was
    filled, and the argument of [next].  [stack] is the trace that the
    engine records in the [Error] for a missing body. *)
Record Handled : Type := mkHandled {
  validated : Validated;
  next_arg : option failure
}.

Definition missingBody (stack : jsstring) : failure :=
  FOther {| err_name := str "Error";
            err_message := str "Request body is required";
            err_stack := stack;
            err_code := None |}.

Definition validate (schema : ValidationSchema) (stack : jsstring) (req : Request)
    : Handled :=
  let v0 := {| validated_body := None; validated_query := None;
               validated_params := None |} in
  let after_body : Validated + failure :=
    match body schema with
    | None => inl v0
    | Some s =>
        match req_body req with
        | VUndefined | VNull => inr (missingBody stack)
        | b =>
            match validateSchema s (sanitizeBody b) with
            | inl v => inl {| validated_body := Some v; validated_query := None;
                              validated_params := None |}
            | inr e => inr e
            end
        end
    end in
  match after_body with
  | inr e => {| validated := v0; next_arg := Some e |}
  | inl v1 =>
      let after_query : Validated + failure :=
        match query schema with
        | None => inl v1
        | Some s =>
            match validateSchema s (req_query req) with
            | inl v => inl {| validated_body := validated_body v1;
                              validated_query := Some v;
                              validated_params := None |}
            | inr e => inr e
            end
        end in
      match after_query with
      | inr e => {| validated := v1; next_arg := Some e |}
      | inl v2 =>
          match params schema with
          | None => {| validated := v2; next_arg := None |}
          | Some s =>
              match validateSchema s (req_params req) with
              | inl v => {| validated := {| validated_body := validated_body v2;
                                            validated_query := validated_query v2;
                                            validated_params := Some v |};
                            next_arg := None |}
              | inr e => {| validated := v2; next_arg := Some e |}
              end
          end
      end
  end.

End Validation.

(** ** The authentication middleware *)

Module Auth.
Import Http Sanitization.

(** [jwtService.verifyAccessToken], which is not among the sources: it
    returns the decoded token or throws. *)
Definition Verify : Type := jsstring -> DecodedToken + failure.

(** The token of an [Authorization: Bearer ...] header. *)
Definition bearer (authorization : option jsstring) : option jsstring :=
  match authorization with
  | Some h => if startsWith (str "Bearer ") h then Some (skipn 7 h) else None
  | None => None
  end.

(** Truthiness of an optional string. *)
Definition truthy (s : option jsstring) : option jsstring :=
  match s with
  | Some (c :: r) => Some (c :: r)
  | _ => None
  end.

Definition authenticate (verify : Verify) (req : Request) : outcome DecodedToken :=
  let token :=
    match truthy (req_cookie_accessToken req) with
    | Some t => Some t
    | None => truthy (bearer (req_authorization req))
    end in
  match token with
  | None =>
      NextError (FApp (AuthenticationError (Some (str "No access token provided")) None))
  | Some t =>
      match verify t with
      | inl decoded => Next decoded
      | inr error => NextError error
      end
  end.

Definition includes_role (allowedRoles : list UserRole) (r : UserRole) : bool :=
  existsb (UserRole_eqb r) allowedRoles.

Definition authorize (allowedRoles : list UserRole) (user : option DecodedToken)
    : outcome unit :=
  match user with
  | None => NextError (FApp (AuthenticationError (Some (str "Not authenticated")) None))
  | Some u =>
      if negb (includes_role allowedRoles (role u)) then
        NextError (FApp (AuthorizationError
                           (Some (str "Access forbidden. Required roles: "
                                  ++ join (str ", ") (List.map UserRole_name allowedRoles)))))
      else Next tt
  end.

(** [optionalAuth]: the user it attaches, if any; it always calls
    [next()]. *)
Definition optionalAuth (verify : Verify) (req : Request) : option DecodedToken :=
  match req_authorization req with
  | Some (c :: h) =>
      if startsWith (str "Bearer ") (c :: h) then
        match verify (skipn 7 (c :: h)) with
        | inl decoded => Some decoded
        | inr _ => None
        end
      else None
  | _ => None
  end.

(** [authenticate] and then [authorize(...allowedRoles)] on one route: an
    error handed to [next] skips the second middleware. *)
Definition authenticated_route (verify : Verify) (allowedRoles : list UserRole)
    (req : Request) : outcome DecodedToken :=
  match authenticate verify req with
  | NextError e => NextError e
  | Next u =>
      match authorize allowedRoles (Some u) with
      | NextError e => NextError e
      | Next _ => Next u
      end
  end.

(** The status with which the error handler answers an outcome that is an
    error. *)
Definition answered_status (A : Type) (o : outcome A) : option Z :=
  match o with
  | Next _ => None
  | NextError e => Some (status (errorHandler production [] e None))
  end.
Arguments answered_status {A} o.

End Auth.

(** ** Notions about the authentication middleware *)

Module AuthNotions.
Import Http Auth.

(** The token that [authenticate] takes from a request: the cookie when it
    is not empty, else the bearer token when it is not empty. *)
Definition presented_token (req : Request) : option jsstring :=
  match truthy (req_cookie_accessToken req) with
  | Some t => Some t
  | None => truthy (bearer (req_authorization req))
  end.

(** What [authenticate] makes of the answer of the verifier. *)
Definition of_verified (r : DecodedToken + failure) : outcome DecodedToken :=
  match r with
  | inl decoded => Next decoded
  | inr error => NextError error
  end.

Definition noToken : failure :=
  FApp (AuthenticationError (Some (str "No access token provided")) None).

End AuthNotions.

(** ** shared/middleware/request-logger.middleware: log hygiene *)

Module RequestLogger.
Import Sanitization Leaves.

Definition sensitiveFields : list jsstring :=
  [str "password"; str "token"; str "otp"; str "apiKey"; str "secret"].

Definition REDACTED : value := VStr (str "***REDACTED***").

(** [field in sanitized] on the plain copy [{ ...data }]. *)
Definition has_key (k : jsstring) (o : list (jsstring * value)) : bool :=
  existsb (jsstring_eqb k) (keys o).

(** The loop over the fields. *)
Definition redact (fields : list jsstring) (o : list (jsstring * value))
    : list (jsstring * value) :=
  fold_left (fun sanitized field =>
               if has_key field sanitized then assign field REDACTED sanitized
               else sanitized)
    fields o.

Definition sanitizeLogData (data : list (jsstring * value)) : list (jsstring * value) :=
  redact sensitiveFields data.

End RequestLogger.

(** ** shared/middleware/security.middleware: the content type check *)

Module Security.
Import Http Sanitization.

(** [hay.includes(needle)]. *)
Fixpoint includes (needle hay : jsstring) : bool :=
  startsWith needle hay
  || match hay with
     | [] => false
     | _ :: r => includes needle r
     end.

Definition carries_body (method : jsstring) : bool :=
  existsb (jsstring_eqb method) [str "POST"; str "PUT"; str "PATCH"].

Definition wrongContentType (stack : jsstring) : failure :=
  FOther {| err_name := str "Error";
            err_message := str "Content-Type must be application/json";
            err_stack := stack;
            err_code := None |}.

(** [validateContentType]: [None] when it calls [next()], else the error
    it throws. *)
Definition validateContentType (stack : jsstring) (req : Request) : option failure :=
  if carries_body (req_method req) then
    match req_contentType req with
    | Some (c :: r) =>
        if includes (str "application/json") (c :: r) then None
        else Some (wrongContentType stack)
    | _ => Some (wrongContentType stack)
    end
  else None.

End Security.

(** ** infrastructure/database/base.schema *)

Module BaseSchema.
Import Http Sanitization Leaves.

(** [delete o[k]]. *)
Definition delete_prop (k : jsstring) (o : list (jsstring * value))
    : list (jsstring * value) :=
  List.filter (fun kv => negb (jsstring_eqb kv.1 k)) o.

(** The [toJSON] transform of [baseSchemaOptions], on the plain object
    [ret]. *)
Definition toJSON_transform (ret : list (jsstring * value)) : list (jsstring * value) :=
  let ret1 := assign (str "id") (default VUndefined (get_prop (str "_id") ret)) ret in
  delete_prop (str "deletedBy")
    (delete_prop (str "deletedAt")
       (delete_prop (str "isDeleted")
          (delete_prop (str "_id") ret1))).

(** The two numeric options of [paginate]; numbers are integers. *)
Record PaginationOptions : Type := mkPaginationOptions {
  page : option Z;
  limit : option Z
}.

Record Pagination : Type := mkPagination {
  p_page : Z;
  p_limit : Z;
  p_total : Z;
  p_totalPages : Z;
  p_hasNextPage : bool;
  p_hasPrevPage : bool
}.

Definition effective_page (options : PaginationOptions) : Z :=
  Z.max 1 (number_or (page options) 1).

Definition effective_limit (options : PaginationOptions) : Z :=
  Z.min 100 (Z.max 1 (number_or (limit options) 10)).

(** The [skip] handed to the query. *)
Definition query_skip (options : PaginationOptions) : Z :=
  (effective_page options - 1) * effective_limit options.

(** The [pagination] member of the result of [paginate], for the count
    [total] that [countDocuments] returns. *)
Definition pagination (options : PaginationOptions) (total : Z) : Pagination :=
  let page := effective_page options in
  let limit := effective_limit options in
  let totalPages := ceil_div total limit in
  {| p_page := page;
     p_limit := limit;
     p_total := total;
     p_totalPages := totalPages;
     p_hasNextPage := page <? totalPages;
     p_hasPrevPage := page >? 1 |}.

End BaseSchema.

(** ** The database connection *)

Module Database.

Record Connection : Type := mkConnection {
  isConnected : bool;
  connectionAttempts : nat
}.

Definition MAX_RETRY_ATTEMPTS : nat := 5.

(** [connect()].  [attempt i] tells whether the [i]-th call of
    [mongoose.connect] on this object succeeds; [calls] counts the calls
    made so far.  The result is whether the promise resolves, the fields
    afterwards and the calls made; [fuel] bounds the depth of the
    recursion. *)
Fixpoint connect (fuel : nat) (attempt : nat -> bool) (calls : nat) (c : Connection)
    : option (bool * Connection * nat) :=
  match fuel with
  | O => None
  | S fuel' =>
      if isConnected c then Some (true, c, calls)
      else if attempt calls then
        Some (true, {| isConnected := true; connectionAttempts := 0 |}, S calls)
      else
        let attempts := S (connectionAttempts c) in
        if (attempts <? MAX_RETRY_ATTEMPTS)%nat then
          connect fuel' attempt (S calls)
            {| isConnected := isConnected c; connectionAttempts := attempts |}
        else
          Some (false, {| isConnected := isConnected c; connectionAttempts := attempts |},
                S calls)
  end.

(** The calls that one [connect()] may make from [attempts] failures. *)
Definition budget (attempts : nat) : nat := Nat.max 1 (MAX_RETRY_ATTEMPTS - attempts).

(** [buildMongoUri]. *)
Definition buildMongoUri (MONGODB_URI : jsstring) (MONGODB_OPTIONS : option jsstring)
    : jsstring :=
  match MONGODB_OPTIONS with
  | Some (c :: r) =>
      let separator :=
        if Security.includes (str "?") MONGODB_URI then str "&" else str "?" in
      MONGODB_URI ++ separator ++ (c :: r)
  | _ => MONGODB_URI
  end.

End Database.

(** * Properties *)

(** ** Rate limiter *)

Section RateLimitFacts.
Import RateLimit.

Implicit Types (store : gmap jsstring RateLimitRecord) (key : jsstring).
Implicit Types (now W L : Z) (r : RateLimitRecord).

Lemma expired_true now (o : option RateLimitRecord) :
  expired now o = true <-> o = None \/ exists r, o = Some r /\ now > resetTime r.
Proof.
  destruct o as [r|]; simpl.
  - rewrite Z.gtb_gt. split.
    + intros H. right. exists r. split; [reflexivity | lia].
    + intros [H | (r' & [= <-] & H)]; [discriminate | lia].
  - split; [intros _; left; reflexivity | reflexivity].
Qed.

Lemma expired_live now r : ¬ now > resetTime r -> expired now (Some r) = false.
Proof. intros H. simpl. rewrite Z.gtb_ltb. apply Z.ltb_ge. lia. Qed.

(** A check of an absent or expired record opens a window. *)
Lemma isRateLimited_opens now key L W store :
  expired now (store !! key) = true ->
  isRateLimited now key L W store
  = (false, <[key := {| count := 1; resetTime := now + W |}]> store).
Proof. intros H. unfold isRateLimited. rewrite H. reflexivity. Qed.

(** A check of a live record below the limit counts the request. *)
Lemma isRateLimited_counts now key L W store r :
  store !! key = Some r -> ¬ now > resetTime r -> count r < L ->
  isRateLimited now key L W store
  = (false, <[key := {| count := count r + 1; resetTime := resetTime r |}]> store).
Proof.
  intros Hr Hlive Hc. unfold isRateLimited. rewrite Hr, (expired_live _ _ Hlive).
  replace (count r >=? L) with false; [reflexivity |].
  symmetry. rewrite Z.geb_leb. apply Z.leb_gt. lia.
Qed.

(** A check of a live record at the limit is refused and writes nothing. *)
Lemma isRateLimited_refuses now key L W store r :
  store !! key = Some r -> ¬ now > resetTime r -> count r >= L ->
  isRateLimited now key L W store = (true, store).
Proof.
  intros Hr Hlive Hc. unfold isRateLimited. rewrite Hr, (expired_live _ _ Hlive).
  replace (count r >=? L) with true; [reflexivity |].
  symmetry. rewrite Z.geb_leb. apply Z.leb_le. lia.
Qed.

(** A check of one key leaves the records of the others alone. *)
Lemma isRateLimited_frame now key key' L W store :
  key ≠ key' -> (isRateLimited now key L W store).2 !! key' = store !! key'.
Proof.
  intros Hne. unfold isRateLimited.
  destruct (expired now (store !! key)); simpl.
  - by rewrite lookup_insert_ne.
  - destruct (store !! key) as [r|]; [| reflexivity].
    destruct (count r >=? L); simpl; [reflexivity |].
    by rewrite lookup_insert_ne.
Qed.

(** Checks inside a window that holds [c] requests: the next [L - c] are
    admitted and every later one is refused. *)
Lemma checks_in_window key W (times : list Z) : forall store (c R : Z) (n : nat),
  store !! key = Some {| count := c; resetTime := R |} ->
  Forall (fun t => ¬ t > R) times ->
  (checks key (c + Z.of_nat n) W times store).1
  = repeat false (Nat.min n (length times))
    ++ repeat true (length times - n).
Proof.
  induction times as [| t times IH]; intros store c R n Hr Hall.
  - simpl. rewrite Nat.min_0_r. reflexivity.
  - apply Forall_cons in Hall as [Ht Hall]. simpl.
    destruct n as [| n].
    + rewrite (isRateLimited_refuses t key _ W store _ Hr); simpl; [| lia | lia].
      specialize (IH store c R 0%nat Hr Hall).
      destruct (checks key (c + Z.of_nat 0) W times store) as [answers store'].
      simpl in *. rewrite IH, Nat.sub_0_r. reflexivity.
    + rewrite (isRateLimited_counts t key _ W store _ Hr); simpl; [| lia | lia].
      specialize (IH (<[key := {| count := c + 1; resetTime := R |}]> store)
                    (c + 1) R n (lookup_insert_eq _ _ _) Hall).
      replace (c + 1 + Z.of_nat n) with (c + Z.of_nat (S n)) in IH by lia.
      destruct (checks key (c + Z.of_nat (S n)) W times _) as [answers store'].
      simpl in *. rewrite IH. reflexivity.
Qed.

Lemma step_count_in_range L key store o :
  1 <= L -> uses_limit key L o ->
  count_in_range L key store -> count_in_range L key (step store o).
Proof.
  intros HL Ho Hinv r. destruct o as [now k m W | now |]; simpl.
  - destruct (decide (k = key)) as [-> | Hne].
    + simpl in Ho. rewrite (Ho eq_refl). unfold isRateLimited.
      destruct (expired now (store !! key)) eqn:He; simpl.
      * rewrite lookup_insert_eq. intros [= <-]. simpl. lia.
      * destruct (store !! key) as [r0|] eqn:Hr0; [| discriminate].
        destruct (count r0 >=? L) eqn:Hc; simpl.
        -- rewrite Hr0. intros [= <-]. apply Hinv. exact Hr0.
        -- rewrite lookup_insert_eq. intros [= <-]. simpl.
           specialize (Hinv r0 Hr0).
           rewrite Z.geb_leb in Hc. apply Z.leb_gt in Hc. lia.
    + rewrite isRateLimited_frame by exact Hne. apply Hinv.
  - unfold cleanup. intros Hr. apply map_lookup_filter_Some in Hr as [Hr _].
    apply Hinv. exact Hr.
  - unfold clear. rewrite lookup_empty. discriminate.
Qed.

Lemma run_count_in_range L key ops : forall store,
  1 <= L -> Forall (uses_limit key L) ops ->
  count_in_range L key store -> count_in_range L key (run ops store).
Proof.
  induction ops as [| o ops IH]; intros store HL Hall Hinv; [exact Hinv |].
  apply Forall_cons in Hall as [Ho Hall]. unfold run. simpl.
  apply IH; [exact HL | exact Hall |].
  apply step_count_in_range; assumption.
Qed.

(** Under the invariant the clamp of [getRemaining] is idle: what remains of
    a live record is the limit less its count. *)
Lemma getRemaining_in_range L key store now r :
  count_in_range L key store ->
  store !! key = Some r -> ¬ now > resetTime r ->
  getRemaining now key L store = L - count r
  /\ 0 <= getRemaining now key L store < L.
Proof.
  intros Hinv Hr Hlive. unfold getRemaining.
  rewrite Hr, (expired_live _ _ Hlive). specialize (Hinv r Hr). lia.
Qed.

(** C1 (amended).  For every key, every limit [L >= 1] and every window
    [W]: when the check at [t0] finds no record or an expired one, and [L]
    further checks follow at instants not later than [t0 + W], the first
    [L] of these [L + 1] checks are admitted and the last is refused; and
    a check issued after the reset time of the stored record replaces the
    record by [{count: 1, resetTime: now + W}] and is admitted. *)
Theorem fixed_window_limit (L : nat) W key (t0 : Z) (later : list Z) store :
  (1 <= L)%nat ->
  expired t0 (store !! key) = true ->
  length later = L ->
  Forall (fun t => ¬ t > t0 + W) later ->
  admits_L_then_rejects L W key t0 later store
  /\ (forall now maxRequests store' r,
        store' !! key = Some r -> now > resetTime r ->
        isRateLimited now key maxRequests W store'
        = (false, <[key := {| count := 1; resetTime := now + W |}]> store')).
Proof.
  intros HL Hexp Hlen Hall. split.
  - unfold admits_L_then_rejects. simpl.
    rewrite (isRateLimited_opens _ _ _ _ _ Hexp).
    pose proof (checks_in_window key W later
                  (<[key := {| count := 1; resetTime := t0 + W |}]> store)
                  1 (t0 + W) (L - 1)%nat (lookup_insert_eq _ _ _) Hall) as H.
    replace (1 + Z.of_nat (L - 1)) with (Z.of_nat L) in H by lia.
    destruct (checks key (Z.of_nat L) W later _) as [answers store'].
    simpl in *. rewrite H, Hlen.
    replace (Nat.min (L - 1) L) with (L - 1)%nat by lia.
    replace (L - (L - 1))%nat with 1%nat by lia.
    destruct L as [| L]; [lia |]. simpl. rewrite Nat.sub_0_r. reflexivity.
  - intros now maxRequests store' r Hr Hpast.
    apply isRateLimited_opens, expired_true. right. exists r. split; assumption.
Qed.

Lemma fixed_window_limit_witness :
  admits_L_then_rejects 2 1000 (str "198.51.100.7") 0 [10; 1000] ∅
  /\ (forall now maxRequests (store' : gmap jsstring RateLimitRecord) r,
        store' !! str "198.51.100.7" = Some r -> now > resetTime r ->
        isRateLimited now (str "198.51.100.7") maxRequests 1000 store'
        = (false, <[str "198.51.100.7" := {| count := 1; resetTime := now + 1000 |}]> store')).
Proof.
  apply (fixed_window_limit 2 1000 (str "198.51.100.7") 0 [10; 1000] ∅).
  - lia.
  - reflexivity.
  - reflexivity.
  - repeat constructor; lia.
Defined.

(** C1, as stated, at the limit 0: the first check of a key opens a window
    and is admitted whatever the limit, so the check that the claim
    numbers [L + 1 = 1] is not refused. *)
Lemma fixed_window_limit_zero :
  expired 0 ((∅ : gmap jsstring RateLimitRecord) !! str "198.51.100.7") = true
  /\ length ([] : list Z) = 0%nat
  /\ ¬ admits_L_then_rejects 0 1000 (str "198.51.100.7") 0 [] ∅.
Proof.
  split; [reflexivity |]. split; [reflexivity |].
  unfold admits_L_then_rejects. vm_compute. discriminate.
Qed.

(** C4.  A check of a key whose record is unexpired and has
    [count >= maxRequests] returns [true] and leaves the store as it was;
    the record of the key keeps its count and its reset time. *)
Theorem rejection_keeps_the_store now key maxRequests W store r :
  store !! key = Some r ->
  ¬ now > resetTime r ->
  count r >= maxRequests ->
  isRateLimited now key maxRequests W store = (true, store)
  /\ (isRateLimited now key maxRequests W store).2 !! key = Some r.
Proof.
  intros Hr Hlive Hc.
  rewrite (isRateLimited_refuses now key maxRequests W store r Hr Hlive Hc).
  split; [reflexivity | exact Hr].
Qed.

Lemma rejection_keeps_the_store_witness :
  let store : gmap jsstring RateLimitRecord :=
    {[ str "198.51.100.7" := {| count := 5; resetTime := 900000 |} ]} in
  isRateLimited 1200 (str "198.51.100.7") 5 900000 store = (true, store)
  /\ (isRateLimited 1200 (str "198.51.100.7") 5 900000 store).2
       !! str "198.51.100.7"
     = Some {| count := 5; resetTime := 900000 |}.
Proof.
  apply (rejection_keeps_the_store 1200 (str "198.51.100.7") 5 900000
           {[ str "198.51.100.7" := {| count := 5; resetTime := 900000 |} ]}
           {| count := 5; resetTime := 900000 |}).
  - apply lookup_singleton_eq.
  - simpl. lia.
  - simpl. lia.
Defined.

(** C9.  For every key and every limit [L >= 1]: after any sequence of
    checks (of any keys, at any instants, with any windows), sweeps and
    clears on an initially empty store, in which every check of the key
    passes the limit [L], the record of the key, when present, has
    [1 <= count <= L]. *)
Theorem count_stays_in_range L key (ops : list op) r :
  1 <= L ->
  Forall (uses_limit key L) ops ->
  run ops ∅ !! key = Some r ->
  1 <= count r <= L.
Proof.
  intros HL Hall Hr.
  apply (run_count_in_range L key ops ∅ HL Hall); [| exact Hr].
  intros r0. rewrite lookup_empty. discriminate.
Qed.

Lemma count_stays_in_range_witness :
  run [Check 0 (str "198.51.100.7") 2 900000;
       Check 5 (str "203.0.113.9") 7 1000;
       Cleanup 2000;
       Check 2500 (str "198.51.100.7") 2 900000;
       Check 2600 (str "198.51.100.7") 2 900000] ∅ !! str "198.51.100.7"
  = Some {| count := 2; resetTime := 900000 |}
  /\ 1 <= count {| count := 2; resetTime := 900000 |} <= 2.
Proof.
  split; [vm_compute; reflexivity |].
  apply (count_stays_in_range 2 (str "198.51.100.7")
           [Check 0 (str "198.51.100.7") 2 900000;
            Check 5 (str "203.0.113.9") 7 1000;
            Cleanup 2000;
            Check 2500 (str "198.51.100.7") 2 900000;
            Check 2600 (str "198.51.100.7") 2 900000]
           {| count := 2; resetTime := 900000 |}).
  - lia.
  - repeat constructor; simpl; try reflexivity.
    intros H; exfalso; revert H; vm_compute; discriminate.
  - vm_compute. reflexivity.
Defined.

End RateLimitFacts.

(** ** Sanitization of strings *)

Section StringFacts.
Import Sanitization.

Implicit Types (s u b : jsstring) (p : N -> bool) (m : jsstring -> option nat).

(** *** [skip_while] and [trim] *)

Lemma skip_while_split p s :
  exists dropped, s = dropped ++ skip_while p s.
Proof.
  induction s as [| c r [d IH]]; simpl.
  - exists []. reflexivity.
  - destruct (p c).
    + exists (c :: d). simpl. f_equal. exact IH.
    + exists []. reflexivity.
Qed.

Lemma skip_while_idem p s : skip_while p (skip_while p s) = skip_while p s.
Proof.
  induction s as [| c r IH]; simpl; [reflexivity |].
  destruct (p c) eqn:Hc; [exact IH |]. simpl. rewrite Hc. reflexivity.
Qed.

Lemma skip_while_app p u b c r :
  skip_while p u = c :: r -> skip_while p (u ++ b) = c :: r ++ b.
Proof.
  induction u as [| x u IH]; simpl; [discriminate |].
  destruct (p x); [exact IH |]. intros [= -> ->]. reflexivity.
Qed.

Lemma skip_while_head p s : head_stays p (skip_while p s).
Proof.
  induction s as [| c r IH]; simpl; [exact I |].
  destruct (p c) eqn:Hc; [exact IH | exact Hc].
Qed.

Lemma skip_while_fixed p s : head_stays p s -> skip_while p s = s.
Proof. destruct s as [| c r]; simpl; [reflexivity |]. intros ->. reflexivity. Qed.

Lemma trimEnd_split s : exists dropped, s = trimEnd s ++ dropped.
Proof.
  unfold trimEnd. destruct (skip_while_split isSpace (rev s)) as [d Hd].
  exists (rev d). rewrite <- rev_app_distr, <- Hd, rev_involutive. reflexivity.
Qed.

Lemma trimEnd_idem s : trimEnd (trimEnd s) = trimEnd s.
Proof. unfold trimEnd. rewrite rev_involutive, skip_while_idem. reflexivity. Qed.

Lemma trimEnd_head s : head_stays isSpace s -> head_stays isSpace (trimEnd s).
Proof.
  intros H. destruct (trimEnd_split s) as [d Hd].
  destruct (trimEnd s) as [| c r]; [exact I |].
  rewrite Hd in H. exact H.
Qed.

Lemma trim_split s : exists before behind, s = before ++ trim s ++ behind.
Proof.
  unfold trim, trimStart.
  destruct (skip_while_split isSpace s) as [a Ha].
  destruct (trimEnd_split (skip_while isSpace s)) as [d Hd].
  exists a, d. rewrite <- Hd. exact Ha.
Qed.

Lemma trim_idem s : trim (trim s) = trim s.
Proof.
  unfold trim at 1. unfold trimStart.
  rewrite skip_while_fixed.
  - unfold trim. apply trimEnd_idem.
  - unfold trim. apply trimEnd_head, skip_while_head.
Qed.

(** *** Scanning a string in which nothing matches *)

Lemma replace_all_no_match m s : no_match m s = true -> replace_all m s = s.
Proof.
  unfold replace_all. induction s as [| c r IH]; simpl; [reflexivity |].
  intros [Hm Hr]%andb_true_iff.
  apply negb_true_iff, bool_decide_eq_false in Hm.
  destruct (m (c :: r)) as [n |].
  - exfalso. apply Hm. eexists. reflexivity.
  - rewrite (IH Hr). reflexivity.
Qed.

Lemma no_match_suffix m u s : no_match m (u ++ s) = true -> no_match m s = true.
Proof.
  induction u as [| c u IH]; simpl; [tauto |].
  intros [_ H]%andb_true_iff. exact (IH H).
Qed.

Lemma no_match_prefix m u b :
  extends m -> no_match m (u ++ b) = true -> no_match m u = true.
Proof.
  intros Hext. induction u as [| c u IH]; simpl; [reflexivity |].
  intros [Hm Hr]%andb_true_iff. apply andb_true_iff. split; [| exact (IH Hr)].
  apply negb_true_iff, bool_decide_eq_false.
  apply negb_true_iff, bool_decide_eq_false in Hm.
  intros Hu. apply Hm. exact (Hext (c :: u) b Hu).
Qed.

Lemma match_angle_extends : extends match_angle.
Proof.
  intros [| c u] b; simpl; [intros [? [=]] | tauto].
Qed.

Lemma ci_prefix_app pat u b :
  ci_prefix pat u = true -> ci_prefix pat (u ++ b) = true.
Proof.
  revert u. induction pat as [| x pat IH]; intros u; simpl; [reflexivity |].
  destruct u as [| c u]; simpl; [discriminate |].
  intros [Hc Hu]%andb_true_iff. rewrite Hc. simpl. exact (IH u Hu).
Qed.

Lemma match_javascript_extends : extends match_javascript.
Proof.
  intros u b. unfold match_javascript.
  destruct (ci_prefix (str "javascript:") u) eqn:Hu.
  - rewrite (ci_prefix_app _ u b Hu). tauto.
  - intros [? [=]].
Qed.

Lemma match_handler_extends : extends match_handler.
Proof.
  intros u b. unfold match_handler.
  destruct u as [| o [| n [| w rest]]]; try (simpl; intros [? [=]]; fail).
  change ((o :: n :: w :: rest) ++ b) with (o :: n :: w :: (rest ++ b)).
  cbv beta iota.
  destruct (ci_eq 111 o && ci_eq 110 n && isWord w); [| intros [? [=]]].
  destruct (skip_while isWord rest) as [| x1 r1] eqn:H1; [intros [? [=]] |].
  rewrite (skip_while_app _ rest b _ _ H1).
  destruct (skip_while isSpace (x1 :: r1)) as [| e behind] eqn:H2;
    [intros [? [=]] |].
  change (x1 :: r1 ++ b) with ((x1 :: r1) ++ b).
  rewrite (skip_while_app _ (x1 :: r1) b _ _ H2).
  destruct (e =? 61)%N; [| intros [? [=]]].
  intros _. eexists. reflexivity.
Qed.

Lemma inert_inside u s b : inert (u ++ s ++ b) = true -> inert s = true.
Proof.
  unfold inert. intros [[H1 H2]%andb_true_iff H3]%andb_true_iff.
  rewrite (no_match_prefix _ s b match_angle_extends (no_match_suffix _ u _ H1)).
  rewrite (no_match_prefix _ s b match_javascript_extends (no_match_suffix _ u _ H2)).
  rewrite (no_match_prefix _ s b match_handler_extends (no_match_suffix _ u _ H3)).
  reflexivity.
Qed.

Lemma inert_trim s : inert s = true -> inert (trim s) = true.
Proof.
  intros H. destruct (trim_split s) as (a & d & Hs).
  rewrite Hs in H. exact (inert_inside a (trim s) d H).
Qed.

(** On an inert string the sanitizer only trims. *)
Lemma sanitizeString_inert s :
  inert s = true -> sanitizeString (VStr s) = trim s.
Proof.
  intros H. apply inert_trim in H. unfold inert in H.
  apply andb_true_iff in H as [[H1 H2]%andb_true_iff H3].
  unfold sanitizeString.
  rewrite (replace_all_no_match _ _ H1), (replace_all_no_match _ _ H2).
  exact (replace_all_no_match _ _ H3).
Qed.

(** *** Strings that the sanitizer returns as they are *)

Lemma skip_while_length p s : (length (skip_while p s) <= length s)%nat.
Proof.
  induction s as [| c r IH]; simpl; [lia |]. destruct (p c); simpl; lia.
Qed.

Lemma trim_length s : (length (trim s) <= length s)%nat.
Proof.
  destruct (trim_split s) as (a & d & Hs).
  apply (f_equal (@length N)) in Hs. rewrite !length_app in Hs. lia.
Qed.

Lemma trim_same_length s : length (trim s) = length s -> trim s = s.
Proof.
  intros H. destruct (trim_split s) as (a & d & Hs).
  pose proof (f_equal (@length N) Hs) as Hlen. rewrite !length_app in Hlen.
  destruct a as [| x a]; [| simpl in Hlen; lia].
  destruct d as [| y d]; [| simpl in Hlen; lia].
  simpl in Hs. rewrite app_nil_r in Hs. symmetry. exact Hs.
Qed.

Lemma replace_from_length m s : forall k,
  (length (replace_from m k s) <= length s)%nat.
Proof.
  induction s as [| c r IH]; intros k; simpl; [lia |].
  destruct k as [| k]; [| specialize (IH k); lia].
  destruct (m (c :: r)) as [[| n] |]; simpl.
  - specialize (IH 0%nat). lia.
  - specialize (IH n). lia.
  - specialize (IH 0%nat). lia.
Qed.

Lemma replace_all_length m s : (length (replace_all m s) <= length s)%nat.
Proof. apply replace_from_length. Qed.

(** A scan that drops nothing found nothing. *)
Lemma replace_all_same_length m s :
  nonempty_matches m -> length (replace_all m s) = length s -> no_match m s = true.
Proof.
  intros Hm. unfold replace_all. induction s as [| c r IH]; [reflexivity |].
  cbn [replace_from no_match].
  destruct (m (c :: r)) as [[| n] |] eqn:Hc.
  - apply Hm in Hc. lia.
  - pose proof (replace_from_length m r n). simpl. lia.
  - simpl. intros [= H]. rewrite (IH H). reflexivity.
Qed.

Lemma match_angle_nonempty : nonempty_matches match_angle.
Proof.
  intros [| c r] n; simpl; [discriminate |].
  destruct ((c =? 60) || (c =? 62))%N; intros [= <-]; lia.
Qed.

Lemma match_javascript_nonempty : nonempty_matches match_javascript.
Proof.
  intros s n. unfold match_javascript.
  destruct (ci_prefix (str "javascript:") s); intros [= <-]; lia.
Qed.

Lemma match_handler_nonempty : nonempty_matches match_handler.
Proof.
  intros s n. unfold match_handler.
  destruct s as [| o [| n0 [| w rest]]]; try discriminate.
  destruct (ci_eq 111 o && ci_eq 110 n0 && isWord w); [| discriminate].
  destruct (skip_while isSpace (skip_while isWord rest)) as [| e behind] eqn:H;
    [discriminate |].
  destruct (e =? 61)%N; [| discriminate].
  intros [= <-].
  pose proof (skip_while_length isSpace (skip_while isWord rest)) as H1.
  pose proof (skip_while_length isWord rest) as H2.
  rewrite H in H1. simpl in *. lia.
Qed.

(** The sanitizer returns a string as it is exactly when the string is
    settled: every step only deletes, so a step that changes the string
    makes it shorter for good. *)
Lemma sanitizeString_fixed t : sanitizeString (VStr t) = t <-> settled t = true.
Proof.
  unfold settled, jsstring_eqb. rewrite andb_true_iff, bool_decide_eq_true. split.
  - intros Ht. unfold sanitizeString in Ht.
    pose proof (trim_length t) as L0.
    pose proof (replace_all_length match_angle (trim t)) as L1.
    pose proof (replace_all_length match_javascript
                  (replace_all match_angle (trim t))) as L2.
    pose proof (replace_all_length match_handler
                  (replace_all match_javascript
                     (replace_all match_angle (trim t)))) as L3.
    rewrite Ht in L3.
    assert (E0 : trim t = t) by (apply trim_same_length; lia).
    rewrite E0 in *.
    assert (N1 : no_match match_angle t = true)
      by (apply replace_all_same_length; [apply match_angle_nonempty | lia]).
    rewrite (replace_all_no_match _ _ N1) in *.
    assert (N2 : no_match match_javascript t = true)
      by (apply replace_all_same_length; [apply match_javascript_nonempty | lia]).
    rewrite (replace_all_no_match _ _ N2) in *.
    assert (N3 : no_match match_handler t = true)
      by (apply replace_all_same_length;
          [apply match_handler_nonempty | rewrite Ht; reflexivity]).
    split; [reflexivity |]. unfold inert. rewrite N1, N2, N3. reflexivity.
  - intros [Htrim Hinert]. rewrite (sanitizeString_inert t Hinert). exact Htrim.
Qed.

End StringFacts.

(** ** Sanitization of objects *)

Section ObjectFacts.
Import Sanitization.

Implicit Types (o es acc : list (jsstring * value)) (k : jsstring) (v : value).
Implicit Types (f : value -> value).

(** *** Assignment commutes with a change of the values *)

Lemma assign_map_values f k v o :
  assign k (f v) (map_values f o) = map_values f (assign k v o).
Proof.
  induction o as [| [k' v'] o IH]; simpl; [reflexivity |].
  destruct (jsstring_eqb k k'); simpl; [reflexivity |]. rewrite IH. reflexivity.
Qed.

Lemma set_prop_map_values f o (kv : jsstring * value) :
  set_prop (map_values f o) (kv.1, f kv.2) = map_values f (set_prop o kv).
Proof.
  unfold set_prop. simpl. destruct (jsstring_eqb kv.1 (str "__proto__")).
  - reflexivity.
  - apply assign_map_values.
Qed.

Lemma fold_set_prop_map_values f es : forall acc,
  fold_left set_prop (map_values f es) (map_values f acc)
  = map_values f (fold_left set_prop es acc).
Proof.
  induction es as [| kv es IH]; intros acc; simpl; [reflexivity |].
  rewrite set_prop_map_values. apply IH.
Qed.

Lemma assign_all_map_values f es :
  assign_all (map_values f es) = map_values f (assign_all es).
Proof. exact (fold_set_prop_map_values f es []). Qed.

Lemma indexed_map f (items : list value) : forall i,
  indexed i (List.map f items) = map_values f (indexed i items).
Proof.
  induction items as [| x items IH]; intros i; simpl; [reflexivity |].
  rewrite IH. reflexivity.
Qed.

Lemma map_values_compose f g es :
  map_values f (map_values g es) = map_values (fun v => f (g v)) es.
Proof. unfold map_values. rewrite List.map_map. reflexivity. Qed.

Lemma map_values_ext f g es :
  Forall (fun kv => f kv.2 = g kv.2) es -> map_values f es = map_values g es.
Proof.
  induction 1 as [| kv es H _ IH]; simpl; [reflexivity |].
  rewrite H, IH. reflexivity.
Qed.

Lemma Forall_indexed (P : value -> Prop) (items : list value) : forall i,
  Forall P items -> Forall (fun kv => P kv.2) (indexed i items).
Proof.
  induction items as [| x items IH]; intros i H; simpl; [constructor |].
  apply Forall_cons in H as [Hx H]. constructor; [exact Hx | exact (IH _ H)].
Qed.

(** *** The built object has each key once, and never [__proto__] *)

Lemma keys_assign k v o :
  keys (assign k v o) = if bool_decide (k ∈ keys o) then keys o else keys o ++ [k].
Proof.
  induction o as [| [k' v'] o IH]; simpl; [reflexivity |].
  unfold jsstring_eqb. destruct (decide (k = k')) as [<- | Hk].
  - rewrite !bool_decide_eq_true_2; [reflexivity | apply list_elem_of_here | reflexivity].
  - rewrite (bool_decide_eq_false_2 (k = k')) by exact Hk.
    simpl. fold (keys (assign k v o)). rewrite IH. fold (keys o).
    destruct (decide (k ∈ keys o)) as [Hin | Hout].
    + rewrite !bool_decide_eq_true_2; [reflexivity | | exact Hin].
      apply list_elem_of_further. exact Hin.
    + rewrite !bool_decide_eq_false_2; [reflexivity | | exact Hout].
      intros [-> | H]%elem_of_cons; [apply Hk; reflexivity | exact (Hout H)].
Qed.

Lemma assign_fresh k v o : k ∉ keys o -> assign k v o = o ++ [(k, v)].
Proof.
  induction o as [| [k' v'] o IH]; simpl; [reflexivity |].
  intros Hout. unfold jsstring_eqb. case_bool_decide as Hk.
  - exfalso. apply Hout. subst k'. apply list_elem_of_here.
  - rewrite IH; [reflexivity |]. intros H. apply Hout, list_elem_of_further, H.
Qed.

(** An object as [Object.entries] lists one: no key twice, no own
    [__proto__]. *)
Lemma set_prop_plain o (kv : jsstring * value) :
  NoDup (keys o) /\ str "__proto__" ∉ keys o ->
  NoDup (keys (set_prop o kv)) /\ str "__proto__" ∉ keys (set_prop o kv).
Proof.
  intros [Hnd Hproto]. unfold set_prop, jsstring_eqb.
  case_bool_decide as Hk; [split; assumption |].
  rewrite keys_assign. case_bool_decide as Hin; [split; assumption |].
  split.
  - apply NoDup_app. split; [exact Hnd |]. split; [| apply NoDup_singleton].
    intros x Hx ->%list_elem_of_singleton. exact (Hin Hx).
  - intros [H | Heq%list_elem_of_singleton]%elem_of_app; [exact (Hproto H) |].
    apply Hk. symmetry. exact Heq.
Qed.

Lemma fold_set_prop_plain es : forall acc,
  NoDup (keys acc) /\ str "__proto__" ∉ keys acc ->
  NoDup (keys (fold_left set_prop es acc))
  /\ str "__proto__" ∉ keys (fold_left set_prop es acc).
Proof.
  induction es as [| kv es IH]; intros acc H; simpl; [exact H |].
  apply IH, set_prop_plain, H.
Qed.

Lemma assign_all_plain es :
  NoDup (keys (assign_all es)) /\ str "__proto__" ∉ keys (assign_all es).
Proof.
  apply fold_set_prop_plain. split; [apply NoDup_nil_2 | apply not_elem_of_nil].
Qed.

(** Assigning the entries of such an object rebuilds it. *)
Lemma fold_set_prop_fresh es : forall acc,
  NoDup (keys acc ++ keys es) -> str "__proto__" ∉ keys es ->
  fold_left set_prop es acc = acc ++ es.
Proof.
  induction es as [| [k v] es IH]; intros acc Hnd Hproto; simpl.
  - rewrite app_nil_r. reflexivity.
  - simpl in Hnd, Hproto.
    assert (Hk : k ≠ str "__proto__").
    { intros ->. apply Hproto, list_elem_of_here. }
    assert (Hout : k ∉ keys acc).
    { apply NoDup_app in Hnd as (_ & Hdis & _). intros Hin.
      exact (Hdis k Hin (list_elem_of_here _ _)). }
    unfold set_prop at 2. simpl. unfold jsstring_eqb.
    rewrite bool_decide_eq_false_2 by exact Hk.
    rewrite (assign_fresh k v acc Hout).
    rewrite IH.
    + rewrite <- app_assoc. reflexivity.
    + unfold keys in *. rewrite List.map_app. simpl.
      rewrite <- app_assoc. exact Hnd.
    + intros H. apply Hproto, list_elem_of_further, H.
Qed.

Lemma assign_all_idem es : assign_all (assign_all es) = assign_all es.
Proof.
  destruct (assign_all_plain es) as [Hnd Hproto].
  unfold assign_all at 1. rewrite fold_set_prop_fresh; [reflexivity | | exact Hproto].
  exact Hnd.
Qed.

(** *** Values stored by assignments *)

Lemma assign_Forall (Q : value -> Prop) k v (o : list (jsstring * value)) :
  Q v -> Forall (fun kv => Q kv.2) o -> Forall (fun kv => Q kv.2) (assign k v o).
Proof.
  intros Hv. induction 1 as [| [k' v'] o Hx Ho IH]; simpl.
  - repeat constructor. exact Hv.
  - destruct (jsstring_eqb k k'); constructor; assumption.
Qed.

Lemma fold_set_prop_Forall (Q : value -> Prop) (es : list (jsstring * value)) :
  forall acc,
  Forall (fun kv => Q kv.2) es -> Forall (fun kv => Q kv.2) acc ->
  Forall (fun kv => Q kv.2) (fold_left set_prop es acc).
Proof.
  induction es as [| kv es IH]; intros acc Hes Hacc; simpl; [exact Hacc |].
  apply Forall_cons in Hes as [Hkv Hes]. apply IH; [exact Hes |].
  unfold set_prop. destruct (jsstring_eqb kv.1 (str "__proto__")); [exact Hacc |].
  apply assign_Forall; assumption.
Qed.

Lemma assign_all_Forall (Q : value -> Prop) (es : list (jsstring * value)) :
  Forall (fun kv => Q kv.2) es -> Forall (fun kv => Q kv.2) (assign_all es).
Proof. intros H. apply fold_set_prop_Forall; [exact H | constructor]. Qed.

Lemma forallb_Forall_true {A} (p : A -> bool) (l : list A) :
  forallb p l = true <-> Forall (fun x => p x = true) l.
Proof.
  induction l as [| x l IH]; simpl; [split; [constructor | reflexivity] |].
  rewrite andb_true_iff, IH. split.
  - intros [Hx Hl]. constructor; assumption.
  - intros [Hx Hl]%Forall_cons. split; assumption.
Qed.

Lemma Forall_map_values (Q : value -> Prop) f (es : list (jsstring * value)) :
  Forall (fun kv => Q (f kv.2)) es -> Forall (fun kv => Q kv.2) (map_values f es).
Proof. induction 1; simpl; constructor; assumption. Qed.

End ObjectFacts.

(** ** Two passes of the sanitizer *)

Section IdempotenceFacts.
Import Sanitization.

Lemma sanitizeProperty_obj props :
  sanitizeProperty (VObj props)
  = VObj (assign_all (map_values sanitizeProperty props)).
Proof. reflexivity. Qed.

Lemma sanitizeProperty_arr items :
  sanitizeProperty (VArr items) = VArr (List.map sanitizeItem items).
Proof. reflexivity. Qed.

Lemma sanitizeItem_arr items :
  sanitizeItem (VArr items)
  = VObj (assign_all (map_values sanitizeProperty (indexed 0 items))).
Proof. unfold sanitizeItem. rewrite indexed_map. reflexivity. Qed.

Lemma sanitizeProperty_str s :
  sanitizeProperty (VStr s) = VStr (sanitizeString (VStr s)).
Proof. reflexivity. Qed.

Lemma sanitizeItem_str s : sanitizeItem (VStr s) = VStr (sanitizeString (VStr s)).
Proof. reflexivity. Qed.

Lemma sanitizeItem_obj props :
  sanitizeItem (VObj props) = VObj (assign_all (map_values sanitizeProperty props)).
Proof. reflexivity. Qed.

Lemma sanitizeObject_obj props :
  sanitizeObject (VObj props) = Some (sanitizeProperty (VObj props)).
Proof. reflexivity. Qed.

Lemma sanitizeObject_arr items :
  sanitizeObject (VArr items) = Some (sanitizeItem (VArr items)).
Proof. reflexivity. Qed.

Lemma leaves_settled_arr items :
  leaves_settled (VArr items) = true
  <-> Forall (fun x => leaves_settled x = true) items.
Proof. apply forallb_Forall_true. Qed.

Lemma leaves_settled_obj props :
  leaves_settled (VObj props) = true
  <-> Forall (fun kv => leaves_settled kv.2 = true) props.
Proof. apply (forallb_Forall_true (fun kv => leaves_settled kv.2)). Qed.

Lemma Forall_pointwise_iff {A} (P Q : A -> Prop) (l : list A) :
  Forall (fun x => P x <-> Q x) l -> Forall P l <-> Forall Q l.
Proof.
  induction 1 as [| x l Hx _ IH]; [split; constructor |].
  rewrite !Forall_cons, Hx, IH. reflexivity.
Qed.

Lemma map_eq_Forall {A B} (f g : A -> B) (l : list A) :
  List.map f l = List.map g l <-> Forall (fun x => f x = g x) l.
Proof.
  induction l as [| x l IH]; simpl; [split; [constructor | reflexivity] |].
  rewrite Forall_cons, <- IH. split.
  - intros [= Hx Hl]. split; assumption.
  - intros [-> ->]. reflexivity.
Qed.

Lemma map_values_eq f g (es : list (jsstring * value)) :
  map_values f es = map_values g es <-> Forall (fun kv => f kv.2 = g kv.2) es.
Proof.
  split; [| apply map_values_ext].
  induction es as [| kv es IH]; simpl; [constructor |].
  intros [= Hkv Hes]. constructor; [exact Hkv | exact (IH Hes)].
Qed.

(** Two passes over the entries of an object give what one pass gives
    exactly when the values that the one pass stores are settled. *)
Lemma entries_twice (es : list (jsstring * value)) :
  Forall (fun kv => sanitizeProperty (sanitizeProperty kv.2) = sanitizeProperty kv.2
                    <-> leaves_settled (sanitizeProperty kv.2) = true) es ->
  assign_all (map_values sanitizeProperty
                (assign_all (map_values sanitizeProperty es)))
  = assign_all (map_values sanitizeProperty es)
  <-> Forall (fun kv => leaves_settled kv.2 = true)
        (assign_all (map_values sanitizeProperty es)).
Proof.
  intros IH.
  rewrite (assign_all_map_values sanitizeProperty
             (assign_all (map_values sanitizeProperty es))).
  rewrite assign_all_idem, !assign_all_map_values, map_values_compose, map_values_eq.
  unfold map_values at 1. rewrite List.Forall_map.
  apply (Forall_pointwise_iff
           (fun kv => sanitizeProperty (sanitizeProperty kv.2) = sanitizeProperty kv.2)
           (fun kv => leaves_settled (sanitizeProperty kv.2) = true)).
  apply (assign_all_Forall
           (fun v => sanitizeProperty (sanitizeProperty v) = sanitizeProperty v
                     <-> leaves_settled (sanitizeProperty v) = true)).
  exact IH.
Qed.

(** For both branches of the loop: a second pass changes nothing exactly
    when the string leaves of the first result are settled. *)
Lemma sanitize_twice v :
  (sanitizeProperty (sanitizeProperty v) = sanitizeProperty v
   <-> leaves_settled (sanitizeProperty v) = true)
  /\ (sanitizeItem (sanitizeItem v) = sanitizeItem v
      <-> leaves_settled (sanitizeItem v) = true).
Proof.
  induction v as [| | b | n | s | items IH | props IH] using value_nested_ind;
    try (split; split; reflexivity).
  - pose proof (sanitizeString_fixed (sanitizeString (VStr s))) as Hs.
    rewrite sanitizeProperty_str, sanitizeItem_str.
    rewrite sanitizeProperty_str, sanitizeItem_str.
    change (leaves_settled (VStr (sanitizeString (VStr s))))
      with (settled (sanitizeString (VStr s))).
    rewrite <- Hs.
    split; (split; [intros [= H]; exact H | intros H; f_equal; exact H]).
  - split.
    + rewrite !sanitizeProperty_arr, List.map_map, leaves_settled_arr, List.Forall_map.
      rewrite <- (Forall_pointwise_iff _ _ items
                    (Forall_impl _ _ _ IH (fun x Hx => proj2 Hx))).
      rewrite <- map_eq_Forall. split; [intros [= H]; exact H | intros ->; reflexivity].
    + rewrite sanitizeItem_arr, sanitizeItem_obj, leaves_settled_obj.
      rewrite <- (entries_twice (indexed 0 items)).
      * split; [intros [= H]; exact H | intros H; f_equal; exact H].
      * apply (Forall_indexed
                 (fun x => sanitizeProperty (sanitizeProperty x) = sanitizeProperty x
                           <-> leaves_settled (sanitizeProperty x) = true)).
        eapply Forall_impl; [exact IH |]. intros x [Hx _]. exact Hx.
  - assert (H : sanitizeProperty (sanitizeProperty (VObj props))
                = sanitizeProperty (VObj props)
                <-> leaves_settled (sanitizeProperty (VObj props)) = true).
    { rewrite !sanitizeProperty_obj, leaves_settled_obj.
      rewrite <- (entries_twice props).
      - split; [intros [= H]; exact H | intros H; f_equal; exact H].
      - eapply Forall_impl; [exact IH |]. intros kv [Hx _]. exact Hx. }
    split; [exact H | exact H].
Qed.

Lemma sanitizeObject_twice x :
  object_idempotent x
  <-> forall y, sanitizeObject x = Some y -> leaves_settled y = true.
Proof.
  unfold object_idempotent.
  destruct x as [| | b | n | s | items | props];
    try (split; [intros _ y [=] | reflexivity]).
  - destruct (sanitize_twice (VArr items)) as [_ H].
    assert (E : sanitizeObject (sanitizeItem (VArr items))
                = Some (sanitizeItem (sanitizeItem (VArr items)))) by reflexivity.
    rewrite sanitizeObject_arr.
    change (Some (sanitizeItem (VArr items)) ≫= sanitizeObject)
      with (sanitizeObject (sanitizeItem (VArr items))).
    rewrite E. clear E.
    set (once := sanitizeItem (VArr items)) in *.
    set (twice := sanitizeItem once) in *. clearbody twice. clearbody once.
    split.
    + intros [= Hy] y [= <-]. apply H. exact Hy.
    + intros Hy. f_equal. apply H, Hy. reflexivity.
  - destruct (sanitize_twice (VObj props)) as [H _].
    assert (E : sanitizeObject (sanitizeProperty (VObj props))
                = Some (sanitizeProperty (sanitizeProperty (VObj props))))
      by reflexivity.
    rewrite sanitizeObject_obj.
    change (Some (sanitizeProperty (VObj props)) ≫= sanitizeObject)
      with (sanitizeObject (sanitizeProperty (VObj props))).
    rewrite E. clear E.
    set (once := sanitizeProperty (VObj props)) in *.
    set (twice := sanitizeProperty once) in *. clearbody twice. clearbody once.
    split.
    + intros [= Hy] y [= <-]. apply H. exact Hy.
    + intros Hy. f_equal. apply H, Hy. reflexivity.
Qed.

(** What one pass and two passes give for a string that begins with an
    angle bracket and a space. *)
Example sanitizeString_once :
  sanitizeString (VStr (str "< a")) = str " a".
Proof. reflexivity. Qed.

Example sanitizeString_again :
  sanitizeString (VStr (sanitizeString (VStr (str "< a")))) = str "a".
Proof. reflexivity. Qed.

(** C3 (amended).  A second pass of the sanitizer changes nothing exactly
    when the result of the first pass is settled.  For every string [s],
    [sanitizeString(sanitizeString(s)) = sanitizeString(s)] if and only if
    [sanitizeString(s)] has no white space at either end and contains no
    angle bracket, no [javascript:] in any letter case and no [on<word>=]
    pattern.  For every object or array in which no object has an own
    property named [__proto__], sanitizing the sanitized object gives the
    sanitized object again if and only if every string leaf of the
    sanitized object is such a string. *)
Theorem sanitize_idempotent_iff_settled :
  (forall s, string_idempotent s <-> settled (sanitizeString (VStr s)) = true)
  /\ (forall x, proto_free x = true ->
        (object_idempotent x
         <-> forall y, sanitizeObject x = Some y -> leaves_settled y = true)).
Proof.
  split.
  - intros s. unfold string_idempotent. apply sanitizeString_fixed.
  - intros x _. apply sanitizeObject_twice.
Qed.

Lemma sanitize_idempotent_iff_settled_witness :
  string_idempotent (str " <b>bold</b> ")
  /\ object_idempotent
       (VObj [(str "name", VStr (str " <i>Asha</i> "));
              (str "tags", VArr [VStr (str "a b"); VArr [VStr (str " c ")]; VNum 3]);
              (str "address", VObj [(str "city", VStr (str "Pune "))])]).
Proof.
  destruct sanitize_idempotent_iff_settled as [Hs Hx]. split.
  - apply Hs. vm_compute. reflexivity.
  - apply Hx; [vm_compute; reflexivity |].
    intros y [= <-]. vm_compute. reflexivity.
Defined.

(** C3, as stated, fails: a second pass trims the space that the first pass
    uncovered by removing [<]; it removes the [javascript:] that the first
    pass put together; and an object with such a leaf changes too. *)
Lemma sanitize_not_idempotent :
  ¬ string_idempotent (str "< a")
  /\ ¬ string_idempotent (str "javajavascript:script:")
  /\ ¬ object_idempotent (VObj [(str "name", VStr (str "< a"))]).
Proof.
  unfold string_idempotent, object_idempotent.
  repeat split; vm_compute; discriminate.
Qed.

End IdempotenceFacts.

(** ** Phone numbers *)

Section PhoneFacts.
Import Sanitization.

Lemma forallb_filter_same {A} (p : A -> bool) (l : list A) :
  forallb p (List.filter p l) = true.
Proof.
  induction l as [| x l IH]; simpl; [reflexivity |].
  destruct (p x) eqn:Hx; simpl; [rewrite Hx |]; exact IH.
Qed.

Lemma forallb_skipn {A} (p : A -> bool) (n : nat) : forall l : list A,
  forallb p l = true -> forallb p (skipn n l) = true.
Proof.
  induction n as [| n IH]; intros [| x l]; simpl; try tauto.
  intros [_ H]%andb_true_iff. exact (IH l H).
Qed.

Lemma startsWith_split pre : forall s,
  startsWith pre s = true -> s = pre ++ skipn (length pre) s.
Proof.
  induction pre as [| p pre IH]; intros s; simpl; [reflexivity |].
  destruct s as [| c s]; [discriminate |].
  intros [Hc Hs]%andb_true_iff. apply N.eqb_eq in Hc. subst c.
  f_equal. exact (IH s Hs).
Qed.

(** The three outcomes of [sanitizePhoneNumber]. *)
Lemma sanitizePhoneNumber_cases phone :
  sanitizePhoneNumber phone
  = if (length (List.filter isDigit phone) =? 12)%nat
       && startsWith (str "91") (List.filter isDigit phone)
    then skipn 2 (List.filter isDigit phone)
    else List.filter isDigit phone.
Proof.
  unfold sanitizePhoneNumber, substring.
  destruct (length (List.filter isDigit phone) =? 10)%nat eqn:H10; [| reflexivity].
  apply Nat.eqb_eq in H10. rewrite H10. reflexivity.
Qed.

Lemma eleven_digits_unchanged phone :
  length (List.filter isDigit phone) = 11%nat ->
  sanitizePhoneNumber phone = List.filter isDigit phone.
Proof. intros H. rewrite sanitizePhoneNumber_cases, H. reflexivity. Qed.

(** C5.  [sanitizePhoneNumber] maps ["+91 98765 43210"] to ["9876543210"],
    returns ["9876543210"] unchanged, and, for every input whose digit
    characters number 11 and do not begin with the country code 91, returns
    those 11 digits. *)
Theorem phone_normalization :
  sanitizePhoneNumber (str "+91 98765 43210") = str "9876543210"
  /\ sanitizePhoneNumber (str "9876543210") = str "9876543210"
  /\ (forall phone,
        length (List.filter isDigit phone) = 11%nat ->
        startsWith (str "91") (List.filter isDigit phone) = false ->
        sanitizePhoneNumber phone = List.filter isDigit phone
        /\ length (sanitizePhoneNumber phone) = 11%nat).
Proof.
  split; [reflexivity |]. split; [reflexivity |].
  intros phone Hlen _. rewrite (eleven_digits_unchanged phone Hlen).
  split; [reflexivity | exact Hlen].
Qed.

Lemma phone_normalization_witness :
  sanitizePhoneNumber (str "0 98765-43210") = List.filter isDigit (str "0 98765-43210")
  /\ length (sanitizePhoneNumber (str "0 98765-43210")) = 11%nat.
Proof.
  destruct phone_normalization as (_ & _ & H).
  apply (H (str "0 98765-43210")); reflexivity.
Defined.

(** C10.  For every input, the result of [sanitizePhoneNumber] consists of
    digits only; when the digits of the input number 12 and begin with 91,
    the result is those digits without the leading 91; in every other case
    it is the digits of the input. *)
Theorem phone_output_is_digits phone :
  forallb isDigit (sanitizePhoneNumber phone) = true
  /\ (length (List.filter isDigit phone) = 12%nat
      /\ startsWith (str "91") (List.filter isDigit phone) = true ->
      List.filter isDigit phone = str "91" ++ sanitizePhoneNumber phone)
  /\ (¬ (length (List.filter isDigit phone) = 12%nat
         /\ startsWith (str "91") (List.filter isDigit phone) = true) ->
      sanitizePhoneNumber phone = List.filter isDigit phone).
Proof.
  rewrite sanitizePhoneNumber_cases.
  destruct (length (List.filter isDigit phone) =? 12)%nat eqn:H12;
    destruct (startsWith (str "91") (List.filter isDigit phone)) eqn:H91; simpl.
  - apply Nat.eqb_eq in H12. split; [| split].
    + apply forallb_skipn, forallb_filter_same.
    + intros _. exact (startsWith_split (str "91") _ H91).
    + intros H. exfalso. apply H. split; [exact H12 | reflexivity].
  - split; [apply forallb_filter_same |]. split; [intros [_ [=]] | reflexivity].
  - apply Nat.eqb_neq in H12.
    split; [apply forallb_filter_same |]. split; [intros [H _]; lia | reflexivity].
  - split; [apply forallb_filter_same |]. split; [intros [_ [=]] | reflexivity].
Qed.

Lemma phone_output_is_digits_witness :
  forallb isDigit (sanitizePhoneNumber (str "+91 98765 43210")) = true
  /\ List.filter isDigit (str "+91 98765 43210")
     = str "91" ++ sanitizePhoneNumber (str "+91 98765 43210")
  /\ sanitizePhoneNumber (str "(020) 2567-1234") = List.filter isDigit (str "(020) 2567-1234").
Proof.
  destruct (phone_output_is_digits (str "+91 98765 43210")) as (H1 & H2 & _).
  destruct (phone_output_is_digits (str "(020) 2567-1234")) as (_ & _ & H3).
  split; [exact H1 |]. split.
  - apply H2. split; reflexivity.
  - apply H3. vm_compute. intros [[=] _].
Defined.

End PhoneFacts.

(** ** Error classes and the error translator *)

Section ErrorFacts.

Lemma jsstring_eqb_true (a b : jsstring) : jsstring_eqb a b = true <-> a = b.
Proof. unfold jsstring_eqb. apply bool_decide_eq_true. Qed.

Lemma jsstring_eqb_false (a b : jsstring) : jsstring_eqb a b = false <-> a ≠ b.
Proof. unfold jsstring_eqb. apply bool_decide_eq_false. Qed.

(** An [AppError] reaches [errorResponse] as it is. *)
Lemma errorHandler_app env ts (e : AppError) rid :
  errorHandler env ts (FApp e) rid = errorResponse ts (FApp e) rid.
Proof. reflexivity. Qed.

Lemma errorHandler_unrecognized env ts err rid :
  recognized err = false -> errorHandler env ts err rid = generic_response ts rid.
Proof.
  destruct err as [issues | e | e]; simpl; try discriminate.
  intros [[H1 H2]%orb_false_iff H3]%orb_false_iff.
  rewrite H1, H2, H3. destruct env; reflexivity.
Qed.

(** C6 (amended).  Each error class fixes the status with the code: a
    [ValidationError] carries 400, a [RateLimitError] 429, an
    [AuthorizationError] (permission denial and deactivated account alike)
    403, a [NotFoundError] 404, a [ConflictError] 409, a [DatabaseError]
    500, and an [AppError] built with the default status and code 500; the
    error translator sends the status and the code of an [AppError]
    unchanged.  The base constructor itself takes status and code as two
    independent arguments. *)
Theorem class_fixes_status :
  (forall msg d, statusCode (ValidationError msg d) = 400
                 /\ code (ValidationError msg d) = VALIDATION_ERROR)
  /\ (forall msg, statusCode (RateLimitError msg) = 429
                  /\ code (RateLimitError msg) = RATE_LIMIT_EXCEEDED)
  /\ (forall msg, statusCode (AuthorizationError msg) = 403
                  /\ code (AuthorizationError msg) = AUTH_FORBIDDEN)
  /\ (forall msg, statusCode (NotFoundError msg) = 404
                  /\ code (NotFoundError msg) = RESOURCE_NOT_FOUND)
  /\ (forall msg, statusCode (ConflictError msg) = 409
                  /\ code (ConflictError msg) = RESOURCE_ALREADY_EXISTS)
  /\ (forall msg d, statusCode (DatabaseError msg d) = 500
                    /\ code (DatabaseError msg d) = DATABASE_ERROR)
  /\ (forall msg d, statusCode (new_AppError msg None None None d) = 500
                    /\ code (new_AppError msg None None None d) = INTERNAL_ERROR)
  /\ (forall msg d, status_fixed_by_kind (ValidationError msg d)
                    /\ status_fixed_by_kind (DatabaseError msg d))
  /\ (forall msg d, status_fixed_by_kind (new_AppError msg None None None d))
  /\ (forall msg, status_fixed_by_kind (RateLimitError msg)
                  /\ status_fixed_by_kind (AuthorizationError msg)
                  /\ status_fixed_by_kind (NotFoundError msg)
                  /\ status_fixed_by_kind (ConflictError msg))
  /\ (forall msg st c op d,
        statusCode (new_AppError msg (Some st) (Some c) op d) = st
        /\ code (new_AppError msg (Some st) (Some c) op d) = c)
  /\ (forall env ts e rid,
        status (errorHandler env ts (FApp e) rid) = statusCode e
        /\ error_code (errorHandler env ts (FApp e) rid) = code e).
Proof.
  assert (Hfix : forall e st, spec_status_of_kind (code e) = Some st ->
                              statusCode e = st -> status_fixed_by_kind e).
  { intros e st Hk Hs st' Hk'. congruence. }
  repeat match goal with
         | |- _ /\ _ => split
         | |- forall _, _ => intro
         end;
    try reflexivity;
    eapply Hfix; reflexivity.
Qed.

(** C6, as stated, fails: the error that [notFoundHandler] builds has the
    kind of an unknown error, for which the table says 500, and the
    status 404. *)
Lemma not_found_route_is_internal_404 :
  code (notFoundHandler (str "GET") (str "/missing")) = INTERNAL_ERROR
  /\ statusCode (notFoundHandler (str "GET") (str "/missing")) = 404
  /\ ¬ status_fixed_by_kind (notFoundHandler (str "GET") (str "/missing")).
Proof.
  split; [reflexivity |]. split; [reflexivity |].
  intros H. specialize (H 500 eq_refl). discriminate H.
Qed.

(** C8 (amended).  The translator answers every failure.  An [AppError]
    passes through with its own status, code and message, and with its
    details when they are an object or an array; details of any other shape
    are left out of the body.  A failure that the handler does not
    recognize gets, in production as in every other mode, the response
    with status 500, code [INTERNAL_ERROR], the generic message and no
    details, whatever its name, message, stack and code are. *)
Theorem translator_contract env ts rid :
  (forall err, exists r, errorHandler env ts err rid = r
                         /\ success r = false /\ meta_timestamp r = ts)
  /\ (forall e,
        status (errorHandler env ts (FApp e) rid) = statusCode e
        /\ error_code (errorHandler env ts (FApp e) rid) = code e
        /\ body_message (errorHandler env ts (FApp e) rid) = message e
        /\ error_details (errorHandler env ts (FApp e) rid)
           = (if is_object (details e) then Some (details e) else None))
  /\ (forall err,
        recognized err = false ->
        errorHandler env ts err rid = generic_response ts rid).
Proof.
  split; [| split].
  - intros err. eexists. split; [reflexivity |].
    destruct err as [issues | e | e]; simpl.
    + split; reflexivity.
    + split; reflexivity.
    + repeat match goal with
             | |- context [if ?b then _ else _] => destruct b
             end; split; reflexivity.
  - intros e. rewrite errorHandler_app. repeat split.
  - intros err. apply errorHandler_unrecognized.
Qed.

Lemma translator_contract_witness :
  errorHandler production (str "2026-01-01T00:00:00.000Z")
    (FOther {| err_name := str "TypeError";
               err_message := str "Cannot read properties of undefined";
               err_stack := str "TypeError: at handler (/srv/app.js:10:3)";
               err_code := None |})
    (Some (str "req-42"))
  = generic_response (str "2026-01-01T00:00:00.000Z") (Some (str "req-42")).
Proof.
  destruct (translator_contract production (str "2026-01-01T00:00:00.000Z")
              (Some (str "req-42"))) as (_ & _ & H).
  apply H. reflexivity.
Defined.

(** C8, as stated, fails on the details: an error whose details are a
    string reaches the client without them. *)
Lemma string_details_are_dropped :
  let e := DatabaseError None (VStr (str "write conflict")) in
  error_details (errorHandler production (str "2026-01-01T00:00:00.000Z")
                   (FApp e) None) = None
  /\ ¬ details_pass_through e
         (errorHandler production (str "2026-01-01T00:00:00.000Z") (FApp e) None).
Proof.
  split; [reflexivity |]. unfold details_pass_through. simpl. discriminate.
Qed.

End ErrorFacts.

(** ** Admin authorization *)

Section AuthFacts.

Implicit Types (a : AdminData) (permission : jsstring).

Lemma requirePermission_super permission a :
  adminRole a = str "super_admin" -> requirePermission permission (Some a) = Next tt.
Proof.
  intros H. unfold requirePermission.
  rewrite (proj2 (jsstring_eqb_true _ _) H). reflexivity.
Qed.

Lemma requirePermission_other permission a :
  adminRole a ≠ str "super_admin" ->
  requirePermission permission (Some a)
  = if has_permission (permissions a) permission then Next tt
    else NextError (FApp (permission_denied permission)).
Proof.
  intros H. unfold requirePermission.
  rewrite (proj2 (jsstring_eqb_false _ _) H).
  destruct (has_permission (permissions a) permission); reflexivity.
Qed.

Lemma has_permission_own (perms : gmap jsstring bool) permission :
  inherited permission = false ->
  has_permission perms permission = true <-> perms !! permission = Some true.
Proof.
  intros Hp. unfold has_permission. rewrite Hp.
  destruct (perms !! permission) as [[|] |]; split;
    intros H; try reflexivity; try discriminate H.
Qed.

Lemma has_permission_inherited (perms : gmap jsstring bool) permission :
  inherited permission = true ->
  has_permission perms permission = true <-> perms !! permission ≠ Some false.
Proof.
  intros Hp. unfold has_permission. rewrite Hp.
  destruct (perms !! permission) as [[|] |]; split; intros H;
    try reflexivity; try discriminate.
  exfalso. apply H. reflexivity.
Qed.

Lemma permission_denied_fields permission :
  statusCode (permission_denied permission) = 403
  /\ code (permission_denied permission) = AUTH_FORBIDDEN
  /\ message (permission_denied permission)
     = str "Permission denied. Required permission: " ++ permission.
Proof. repeat split. Qed.

(** C2 (amended).  For every identity with the role [super_admin] the
    permission check allows every permission name, whatever the permission
    map holds.  For every identity with another role and every permission
    name that is not the name of a property of [Object.prototype] (no key
    of the permission map is, and the parameter type admits keys of the map
    only), the check allows exactly when the map holds the permission with
    the value true, and otherwise denies with an authorization error
    (status 403, code [AUTH_FORBIDDEN]) whose message names the required
    permission.  For the name of a property of [Object.prototype] the check
    allows unless the map holds the name with the value false, and then
    denies with the same error. *)
Theorem permission_policy_own_names permission a :
  (adminRole a = str "super_admin" ->
   requirePermission permission (Some a) = Next tt)
  /\ (adminRole a ≠ str "super_admin" ->
      (inherited permission = false ->
       (requirePermission permission (Some a) = Next tt
        <-> permissions a !! permission = Some true)
       /\ (permissions a !! permission ≠ Some true ->
           requirePermission permission (Some a)
           = NextError (FApp (permission_denied permission))
           /\ statusCode (permission_denied permission) = 403
           /\ code (permission_denied permission) = AUTH_FORBIDDEN
           /\ message (permission_denied permission)
              = str "Permission denied. Required permission: " ++ permission))
      /\ (inherited permission = true ->
          (requirePermission permission (Some a) = Next tt
           <-> permissions a !! permission ≠ Some false)
          /\ (permissions a !! permission = Some false ->
              requirePermission permission (Some a)
              = NextError (FApp (permission_denied permission))
              /\ statusCode (permission_denied permission) = 403
              /\ code (permission_denied permission) = AUTH_FORBIDDEN
              /\ message (permission_denied permission)
                 = str "Permission denied. Required permission: " ++ permission))).
Proof.
  split; [apply requirePermission_super |].
  intros Hrole. rewrite (requirePermission_other permission a Hrole).
  split; intros Hp.
  - rewrite <- (has_permission_own _ _ Hp).
    destruct (has_permission (permissions a) permission); split.
    + split; reflexivity.
    + intros H. exfalso. apply H. reflexivity.
    + split; discriminate.
    + intros _. split; [reflexivity | apply permission_denied_fields].
  - rewrite <- (has_permission_inherited _ _ Hp).
    pose proof (has_permission_inherited (permissions a) permission Hp) as Hiff.
    destruct (has_permission (permissions a) permission); split.
    + split; reflexivity.
    + intros H. exfalso. apply (proj1 Hiff eq_refl). exact H.
    + split; discriminate.
    + intros _. split; [reflexivity | apply permission_denied_fields].
Qed.

Lemma permission_policy_own_names_witness :
  requirePermission (str "launch_rockets")
    (Some {| id := str "a1"; email := str "root@example.org";
             adminRole := str "super_admin"; permissions := ∅ |}) = Next tt
  /\ (requirePermission (str "manage_users")
        (Some {| id := str "a2"; email := str "mod@example.org";
                 adminRole := str "moderator";
                 permissions := {[ str "manage_users" := true ]} |}) = Next tt
      <-> ({[ str "manage_users" := true ]} : gmap jsstring bool)
            !! str "manage_users" = Some true)
  /\ requirePermission (str "manage_users")
       (Some {| id := str "a3"; email := str "new@example.org";
                adminRole := str "admin";
                permissions := {[ str "manage_users" := false ]} |})
     = NextError (FApp (permission_denied (str "manage_users")))
  /\ requirePermission (str "toString")
       (Some {| id := str "a3"; email := str "new@example.org";
                adminRole := str "admin";
                permissions := {[ str "toString" := false ]} |})
     = NextError (FApp (permission_denied (str "toString"))).
Proof.
  destruct (permission_policy_own_names (str "launch_rockets")
              {| id := str "a1"; email := str "root@example.org";
                 adminRole := str "super_admin"; permissions := ∅ |}) as [H1 _].
  destruct (permission_policy_own_names (str "manage_users")
              {| id := str "a2"; email := str "mod@example.org";
                 adminRole := str "moderator";
                 permissions := {[ str "manage_users" := true ]} |}) as [_ H2].
  destruct (permission_policy_own_names (str "manage_users")
              {| id := str "a3"; email := str "new@example.org";
                 adminRole := str "admin";
                 permissions := {[ str "manage_users" := false ]} |}) as [_ H3].
  destruct (permission_policy_own_names (str "toString")
              {| id := str "a3"; email := str "new@example.org";
                 adminRole := str "admin";
                 permissions := {[ str "toString" := false ]} |}) as [_ H4].
  split; [| split; [| split]].
  - apply H1. reflexivity.
  - destruct H2 as [H2 _]; [vm_compute; discriminate |].
    destruct (H2 eq_refl) as [Hiff _]. exact Hiff.
  - destruct H3 as [H3 _]; [vm_compute; discriminate |].
    destruct (H3 eq_refl) as [_ Hdenied]. apply Hdenied.
    simpl. rewrite lookup_singleton_eq. discriminate.
  - destruct H4 as [_ H4]; [vm_compute; discriminate |].
    destruct (H4 eq_refl) as [_ Hdenied]. apply Hdenied.
    simpl. apply lookup_singleton_eq.
Defined.

(** C2, as stated, fails at a name that every object inherits: an admin
    with another role and an empty permission map passes the check for
    [constructor], which the map does not hold. *)
Lemma inherited_name_is_allowed :
  let a := {| id := str "a3"; email := str "new@example.org";
              adminRole := str "admin"; permissions := ∅ |} in
  adminRole a ≠ str "super_admin"
  /\ permissions a !! str "constructor" = None
  /\ requirePermission (str "constructor") (Some a) = Next tt
  /\ ¬ (requirePermission (str "constructor") (Some a) = Next tt
        <-> permissions a !! str "constructor" = Some true).
Proof.
  split; [vm_compute; discriminate |].
  split; [reflexivity |].
  split; [vm_compute; reflexivity |].
  intros [H _]. specialize (H ltac:(vm_compute; reflexivity)).
  simpl in H. rewrite lookup_empty in H. discriminate H.
Qed.

(** C7 (amended).  When the admin record that the account check resolves
    is not active, the check denies with an authorization error of status
    403 and code [AUTH_FORBIDDEN], the class, status and code of a denied
    permission; the two errors differ in their message only. *)
Theorem deactivated_admin_is_forbidden (u : DecodedToken)
    (findById : jsstring -> lookup) (admin : AdminDocument) :
  role u = ADMIN ->
  findById (userId u) = Found admin ->
  doc_isActive admin = false ->
  requireAdmin (Some u) findById = NextError (FApp account_deactivated)
  /\ statusCode account_deactivated = 403
  /\ code account_deactivated = AUTH_FORBIDDEN
  /\ (forall permission,
        code account_deactivated = code (permission_denied permission)
        /\ statusCode account_deactivated = statusCode (permission_denied permission)
        /\ message account_deactivated ≠ message (permission_denied permission)).
Proof.
  intros Hrole Hfound Hactive. split; [| split; [| split]].
  - unfold requireAdmin. rewrite Hrole, Hfound, Hactive. reflexivity.
  - reflexivity.
  - reflexivity.
  - intros permission. split; [reflexivity |]. split; [reflexivity |].
    vm_compute. discriminate.
Qed.

Lemma deactivated_admin_is_forbidden_witness :
  requireAdmin
    (Some {| userId := str "65f0"; role := ADMIN; sessionId := None;
             iat := 1700000000; exp := 1700000900 |})
    (fun _ => Found {| doc_id := str "65f0"; doc_email := str "old@example.org";
                       doc_adminRole := str "admin"; doc_permissions := ∅;
                       doc_isActive := false |})
  = NextError (FApp account_deactivated).
Proof.
  apply (deactivated_admin_is_forbidden
           {| userId := str "65f0"; role := ADMIN; sessionId := None;
              iat := 1700000000; exp := 1700000900 |}
           (fun _ => Found {| doc_id := str "65f0"; doc_email := str "old@example.org";
                              doc_adminRole := str "admin"; doc_permissions := ∅;
                              doc_isActive := false |})
           {| doc_id := str "65f0"; doc_email := str "old@example.org";
              doc_adminRole := str "admin"; doc_permissions := ∅;
              doc_isActive := false |}); reflexivity.
Defined.

(** C7, as stated, fails: the error for a deactivated account and the error
    for a denied permission have the same kind. *)
Lemma deactivated_and_denied_share_a_kind :
  requireAdmin
    (Some {| userId := str "65f0"; role := ADMIN; sessionId := None;
             iat := 1700000000; exp := 1700000900 |})
    (fun _ => Found {| doc_id := str "65f0"; doc_email := str "old@example.org";
                       doc_adminRole := str "admin"; doc_permissions := ∅;
                       doc_isActive := false |})
  = NextError (FApp account_deactivated)
  /\ requirePermission (str "manage_users")
       (Some {| id := str "a3"; email := str "new@example.org";
                adminRole := str "admin"; permissions := ∅ |})
     = NextError (FApp (permission_denied (str "manage_users")))
  /\ ¬ distinct_kind account_deactivated (permission_denied (str "manage_users")).
Proof.
  split; [reflexivity |]. split; [vm_compute; reflexivity |].
  intros H. apply H. reflexivity.
Qed.

End AuthFacts.

(** ** Regular expressions *)

Section RegexFacts.
Import Regex.

Lemma lang_seq_inv a b w :
  lang (Seq a b) w -> exists u t, w = u ++ t /\ lang a u /\ lang b t.
Proof. inversion 1; subst. eexists _, _. repeat split; eassumption. Qed.

Lemma lang_chr_inv p w : lang (Chr p) w -> exists c, w = [c] /\ p c = true.
Proof. inversion 1; subst. eexists. split; [reflexivity | assumption]. Qed.

Lemma lang_alt_inv a b w : lang (Alt a b) w -> lang a w \/ lang b w.
Proof. inversion 1; subst; [left | right]; assumption. Qed.

Lemma lang_eps_inv w : lang Eps w -> w = [].
Proof. inversion 1. reflexivity. Qed.

Lemma nullable_lang r : nullable r = true <-> lang r [].
Proof.
  induction r as [| | p | a IHa b IHb | a IHa b IHb | a IHa]; simpl.
  - split; [discriminate | inversion 1].
  - split; [constructor | reflexivity].
  - split; [discriminate | inversion 1].
  - rewrite andb_true_iff, IHa, IHb. split.
    + intros [Ha Hb]. exact (lang_seq a b [] [] Ha Hb).
    + intros (u & t & Hw & Hu & Ht)%lang_seq_inv.
      symmetry in Hw. apply app_eq_nil in Hw as [-> ->]. split; assumption.
  - rewrite orb_true_iff, IHa, IHb. split.
    + intros [H | H]; [apply lang_alt_l | apply lang_alt_r]; exact H.
    + apply lang_alt_inv.
  - split; [constructor | reflexivity].
Qed.

(** A word of [a*] that begins with [c] begins with a word of [a] that
    begins with [c]. *)
Lemma lang_star_head a c s :
  lang (Star a) (c :: s) ->
  exists s1 s2, s = s1 ++ s2 /\ lang a (c :: s1) /\ lang (Star a) s2.
Proof.
  intros H. remember (Star a) as r eqn:Hr. remember (c :: s) as w eqn:Hw.
  revert s Hw. induction H as [| | | | | a' | a' u t Hu _ Ht IH];
    intros w Hw; try discriminate.
  injection Hr as ->. destruct u as [| x u].
  - simpl in Hw. exact (IH eq_refl w Hw).
  - simpl in Hw. injection Hw as -> <-. exists u, t. repeat split; assumption.
Qed.

Lemma deriv_lang c r : forall s, lang (deriv c r) s <-> lang r (c :: s).
Proof.
  induction r as [| | p | a IHa b IHb | a IHa b IHb | a IHa]; intros s; simpl.
  - split; inversion 1.
  - split; inversion 1.
  - destruct (p c) eqn:Hp; split.
    + intros ->%lang_eps_inv. apply lang_chr. exact Hp.
    + intros (x & [= -> ->] & _)%lang_chr_inv. constructor.
    + inversion 1.
    + intros (x & [= -> ->] & Hx)%lang_chr_inv. congruence.
  - assert (Hseq : lang (Seq (deriv c a) b) s -> lang (Seq a b) (c :: s)).
    { intros (u & t & -> & Hu & Ht)%lang_seq_inv.
      apply IHa in Hu. exact (lang_seq a b (c :: u) t Hu Ht). }
    assert (Hback : lang (Seq a b) (c :: s) ->
                    lang (Seq (deriv c a) b) s
                    \/ (lang a [] /\ lang (deriv c b) s)).
    { intros (u & t & Hw & Hu & Ht)%lang_seq_inv.
      destruct u as [| x u]; simpl in Hw.
      - subst t. right. split; [exact Hu | apply IHb; exact Ht].
      - injection Hw as <- ->. left.
        apply lang_seq; [apply IHa; exact Hu | exact Ht]. }
    destruct (nullable a) eqn:Hn.
    + split.
      * intros [H | H]%lang_alt_inv; [exact (Hseq H) |].
        apply nullable_lang in Hn. apply IHb in H.
        exact (lang_seq a b [] (c :: s) Hn H).
      * intros H. destruct (Hback H) as [H1 | [_ H1]];
          [apply lang_alt_l | apply lang_alt_r]; exact H1.
    + split; [exact Hseq |].
      intros H. destruct (Hback H) as [H1 | [H0 _]]; [exact H1 |].
      apply nullable_lang in H0. congruence.
  - split.
    + intros [H | H]%lang_alt_inv;
        [apply lang_alt_l, IHa | apply lang_alt_r, IHb]; exact H.
    + intros [H | H]%lang_alt_inv;
        [apply lang_alt_l, IHa | apply lang_alt_r, IHb]; exact H.
  - split.
    + intros (u & t & -> & Hu & Ht)%lang_seq_inv.
      apply IHa in Hu. exact (lang_star_cons a (c :: u) t Hu Ht).
    + intros H. destruct (lang_star_head a c s H) as (u & t & -> & Hu & Ht).
      apply lang_seq; [apply IHa; exact Hu | exact Ht].
Qed.

Lemma matches_lang r s : matches r s = true <-> lang r s.
Proof.
  revert r. induction s as [| c s IH]; intros r; simpl.
  - apply nullable_lang.
  - rewrite IH. apply deriv_lang.
Qed.

Lemma lang_star_chr p s : lang (Star (Chr p)) s <-> forallb p s = true.
Proof.
  split.
  - intros H. remember (Star (Chr p)) as r eqn:Hr.
    induction H as [| | | | | a | a u t Hu _ Ht IH]; try discriminate.
    + reflexivity.
    + injection Hr as ->. apply lang_chr_inv in Hu as (x & -> & Hx). simpl.
      rewrite Hx. exact (IH eq_refl).
  - induction s as [| c s IH]; simpl; [constructor |].
    intros [Hc Hs]%andb_true_iff.
    exact (lang_star_cons (Chr p) [c] s (lang_chr p c Hc) (IH Hs)).
Qed.

Lemma lang_plus_chr p s :
  lang (Plus (Chr p)) s <-> s ≠ [] /\ forallb p s = true.
Proof.
  unfold Plus. split.
  - intros (u & t & -> & (x & -> & Hx)%lang_chr_inv & Ht)%lang_seq_inv.
    apply lang_star_chr in Ht. simpl. rewrite Hx, Ht.
    split; [discriminate | reflexivity].
  - intros [Hne Hall]. destruct s as [| c s]; [congruence |].
    simpl in Hall. apply andb_true_iff in Hall as [Hc Hs].
    exact (lang_seq (Chr p) (Star (Chr p)) [c] s (lang_chr p c Hc)
             (proj2 (lang_star_chr p s) Hs)).
Qed.

Lemma lang_times_chr p n : forall s,
  lang (Times n (Chr p)) s <-> length s = n /\ forallb p s = true.
Proof.
  induction n as [| n IH]; intros s; simpl.
  - split.
    + intros ->%lang_eps_inv. split; reflexivity.
    + intros [Hl _]. destruct s; [constructor | discriminate].
  - split.
    + intros (u & t & -> & (x & -> & Hx)%lang_chr_inv & Ht)%lang_seq_inv.
      apply IH in Ht as [Hl Hall]. simpl. rewrite Hx, Hall, Hl.
      split; reflexivity.
    + intros [Hl Hall]. destruct s as [| c s]; [discriminate |].
      simpl in Hall. apply andb_true_iff in Hall as [Hc Hs].
      injection Hl as Hl.
      exact (lang_seq (Chr p) _ [c] s (lang_chr p c Hc) (proj2 (IH s) (conj Hl Hs))).
Qed.

End RegexFacts.

(** ** What the sanitizer removes and what it keeps *)

Section SanitizerFacts.
Import Sanitization Leaves.

Implicit Types (s : jsstring) (m : jsstring -> option nat).

Lemma skip_while_sublist p s : skip_while p s `sublist_of` s.
Proof.
  induction s as [| c r IH]; simpl; [constructor |].
  destruct (p c); [apply sublist_cons; exact IH | reflexivity].
Qed.

Lemma sublist_rev (l1 l2 : jsstring) :
  l1 `sublist_of` l2 -> rev l1 `sublist_of` rev l2.
Proof.
  induction 1 as [| x l1 l2 _ IH | x l1 l2 _ IH]; simpl.
  - constructor.
  - apply sublist_app; [exact IH | reflexivity].
  - apply sublist_inserts_r. exact IH.
Qed.

Lemma trim_sublist s : trim s `sublist_of` s.
Proof.
  unfold trim, trimEnd, trimStart.
  transitivity (skip_while isSpace s); [| apply skip_while_sublist].
  rewrite <- (rev_involutive (skip_while isSpace s)) at 2.
  apply sublist_rev, skip_while_sublist.
Qed.

Lemma replace_from_sublist m s : forall k, replace_from m k s `sublist_of` s.
Proof.
  induction s as [| c r IH]; intros k; simpl; [constructor |].
  destruct k as [| k]; [| apply sublist_cons, IH].
  destruct (m (c :: r)) as [[| n] |].
  - apply sublist_skip, IH.
  - apply sublist_cons, IH.
  - apply sublist_skip, IH.
Qed.

Lemma replace_all_angle s :
  replace_all match_angle s = List.filter (fun c => negb (isAngle c)) s.
Proof.
  unfold replace_all. induction s as [| c r IH]; simpl; [reflexivity |].
  unfold isAngle at 1. destruct ((c =? 60) || (c =? 62))%N; simpl; rewrite IH; reflexivity.
Qed.

Lemma forallb_sublist {A} (p : A -> bool) (l1 l2 : list A) :
  l1 `sublist_of` l2 -> forallb p l2 = true -> forallb p l1 = true.
Proof.
  induction 1 as [| x l1 l2 _ IH | x l1 l2 _ IH]; simpl; [reflexivity | |].
  - intros [Hx H]%andb_true_iff. rewrite Hx. exact (IH H).
  - intros [_ H]%andb_true_iff. exact (IH H).
Qed.

Lemma sanitizeString_no_angle v : no_angle (sanitizeString v) = true.
Proof.
  destruct v as [| | b | n | s | items | props]; try reflexivity.
  unfold sanitizeString, no_angle.
  eapply forallb_sublist; [apply replace_from_sublist |].
  eapply forallb_sublist; [apply replace_from_sublist |].
  rewrite replace_all_angle. apply forallb_filter_same.
Qed.

Lemma sanitizeString_sublist s : sanitizeString (VStr s) `sublist_of` s.
Proof.
  unfold sanitizeString, replace_all.
  transitivity (trim s); [| apply trim_sublist].
  etransitivity; [apply replace_from_sublist |].
  etransitivity; [apply replace_from_sublist |].
  apply replace_from_sublist.
Qed.

(** X1.  Whatever the input, the result of [sanitizeString] holds neither
    [<] nor [>]; for a string it is a subsequence of the input, so the
    sanitizer only deletes code units and never makes a string longer. *)
Theorem sanitizeString_only_deletes (v : value) (s : jsstring) :
  no_angle (sanitizeString v) = true
  /\ sanitizeString (VStr s) `sublist_of` s
  /\ (length (sanitizeString (VStr s)) <= length s)%nat.
Proof.
  split; [apply sanitizeString_no_angle |].
  split; [apply sanitizeString_sublist |].
  apply sublist_length, sanitizeString_sublist.
Qed.

Lemma sanitized_leaves v :
  leaves_all no_angle (sanitizeProperty v) = true
  /\ leaves_all no_angle (sanitizeItem v) = true.
Proof.
  induction v as [| | b | n | s | items IH | props IH] using value_nested_ind;
    try (split; reflexivity).
  - split; simpl; apply (sanitizeString_no_angle (VStr s)).
  - split.
    + rewrite sanitizeProperty_arr. simpl. apply forallb_Forall_true.
      apply Forall_map. eapply Forall_impl; [exact IH |]. intros x [_ Hx]. exact Hx.
    + rewrite sanitizeItem_arr. simpl. apply forallb_Forall_true.
      apply (assign_all_Forall (fun x => leaves_all no_angle x = true)).
      apply (Forall_map_values (fun x => leaves_all no_angle x = true)).
      apply (Forall_indexed (fun x => leaves_all no_angle (sanitizeProperty x) = true)).
      eapply Forall_impl; [exact IH |]. intros x [Hx _]. exact Hx.
  - assert (H : leaves_all no_angle
                  (VObj (assign_all (map_values sanitizeProperty props))) = true).
    { simpl. apply forallb_Forall_true.
      apply (assign_all_Forall (fun x => leaves_all no_angle x = true)).
      apply (Forall_map_values (fun x => leaves_all no_angle x = true)).
      eapply Forall_impl; [exact IH |]. intros kv [Hx _]. exact Hx. }
    split; exact H.
Qed.

(** X2.  Every string leaf of a sanitized object or array, at any depth,
    is free of [<] and [>]. *)
Theorem sanitizeObject_leaves_no_angle (x y : value) :
  sanitizeObject x = Some y -> leaves_all no_angle y = true.
Proof.
  destruct x as [| | b | n | s | items | props]; try discriminate; intros [= <-].
  - destruct (sanitized_leaves (VArr items)) as [_ H].
    rewrite sanitizeItem_arr in H. rewrite indexed_map. exact H.
  - destruct (sanitized_leaves (VObj props)) as [H _]. exact H.
Qed.

Lemma sanitizeObject_leaves_no_angle_witness :
  leaves_all no_angle
    (VObj [(str "bio", VStr (str "ib hi"));
           (str "tags", VArr [VStr (str "ab"); VObj [(str "0", VStr (str "c"))]])])
  = true.
Proof.
  apply (sanitizeObject_leaves_no_angle
           (VObj [(str "bio", VStr (str " <i><b> hi "));
                  (str "tags", VArr [VStr (str "a<b"); VArr [VStr (str ">c")]])])).
  vm_compute. reflexivity.
Defined.

Lemma keys_map_values f (es : list (jsstring * value)) :
  keys (map_values f es) = keys es.
Proof. unfold keys, map_values. rewrite List.map_map. reflexivity. Qed.

(** X3.  For an object whose keys are distinct and do not include
    [__proto__], [sanitizeObject] keeps every key in its place and stores
    under it the sanitized value; keys themselves are never sanitized, and
    numbers, booleans and [null] stay as they are. *)
Theorem sanitizeObject_keeps_keys (props : list (jsstring * value)) :
  NoDup (keys props) ->
  str "__proto__" ∉ keys props ->
  sanitizeObject (VObj props) = Some (VObj (map_values sanitizeProperty props))
  /\ (forall k, get_prop k (map_values sanitizeProperty props)
                = sanitizeProperty <$> get_prop k props)
  /\ (forall n b, sanitizeProperty (VNum n) = VNum n
                  /\ sanitizeProperty (VBool b) = VBool b
                  /\ sanitizeProperty VNull = VNull).
Proof.
  intros Hnd Hproto. split; [| split].
  - simpl. unfold assign_all. rewrite fold_set_prop_fresh.
    + reflexivity.
    + simpl. rewrite keys_map_values. exact Hnd.
    + rewrite keys_map_values. exact Hproto.
  - intros k. clear Hnd Hproto. induction props as [| [k' v] props IH]; simpl;
      [reflexivity |].
    destruct (jsstring_eqb k k'); [reflexivity | exact IH].
  - intros n b. repeat split.
Qed.

Lemma sanitizeObject_keeps_keys_witness :
  sanitizeObject (VObj [(str "<b>", VStr (str " <x> ")); (str "age", VNum 41)])
  = Some (VObj [(str "<b>", VStr (str "x")); (str "age", VNum 41)]).
Proof.
  destruct (sanitizeObject_keeps_keys
              [(str "<b>", VStr (str " <x> ")); (str "age", VNum 41)]) as [H _].
  - apply (bool_decide_unpack _). vm_compute. exact I.
  - apply (bool_decide_unpack _). vm_compute. exact I.
  - exact H.
Defined.

End SanitizerFacts.

(** ** Phone and email helpers *)

Section MaskingFacts.
Import Sanitization Regex Masking Leaves.

Lemma sanitizePhoneNumber_digits phone :
  forallb isDigit (sanitizePhoneNumber phone) = true.
Proof.
  rewrite sanitizePhoneNumber_cases.
  destruct (_ && _); [apply forallb_skipn |]; apply forallb_filter_same.
Qed.

(** A string of digits passes [/^[6-9]\d{9}$/] exactly when it has ten of
    them and begins with 6, 7, 8 or 9. *)
Lemma indianMobile_digits (w : jsstring) :
  forallb isDigit w = true ->
  matches indianMobile w = true
  <-> exists first rest,
        w = first :: rest /\ isSixToNine first = true /\ length rest = 9%nat.
Proof.
  intros Hw. rewrite matches_lang. unfold indianMobile. split.
  - intros (u & t & -> & (x & -> & Hx)%lang_chr_inv & Ht)%lang_seq_inv.
    apply lang_times_chr in Ht as [Hl _]. exists x, t. repeat split; assumption.
  - intros (first & rest & -> & Hf & Hl). simpl in Hw.
    apply andb_true_iff in Hw as [_ Hr].
    apply (lang_seq _ _ [first] rest); [apply lang_chr; exact Hf |].
    apply lang_times_chr. split; assumption.
Qed.

(** X4.  [isValidIndianPhone] accepts exactly the inputs whose digits are
    ten digits that begin with 6 to 9, or 91 followed by ten such digits;
    every other character of the input is ignored. *)
Theorem isValidIndianPhone_iff (phone : jsstring) :
  isValidIndianPhone phone = true
  <-> exists first rest,
        isSixToNine first = true /\ length rest = 9%nat
        /\ (List.filter isDigit phone = first :: rest
            \/ List.filter isDigit phone = str "91" ++ first :: rest).
Proof.
  unfold isValidIndianPhone.
  rewrite (indianMobile_digits _ (sanitizePhoneNumber_digits phone)).
  rewrite sanitizePhoneNumber_cases.
  destruct ((length (List.filter isDigit phone) =? 12)%nat
            && startsWith (str "91") (List.filter isDigit phone)) eqn:Hc.
  - apply andb_true_iff in Hc as [Hl H91]. apply Nat.eqb_eq in Hl.
    pose proof (startsWith_split _ _ H91) as Hsplit. simpl length in Hsplit.
    split.
    + intros (first & rest & Hw & Hf & Hr). exists first, rest.
      split; [exact Hf |]. split; [exact Hr |]. right.
      rewrite Hsplit at 1. rewrite Hw. reflexivity.
    + intros (first & rest & Hf & Hr & [Hd | Hd]).
      * rewrite Hd in Hl. simpl in Hl. lia.
      * exists first, rest. rewrite Hd. repeat split; assumption.
  - split.
    + intros (first & rest & Hw & Hf & Hr). exists first, rest.
      split; [exact Hf |]. split; [exact Hr |]. left. exact Hw.
    + intros (first & rest & Hf & Hr & [Hd | Hd]).
      * exists first, rest. repeat split; assumption.
      * rewrite Hd in Hc. simpl in Hc. rewrite Hr in Hc. discriminate Hc.
Qed.

(** X5.  [maskPhoneNumber] gives six stars followed by the last four digits
    of the sanitized number, or six stars alone when it has fewer than
    four digits; it never shows more than four digits, whatever the
    input. *)
Theorem maskPhoneNumber_shows_last_four (phone : jsstring) :
  (exists hidden shown,
     sanitizePhoneNumber phone = hidden ++ shown
     /\ maskPhoneNumber phone = str "******" ++ shown
     /\ forallb isDigit shown = true
     /\ (length shown = 4%nat \/ (shown = [] /\ (length hidden < 4)%nat)))
  /\ (length (List.filter isDigit (maskPhoneNumber phone)) <= 4)%nat.
Proof.
  assert (Hshape : exists hidden shown,
     sanitizePhoneNumber phone = hidden ++ shown
     /\ maskPhoneNumber phone = str "******" ++ shown
     /\ forallb isDigit shown = true
     /\ (length shown = 4%nat \/ (shown = [] /\ (length hidden < 4)%nat))).
  { unfold maskPhoneNumber, slice_last.
    pose proof (sanitizePhoneNumber_digits phone) as Hd.
    destruct (4 <=? length (sanitizePhoneNumber phone))%nat eqn:H4.
    - apply Nat.leb_le in H4.
      exists (firstn (length (sanitizePhoneNumber phone) - 4) (sanitizePhoneNumber phone)),
             (skipn (length (sanitizePhoneNumber phone) - 4) (sanitizePhoneNumber phone)).
      split; [symmetry; apply firstn_skipn |]. split; [reflexivity |].
      split; [apply forallb_skipn; exact Hd |].
      left. rewrite length_skipn. lia.
    - apply Nat.leb_gt in H4. exists (sanitizePhoneNumber phone), [].
      rewrite app_nil_r. repeat split; try reflexivity. right. split; [reflexivity | exact H4]. }
  split; [exact Hshape |].
  destruct Hshape as (hidden & shown & _ & -> & _ & Hlen).
  change (List.filter isDigit (str "******" ++ shown)) with (List.filter isDigit shown).
  pose proof (List.filter_length_le isDigit shown) as Hle.
  destruct Hlen as [H4 | [-> _]]; [lia | simpl; lia].
Qed.

(** *** Splitting at [@] *)

Lemma split_no_sep sep (a : jsstring) :
  forallb (fun c => negb (c =? sep)%N) a = true -> split sep a = [a].
Proof.
  induction a as [| c a IH]; simpl; [reflexivity |].
  intros [Hc Ha]%andb_true_iff. apply negb_true_iff in Hc.
  rewrite Hc, (IH Ha). reflexivity.
Qed.

Lemma split_at_sep sep (a b : jsstring) :
  forallb (fun c => negb (c =? sep)%N) a = true ->
  split sep (a ++ sep :: b) = a :: split sep b.
Proof.
  induction a as [| c a IH]; simpl.
  - intros _. rewrite N.eqb_refl. reflexivity.
  - intros [Hc Ha]%andb_true_iff. apply negb_true_iff in Hc.
    rewrite Hc, (IH Ha). reflexivity.
Qed.

Lemma split_nonempty sep (s : jsstring) : split sep s ≠ [].
Proof.
  destruct s as [| c r]; simpl; [discriminate |].
  destruct (c =? sep)%N; [discriminate |]. destruct (split sep r); discriminate.
Qed.

Lemma maskLocal_length (l : jsstring) : length (maskLocal l) = length l.
Proof.
  unfold maskLocal, stars. destruct (2 <? length l)%nat eqn:H2.
  - apply Nat.ltb_lt in H2.
    rewrite length_app, length_firstn, repeat_length. lia.
  - apply repeat_length.
Qed.

(** X6.  For an address [local@domain] with a non-empty local part and a
    non-empty domain, neither holding an [@], [maskEmail] keeps the domain
    and the length: it shows the first two code units of a local part that
    is longer than two and a star for each of the others.  Whatever
    follows a second [@] is dropped. *)
Theorem maskEmail_keeps_domain (localPart domain rest : jsstring) :
  localPart ≠ [] -> domain ≠ [] ->
  no_at localPart = true -> no_at domain = true ->
  maskEmail (localPart ++ str "@" ++ domain)
  = maskLocal localPart ++ str "@" ++ domain
  /\ length (maskEmail (localPart ++ str "@" ++ domain))
     = length (localPart ++ str "@" ++ domain)
  /\ maskLocal localPart
     = (if (2 <? length localPart)%nat
        then firstn 2 localPart ++ stars (length localPart - 2)
        else stars (length localPart))
  /\ maskEmail (localPart ++ str "@" ++ domain ++ str "@" ++ rest)
     = maskLocal localPart ++ str "@" ++ domain.
Proof.
  intros Hl Hd Hal Had.
  assert (H1 : maskEmail (localPart ++ str "@" ++ domain)
               = maskLocal localPart ++ str "@" ++ domain).
  { unfold maskEmail. change (str "@" ++ domain) with (64%N :: domain).
    rewrite (split_at_sep 64 localPart domain Hal), (split_no_sep 64 domain Had).
    destruct localPart; [congruence |]. destruct domain; [congruence |]. reflexivity. }
  split; [exact H1 |]. split; [| split; [reflexivity |]].
  - rewrite H1, !length_app, maskLocal_length. reflexivity.
  - unfold maskEmail.
    change (str "@" ++ domain ++ str "@" ++ rest) with (64%N :: (domain ++ 64%N :: rest)).
    rewrite (split_at_sep 64 localPart _ Hal), (split_at_sep 64 domain rest Had).
    destruct localPart; [congruence |]. destruct domain; [congruence |]. reflexivity.
Qed.

Lemma maskEmail_keeps_domain_witness :
  maskEmail (str "asha.rao@example.org") = str "as******@example.org"
  /\ maskEmail (str "asha.rao@example.org@evil.test") = str "as******@example.org".
Proof.
  destruct (maskEmail_keeps_domain (str "asha.rao") (str "example.org")
              (str "evil.test")) as (H1 & _ & _ & H2); try reflexivity;
    try discriminate.
  split; [exact H1 | exact H2].
Defined.

(** X7.  [maskEmail] answers the fixed mask [***@***] for an input without
    [@], for an input that begins with [@], and for an input whose first
    [@] is its last code unit or is followed at once by another [@]. *)
Theorem maskEmail_fallback (e localPart rest : jsstring) :
  no_at e = true -> no_at localPart = true ->
  maskEmail e = str "***@***"
  /\ maskEmail (str "@" ++ rest) = str "***@***"
  /\ maskEmail (localPart ++ str "@") = str "***@***"
  /\ maskEmail (localPart ++ str "@@" ++ rest) = str "***@***".
Proof.
  intros He Hl. unfold maskEmail. split; [| split; [| split]].
  - rewrite (split_no_sep 64 e He). reflexivity.
  - simpl. destruct (split 64 rest) as [| d t] eqn:Hs; [reflexivity |].
    reflexivity.
  - change (str "@") with [64%N]. rewrite (split_at_sep 64 localPart [] Hl). simpl.
    destruct localPart; reflexivity.
  - change (str "@@" ++ rest) with (64%N :: 64%N :: rest).
    rewrite (split_at_sep 64 localPart _ Hl). simpl.
    destruct localPart; reflexivity.
Qed.

Lemma maskEmail_fallback_witness :
  maskEmail (str "not an address") = str "***@***"
  /\ maskEmail (str "@" ++ str "example.org") = str "***@***"
  /\ maskEmail (str "asha" ++ str "@") = str "***@***"
  /\ maskEmail (str "asha" ++ str "@@" ++ str "example.org") = str "***@***".
Proof.
  apply (maskEmail_fallback (str "not an address") (str "asha") (str "example.org"));
    reflexivity.
Defined.

Lemma isAddressChar_no_at (l : jsstring) :
  forallb isAddressChar l = true -> no_at l = true.
Proof.
  unfold no_at. induction l as [| c l IH]; simpl; [reflexivity |].
  intros [Hc Hl]%andb_true_iff. unfold isAddressChar in Hc.
  apply andb_true_iff in Hc as [_ Hc]. rewrite Hc. exact (IH Hl).
Qed.

(** The parts of a string that [emailRegex] matches. *)
Lemma emailRegex_parts (email : jsstring) :
  Regex.matches emailRegex email = true ->
  exists localPart domain tld,
    email = localPart ++ str "@" ++ domain ++ str "." ++ tld
    /\ localPart ≠ [] /\ domain ≠ [] /\ tld ≠ []
    /\ forallb isAddressChar localPart = true
    /\ forallb isAddressChar domain = true
    /\ forallb isAddressChar tld = true.
Proof.
  unfold emailRegex. rewrite matches_lang.
  intros (l & r1 & -> & [Hl Hla]%lang_plus_chr & H1)%lang_seq_inv.
  apply lang_seq_inv in H1 as (a & r2 & -> & (x & -> & Hx)%lang_chr_inv & H2).
  apply lang_seq_inv in H2 as (d & r3 & -> & [Hd Hda]%lang_plus_chr & H3).
  apply lang_seq_inv in H3 as (o & t & -> & (y & -> & Hy)%lang_chr_inv & [Ht Hta]%lang_plus_chr).
  apply N.eqb_eq in Hx, Hy. subst x y.
  exists l, d, t. repeat split; assumption.
Qed.

(** X8.  [isValidEmail] accepts exactly the strings [local@domain.tld] in
    which the three parts are non-empty and hold neither white space nor
    [@]; the domain part may itself hold dots. *)
Theorem isValidEmail_iff (email : jsstring) :
  isValidEmail email = true
  <-> exists localPart domain tld,
        email = localPart ++ str "@" ++ domain ++ str "." ++ tld
        /\ localPart ≠ [] /\ domain ≠ [] /\ tld ≠ []
        /\ forallb isAddressChar localPart = true
        /\ forallb isAddressChar domain = true
        /\ forallb isAddressChar tld = true.
Proof.
  unfold isValidEmail. split; [apply emailRegex_parts |].
  intros (l & d & t & -> & Hl & Hd & Ht & Hla & Hda & Hta).
  apply matches_lang. unfold emailRegex.
  apply lang_seq; [apply lang_plus_chr; split; assumption |].
  apply (lang_seq _ _ [64%N]); [apply lang_chr; reflexivity |].
  apply lang_seq; [apply lang_plus_chr; split; assumption |].
  apply (lang_seq _ _ [46%N]); [apply lang_chr; reflexivity |].
  apply lang_plus_chr; split; assumption.
Qed.

(** X9.  The mask of an address that [isValidEmail] accepts has the length
    of the address and ends with its whole domain, from the [@] on. *)
Theorem maskEmail_of_valid (email : jsstring) :
  isValidEmail email = true ->
  length (maskEmail email) = length email
  /\ exists localPart domain,
       email = localPart ++ str "@" ++ domain
       /\ maskEmail email = maskLocal localPart ++ str "@" ++ domain.
Proof.
  unfold isValidEmail.
  intros (l & d & t & -> & Hl & Hd & Ht & Hla & Hda & Hta)%emailRegex_parts.
  assert (Hdom : no_at (d ++ str "." ++ t) = true).
  { unfold no_at. rewrite forallb_app. fold (no_at d).
    rewrite (isAddressChar_no_at d Hda). simpl. exact (isAddressChar_no_at t Hta). }
  assert (Hne : d ++ str "." ++ t ≠ []).
  { destruct d; [congruence | discriminate]. }
  assert (Hmask : maskEmail (l ++ str "@" ++ d ++ str "." ++ t)
                  = maskLocal l ++ str "@" ++ d ++ str "." ++ t).
  { unfold maskEmail. change (str "@" ++ d ++ str "." ++ t) with (64%N :: (d ++ str "." ++ t)).
    rewrite (split_at_sep 64 l _ (isAddressChar_no_at l Hla)), (split_no_sep 64 _ Hdom).
    destruct l; [congruence |].
    destruct (d ++ str "." ++ t) eqn:Hdt; [congruence |]. reflexivity. }
  split.
  - rewrite Hmask, !length_app, maskLocal_length. reflexivity.
  - exists l, (d ++ str "." ++ t). split; [reflexivity | exact Hmask].
Qed.

Lemma maskEmail_of_valid_witness :
  length (maskEmail (str "asha.rao@mail.example.org"))
  = length (str "asha.rao@mail.example.org").
Proof.
  apply (maskEmail_of_valid (str "asha.rao@mail.example.org")). reflexivity.
Defined.

End MaskingFacts.

(** ** More on the rate limiter *)

Section LimiterFacts.
Import RateLimit Http RateLimitMiddleware.

Implicit Types (store : gmap jsstring RateLimitRecord) (key : jsstring).
Implicit Types (now W L : Z) (r : RateLimitRecord).

Lemma cleanup_lookup tc key store :
  cleanup tc store !! key
  = match store !! key with
    | Some r => if decide (tc > resetTime r) then None else Some r
    | None => None
    end.
Proof.
  unfold cleanup. destruct (store !! key) as [r |] eqn:Hr.
  - destruct (decide (tc > resetTime r)) as [Hold | Hlive].
    + apply map_lookup_filter_None. right. intros r' Hr' Hkeep.
      rewrite Hr in Hr'. injection Hr' as <-. simpl in Hkeep. contradiction.
    + apply map_lookup_filter_Some. split; [exact Hr | exact Hlive].
  - apply map_lookup_filter_None. left. exact Hr.
Qed.

(** After a sweep at [tc], a reader at [now >= tc] finds a record expired
    exactly when it would have without the sweep, and finds the same
    record when it is live. *)
Lemma cleanup_view tc now key store :
  tc <= now ->
  expired now (cleanup tc store !! key) = expired now (store !! key)
  /\ (expired now (store !! key) = false -> cleanup tc store !! key = store !! key).
Proof.
  intros Hle. rewrite cleanup_lookup. destruct (store !! key) as [r |]; simpl.
  - destruct (decide (tc > resetTime r)) as [Hold | Hlive]; simpl.
    + assert (H : (now >? resetTime r) = true) by (apply Z.gtb_gt; lia).
      rewrite H. split; [reflexivity | discriminate].
    + split; reflexivity.
  - split; reflexivity.
Qed.

(** X10.  The periodic sweep is invisible to later calls: for a sweep at
    [tc] and any call at [now >= tc], [isRateLimited] gives the same answer
    and leaves the same record for the key, and [getRemaining] and
    [getResetTime] return the same values, as without the sweep. *)
Theorem cleanup_is_invisible tc now key L W store :
  tc <= now ->
  (isRateLimited now key L W (cleanup tc store)).1
  = (isRateLimited now key L W store).1
  /\ (isRateLimited now key L W (cleanup tc store)).2 !! key
     = (isRateLimited now key L W store).2 !! key
  /\ getRemaining now key L (cleanup tc store) = getRemaining now key L store
  /\ getResetTime now key (cleanup tc store) = getResetTime now key store.
Proof.
  intros Hle. destruct (cleanup_view tc now key store Hle) as [He Hsame].
  unfold isRateLimited, getRemaining, getResetTime. rewrite He.
  destruct (expired now (store !! key)) eqn:Hx; simpl.
  - rewrite !lookup_insert_eq. repeat split.
  - specialize (Hsame eq_refl). rewrite Hsame.
    destruct (store !! key) as [r |] eqn:Hr; [| discriminate Hx].
    destruct (count r >=? L); simpl; [| rewrite !lookup_insert_eq]; repeat split.
    rewrite Hsame, Hr. reflexivity.
Qed.

Lemma cleanup_is_invisible_witness :
  let store : gmap jsstring RateLimitRecord :=
    {[ str "198.51.100.7" := {| count := 3; resetTime := 1000 |} ]} in
  (isRateLimited 2500 (str "198.51.100.7") 3 900000 (cleanup 2000 store)).1
  = (isRateLimited 2500 (str "198.51.100.7") 3 900000 store).1.
Proof.
  apply (cleanup_is_invisible 2000 2500 (str "198.51.100.7") 3 900000
           {[ str "198.51.100.7" := {| count := 3; resetTime := 1000 |} ]}).
  lia.
Defined.

(** X11.  With a window that is not negative, every check lowers the
    remaining quota of its key by one, not below zero, and leaves a live
    record whose reset time the limiter reports; for a limit of at least
    one, the check is refused exactly when no quota remained. *)
Theorem check_counts_down now key L W store :
  0 <= W ->
  getRemaining now key L (isRateLimited now key L W store).2
  = Z.max 0 (getRemaining now key L store - 1)
  /\ (exists t, getResetTime now key (isRateLimited now key L W store).2 = Some t
                /\ now <= t)
  /\ (1 <= L ->
      ((isRateLimited now key L W store).1 = true
       <-> getRemaining now key L store = 0)).
Proof.
  intros HW. unfold isRateLimited, getRemaining, getResetTime.
  destruct (expired now (store !! key)) eqn:Hx; simpl.
  - rewrite lookup_insert_eq. simpl.
    assert (Hlive : (now + W <? now) = false) by (apply Z.ltb_ge; lia).
    rewrite Z.gtb_ltb, Hlive. split; [lia |]. split.
    + exists (now + W). split; [reflexivity | lia].
    + intros HL. split; [discriminate | lia].
  - destruct (store !! key) as [r |] eqn:Hr; [| discriminate]. simpl in Hx.
    assert (Hnow : now <= resetTime r).
    { rewrite Z.gtb_ltb in Hx. apply Z.ltb_ge in Hx. exact Hx. }
    destruct (count r >=? L) eqn:Hc; simpl.
    + rewrite Hr. simpl. rewrite Hx. rewrite Z.geb_leb in Hc. apply Z.leb_le in Hc.
      split; [lia |]. split.
      * exists (resetTime r). split; [reflexivity | exact Hnow].
      * intros _. split; [lia | reflexivity].
    + rewrite lookup_insert_eq. simpl. rewrite Hx.
      rewrite Z.geb_leb in Hc. apply Z.leb_gt in Hc.
      split; [lia |]. split.
      * exists (resetTime r). split; [reflexivity | exact Hnow].
      * intros _. split; [discriminate | lia].
Qed.

Lemma check_counts_down_witness :
  getRemaining 10 (str "198.51.100.7") 5
    (isRateLimited 10 (str "198.51.100.7") 5 900000 ∅).2
  = Z.max 0 (getRemaining 10 (str "198.51.100.7") 5 ∅ - 1).
Proof.
  apply (check_counts_down 10 (str "198.51.100.7") 5 900000 ∅). lia.
Defined.

(** The record after admitted checks inside a window. *)
Lemma checks_store key W (times : list Z) : forall store (c R L : Z),
  store !! key = Some {| count := c; resetTime := R |} ->
  Forall (fun t => ¬ t > R) times ->
  c + Z.of_nat (length times) <= L ->
  (checks key L W times store).2 !! key
  = Some {| count := c + Z.of_nat (length times); resetTime := R |}.
Proof.
  induction times as [| t times IH]; intros store c R L Hr Hall Hle; simpl.
  - rewrite Z.add_0_r. exact Hr.
  - apply Forall_cons in Hall as [Ht Hall]. simpl length in Hle.
    rewrite (isRateLimited_counts t key L W store _ Hr); simpl; [| exact Ht | lia].
    specialize (IH (<[key := {| count := c + 1; resetTime := R |}]> store)
                  (c + 1) R L (lookup_insert_eq _ _ _) Hall ltac:(lia)).
    destruct (checks key L W times _) as [answers store'].
    simpl in *. rewrite IH. f_equal. f_equal. lia.
Qed.

(** A key that has made [n] requests in its live window under a limit
    [L1 >= n] is refused under a limit [L2 <= n]. *)
Lemma counted_key_is_refused key (L1 W1 L2 W2 t0 t : Z) (later : list Z) store :
  expired t0 (store !! key) = true ->
  Forall (fun u => ¬ u > t0 + W1) later ->
  1 + Z.of_nat (length later) <= L1 ->
  L2 <= 1 + Z.of_nat (length later) ->
  ¬ t > t0 + W1 ->
  let counted := (checks key L1 W1 (t0 :: later) store).2 in
  isRateLimited t key L2 W2 counted = (true, counted).
Proof.
  intros Hexp Hall HL1 HL2 Ht. simpl.
  rewrite (isRateLimited_opens _ _ _ _ _ Hexp).
  pose proof (checks_store key W1 later
                (<[key := {| count := 1; resetTime := t0 + W1 |}]> store)
                1 (t0 + W1) L1 (lookup_insert_eq _ _ _) Hall HL1) as Hrec.
  destruct (checks key L1 W1 later _) as [answers store'] eqn:Hchecks.
  simpl in *.
  apply (isRateLimited_refuses t key L2 W2 store' _ Hrec); simpl; lia.
Qed.

(** What a middleware with the default key generator and no [skip] does
    with the limiter. *)
Lemma rateLimit_default options env (a : Arrival) store :
  options ≫= keyGenerator = None ->
  options ≫= skip = None ->
  let L := number_or (options ≫= maxRequests) (RATE_LIMIT_MAX_REQUESTS env) in
  let W := number_or (options ≫= windowMs) (RATE_LIMIT_WINDOW_MS env) in
  let checked := isRateLimited (read1 a) (defaultKey (request a)) L W store in
  store_after (handle (rateLimit options env) a store) = checked.2
  /\ next_arg (handle (rateLimit options env) a store)
     = if checked.1 then Some (FApp (RateLimitError (Some (tooManyRequests W))))
       else None.
Proof.
  intros Hkey Hskip L W checked. subst checked.
  unfold handle, rateLimit. rewrite Hkey, Hskip. fold L W. simpl.
  fold (defaultKey (request a)).
  destruct (isRateLimited (read1 a) (defaultKey (request a)) L W store)
    as [isLimited store'].
  split; reflexivity.
Qed.

(** Requests of one client inside its window, served by such a middleware
    while the limit lasts: each is passed on, and each is counted. *)
Lemma serve_counts options env key (arrivals : list Arrival) :
  options ≫= keyGenerator = None ->
  options ≫= skip = None ->
  forall store (c R : Z),
  store !! key = Some {| count := c; resetTime := R |} ->
  Forall (fun b => defaultKey (request b) = key /\ ¬ read1 b > R) arrivals ->
  c + Z.of_nat (length arrivals)
  <= number_or (options ≫= maxRequests) (RATE_LIMIT_MAX_REQUESTS env) ->
  Forall (fun h => next_arg h = None) (serve (rateLimit options env) arrivals store).1
  /\ (serve (rateLimit options env) arrivals store).2 !! key
     = Some {| count := c + Z.of_nat (length arrivals); resetTime := R |}.
Proof.
  intros Hkey Hskip.
  induction arrivals as [| a arrivals IH]; intros store c R Hr Hall Hle.
  - simpl. split; [constructor |]. rewrite Z.add_0_r. exact Hr.
  - apply Forall_cons in Hall as [[Ha Ht] Hall]. simpl length in Hle.
    destruct (rateLimit_default options env a store Hkey Hskip) as [Hstore Hnext].
    rewrite Ha in Hstore, Hnext.
    rewrite (isRateLimited_counts _ key _ _ store _ Hr) in Hstore, Hnext;
      simpl; [| exact Ht | lia | exact Ht | lia].
    simpl in Hstore, Hnext.
    specialize (IH (store_after (handle (rateLimit options env) a store))
                  (c + 1) R).
    rewrite Hstore in IH.
    specialize (IH (lookup_insert_eq _ _ _) Hall ltac:(lia)).
    cbn [serve]. rewrite Hstore.
    destruct (serve (rateLimit options env) arrivals _) as [hs store'].
    simpl in *. destruct IH as [Hhs Hrec]. split.
    + constructor; [exact Hnext | exact Hhs].
    + rewrite Hrec. f_equal. f_equal. lia.
Qed.

(** X12.  The limiter keeps one counter per key, whatever limit a caller
    passes: when a key has made [n] requests in its live window under a
    limit [L1 >= n], a check of the same key with a limit [L2 <= n] is
    refused and changes nothing.  The middlewares share the store of the
    one limiter and, without a [keyGenerator], the default key: when a
    general middleware [rateLimit(options)] has passed on [n >= 5] requests
    of a client inside a window, [strictRateLimit] (limit 5) hands the
    next request of that client inside the window to [next] with a
    [RateLimitError] and leaves the store as it is, although it has
    handled no request of the client before. *)
Theorem strict_limit_shares_the_counter :
  (forall key (L1 W1 L2 W2 t0 t : Z) (later : list Z) store,
     expired t0 (store !! key) = true ->
     Forall (fun u => ¬ u > t0 + W1) later ->
     1 + Z.of_nat (length later) <= L1 ->
     L2 <= 1 + Z.of_nat (length later) ->
     ¬ t > t0 + W1 ->
     let counted := (checks key L1 W1 (t0 :: later) store).2 in
     isRateLimited t key L2 W2 counted = (true, counted))
  /\ (forall options env (first : Arrival) (later : list Arrival) (a : Arrival) store,
        options ≫= keyGenerator = None ->
        options ≫= skip = None ->
        let L := number_or (options ≫= maxRequests) (RATE_LIMIT_MAX_REQUESTS env) in
        let W := number_or (options ≫= windowMs) (RATE_LIMIT_WINDOW_MS env) in
        let key := defaultKey (request first) in
        expired (read1 first) (store !! key) = true ->
        Forall (fun b => defaultKey (request b) = key
                         /\ ¬ read1 b > read1 first + W) later ->
        1 + Z.of_nat (length later) <= L ->
        5 <= 1 + Z.of_nat (length later) ->
        defaultKey (request a) = key ->
        ¬ read1 a > read1 first + W ->
        let served := serve (rateLimit options env) (first :: later) store in
        let refused := handle (strictRateLimit env) a served.2 in
        Forall (fun h => next_arg h = None) served.1
        /\ next_arg refused
           = Some (FApp (RateLimitError (Some (tooManyRequests (15 * 60 * 1000)))))
        /\ store_after refused = served.2).
Proof.
  split; [exact counted_key_is_refused |].
  intros options env first later a store Hkey Hskip L W key Hexp Hall HL H5 Ha Ht
    served refused.
  destruct (rateLimit_default options env first store Hkey Hskip) as [Hstore Hnext].
  fold L W key in Hstore, Hnext.
  rewrite (isRateLimited_opens _ _ _ _ _ Hexp) in Hstore, Hnext.
  simpl in Hstore, Hnext.
  destruct (serve_counts options env key later Hkey Hskip
              (store_after (handle (rateLimit options env) first store))
              1 (read1 first + W)) as [Hpassed Hrec].
  { rewrite Hstore. apply lookup_insert_eq. }
  { exact Hall. }
  { exact HL. }
  subst refused served. cbn [serve].
  destruct (serve (rateLimit options env) later _) as [hs store'].
  simpl in Hpassed, Hrec. cbn [fst snd].
  split; [constructor; [exact Hnext | exact Hpassed] |].
  destruct (rateLimit_default
              (Some {| maxRequests := Some 5; windowMs := Some (15 * 60 * 1000);
                       keyGenerator := None; skip := None |})
              env a store' eq_refl eq_refl) as [Hs Hn].
  simpl in Hs, Hn. rewrite Ha in Hs, Hn.
  rewrite (isRateLimited_refuses _ key 5 _ store' _ Hrec) in Hs, Hn;
    simpl; [| exact Ht | lia | exact Ht | lia].
  split; [exact Hn | exact Hs].
Qed.

Lemma strict_limit_shares_the_counter_witness :
  let env := {| RATE_LIMIT_MAX_REQUESTS := 100; RATE_LIMIT_WINDOW_MS := 900000 |} in
  let req := {| req_ip := Some (str "198.51.100.7"); req_method := str "GET";
                req_path := str "/items"; req_authorization := None;
                req_contentType := None; req_cookie_accessToken := None;
                req_body := VUndefined; req_query := VUndefined;
                req_params := VUndefined; req_correlationId := None |} in
  let at_ t := {| read1 := t; read2 := t; read3 := t; request := req |} in
  let served := serve (rateLimit None env) [at_ 0; at_ 10; at_ 20; at_ 30; at_ 40] ∅ in
  let refused := handle (strictRateLimit env) (at_ 50) served.2 in
  Forall (fun h => next_arg h = None) served.1
  /\ next_arg refused
     = Some (FApp (RateLimitError (Some (tooManyRequests (15 * 60 * 1000)))))
  /\ store_after refused = served.2.
Proof.
  intros env req at_.
  destruct strict_limit_shares_the_counter as [_ H].
  apply (H None env (at_ 0) [at_ 10; at_ 20; at_ 30; at_ 40] (at_ 50) ∅).
  - reflexivity.
  - reflexivity.
  - reflexivity.
  - repeat constructor; simpl; lia.
  - simpl. lia.
  - simpl. lia.
  - reflexivity.
  - simpl. lia.
Defined.

(** X13.  When the record of the request's key is live and full at the
    three clock reads of the middleware, [rateLimit] leaves the store as it
    is, announces a remaining quota of 0, and hands to [next] a
    [RateLimitError] that the error handler answers with status 429 and
    code [RATE_LIMIT_EXCEEDED]; the retry hint of the message is the whole
    window length in seconds, whatever is left of the window. *)
Theorem rateLimit_refusal options env now1 now2 now3 req store r :
  let L := number_or (options ≫= maxRequests) (RATE_LIMIT_MAX_REQUESTS env) in
  let W := number_or (options ≫= windowMs) (RATE_LIMIT_WINDOW_MS env) in
  let key := default (fun req => string_or (req_ip req) (str "unknown"))
               (options ≫= keyGenerator) req in
  default (fun _ => false) (options ≫= skip) req = false ->
  store !! key = Some r ->
  ¬ now1 > resetTime r -> ¬ now2 > resetTime r ->
  count r >= L ->
  let h := rateLimit options env now1 now2 now3 req store in
  store_after h = store
  /\ headers h !! 1%nat = Some (str "X-RateLimit-Remaining", str "0")
  /\ next_arg h = Some (FApp (RateLimitError (Some (tooManyRequests W))))
  /\ forall nodeEnv ts rid,
       let resp := errorHandler nodeEnv ts
                     (FApp (RateLimitError (Some (tooManyRequests W)))) rid in
       status resp = 429 /\ error_code resp = RATE_LIMIT_EXCEEDED
       /\ body_message resp
          = str "Too many requests. Please try again after "
            ++ Number_toString (ceil_div W 1000) ++ str " seconds.".
Proof.
  intros L W key Hskip Hr H1 H2 Hc h. subst h. unfold rateLimit.
  fold L W. rewrite Hskip. fold key.
  rewrite (isRateLimited_refuses now1 key L W store r Hr H1 Hc).
  assert (Hrem : getRemaining now2 key L store = 0).
  { unfold getRemaining. rewrite Hr, (expired_live _ _ H2). lia. }
  rewrite Hrem. simpl. repeat split.
Qed.

Lemma rateLimit_refusal_witness :
  let store : gmap jsstring RateLimitRecord :=
    {[ str "198.51.100.7" := {| count := 5; resetTime := 900000 |} ]} in
  let req := {| req_ip := Some (str "198.51.100.7"); req_method := str "POST";
                req_path := str "/login"; req_authorization := None;
                req_contentType := None; req_cookie_accessToken := None;
                req_body := VUndefined; req_query := VUndefined;
                req_params := VUndefined; req_correlationId := None |} in
  store_after (strictRateLimit {| RATE_LIMIT_MAX_REQUESTS := 100;
                                  RATE_LIMIT_WINDOW_MS := 900000 |}
                 1200 1200 1200 req store) = store.
Proof.
  apply (rateLimit_refusal
           (Some {| maxRequests := Some 5; windowMs := Some (15 * 60 * 1000);
                    keyGenerator := None; skip := None |})
           {| RATE_LIMIT_MAX_REQUESTS := 100; RATE_LIMIT_WINDOW_MS := 900000 |}
           1200 1200 1200
           {| req_ip := Some (str "198.51.100.7"); req_method := str "POST";
              req_path := str "/login"; req_authorization := None;
              req_contentType := None; req_cookie_accessToken := None;
              req_body := VUndefined; req_query := VUndefined;
              req_params := VUndefined; req_correlationId := None |}
           {[ str "198.51.100.7" := {| count := 5; resetTime := 900000 |} ]}
           {| count := 5; resetTime := 900000 |}).
  - reflexivity.
  - apply lookup_singleton_eq.
  - simpl. lia.
  - simpl. lia.
  - simpl. lia.
Defined.

End LimiterFacts.

(** ** The error handler and what reaches it *)

Section TranslatorFacts.
Import Http Validation.

(** X14.  The response of the error handler is the same in development,
    test and production, and it never depends on the stack of the
    failure: the mode only changes what is logged. *)
Theorem errorHandler_ignores_mode env1 env2 ts err rid :
  errorHandler env1 ts err rid = errorHandler env2 ts err rid
  /\ (forall e stack',
        errorHandler env1 ts (FOther e) rid
        = errorHandler env1 ts
            (FOther {| err_name := err_name e; err_message := err_message e;
                       err_stack := stack'; err_code := err_code e |}) rid).
Proof.
  split.
  - destruct err as [issues | e | e]; simpl; try reflexivity.
    repeat match goal with
           | |- context [if ?b then _ else _] => destruct b
           end; destruct env1, env2; reflexivity.
  - intros e stack'. reflexivity.
Qed.

(** X15.  Errors that the handler tells by their name are answered with
    status 400 and code [VALIDATION_ERROR] in every mode: one named
    [ValidationError] with its own message, also in production; one named
    [CastError] with [Invalid ID format]; and a [MongoServerError] with
    code 11000 (a duplicate key) with [Resource already exists], not with
    409 and the code of a conflict. *)
Theorem named_errors_are_validation_errors env ts rid (e : PlainError) :
  let r := errorHandler env ts (FOther e) rid in
  (err_name e = str "ValidationError" ->
   status r = 400 /\ error_code r = VALIDATION_ERROR
   /\ body_message r = err_message e /\ error_details r = None)
  /\ (err_name e = str "CastError" ->
      status r = 400 /\ error_code r = VALIDATION_ERROR
      /\ body_message r = str "Invalid ID format")
  /\ (err_name e = str "MongoServerError" -> err_code e = Some 11000 ->
      status r = 400 /\ error_code r = VALIDATION_ERROR
      /\ body_message r = str "Resource already exists"
      /\ error_code r ≠ code (ConflictError None)
      /\ status r ≠ statusCode (ConflictError None)).
Proof.
  simpl. split; [| split].
  - intros ->. simpl. repeat split.
  - intros ->. simpl. repeat split.
  - intros -> ->. simpl. repeat split; discriminate.
Qed.

Lemma named_errors_are_validation_errors_witness :
  status (errorHandler production (str "t")
            (FOther {| err_name := str "MongoServerError";
                       err_message := str "E11000 duplicate key error";
                       err_stack := []; err_code := Some 11000 |}) None) = 400
  /\ body_message (errorHandler production (str "t")
                     (FOther {| err_name := str "ValidationError";
                                err_message := str "User validation failed: email";
                                err_stack := []; err_code := None |}) None)
     = str "User validation failed: email".
Proof.
  split.
  - apply (named_errors_are_validation_errors production (str "t") None
             {| err_name := str "MongoServerError";
                err_message := str "E11000 duplicate key error";
                err_stack := []; err_code := Some 11000 |}); reflexivity.
  - apply (named_errors_are_validation_errors production (str "t") None
             {| err_name := str "ValidationError";
                err_message := str "User validation failed: email";
                err_stack := []; err_code := None |}). reflexivity.
Defined.

(** X16.  [safeValidate] and [validateSchema] agree: the one succeeds with
    a value exactly when the other returns it, and when the schema throws
    a [ZodError] the errors of the one are the details of the
    [ValidationError] of the other, one entry per issue and in the order
    of the issues. *)
Theorem safeValidate_agrees (schema : Schema) (data : value) :
  (forall v, safeValidate schema data = Success v
             <-> validateSchema schema data = inl v)
  /\ (forall issues,
        schema data = inr (FZod issues) ->
        safeValidate schema data = Failure (formatIssues issues)
        /\ validateSchema schema data
           = inr (FApp (ValidationError (Some (str "Validation failed"))
                          (VArr (formatIssues issues))))
        /\ length (formatIssues issues) = length issues).
Proof.
  unfold safeValidate, validateSchema. split.
  - intros v. destruct (schema data) as [v' | [issues | e | e]]; split;
      intros H; try discriminate H; injection H as ->; reflexivity.
  - intros issues ->. unfold formatIssues. rewrite length_map. repeat split.
Qed.

Lemma safeValidate_agrees_witness :
  let schema : Schema :=
    fun _ => inr (FZod [{| issue_path := [Key (str "address"); Index 0; Key (str "pin")];
                           issue_message := str "Required" |}]) in
  safeValidate schema VNull
  = Failure [VObj [(str "field", VStr (str "address.0.pin"));
                   (str "message", VStr (str "Required"))]].
Proof.
  destruct (safeValidate_agrees
              (fun _ => inr (FZod [{| issue_path := [Key (str "address"); Index 0; Key (str "pin")];
                                      issue_message := str "Required" |}])) VNull)
    as [_ H].
  destruct (H _ eq_refl) as [H1 _]. exact H1.
Defined.

(** X17.  A request without a body on a route that validates the body is
    answered with status 500 and the generic message: the middleware
    hands over a plain [Error], which the handler does not recognize, so
    the text [Request body is required] never reaches the client and the
    other schemas are not consulted. *)
Theorem missing_body_is_answered_500 (schema : ValidationSchema) (s : Schema)
    stack req env ts rid :
  body schema = Some s ->
  req_body req = VUndefined \/ req_body req = VNull ->
  next_arg (validate schema stack req) = Some (missingBody stack)
  /\ errorHandler env ts (missingBody stack) rid = generic_response ts rid
  /\ status (generic_response ts rid) = 500
  /\ validated (validate schema stack req)
     = {| validated_body := None; validated_query := None; validated_params := None |}.
Proof.
  intros Hs Hb. unfold validate. rewrite Hs.
  assert (Hg : errorHandler env ts (missingBody stack) rid = generic_response ts rid).
  { apply errorHandler_unrecognized. reflexivity. }
  destruct Hb as [-> | ->]; repeat split; exact Hg.
Qed.

Lemma missing_body_is_answered_500_witness :
  let schema := {| body := Some (fun v => inl v); query := None; params := None |} in
  let req := {| req_ip := None; req_method := str "POST"; req_path := str "/patients";
                req_authorization := None; req_contentType := None;
                req_cookie_accessToken := None; req_body := VUndefined;
                req_query := VObj []; req_params := VObj [];
                req_correlationId := Some (str "c-1") |} in
  next_arg (validate schema [] req) = Some (missingBody []).
Proof.
  apply (missing_body_is_answered_500
           {| body := Some (fun v => inl v); query := None; params := None |}
           (fun v => inl v) []
           {| req_ip := None; req_method := str "POST"; req_path := str "/patients";
              req_authorization := None; req_contentType := None;
              req_cookie_accessToken := None; req_body := VUndefined;
              req_query := VObj []; req_params := VObj [];
              req_correlationId := Some (str "c-1") |}
           production [] None).
  - reflexivity.
  - left. reflexivity.
Defined.

(** X18.  When the body schema rejects the sanitized body of a request,
    [validate] stops there, whatever the query and params schemas would
    say, and the error handler answers with status 400, code
    [VALIDATION_ERROR], the message [Validation failed] and one detail
    [{field, message}] per issue, in order; a [ZodError] that reaches the
    handler directly gets the same response. *)
Theorem rejected_body_is_answered_400 (schema : ValidationSchema) (s : Schema)
    stack req (issues : list ZodIssue) env ts rid :
  body schema = Some s ->
  req_body req ≠ VUndefined -> req_body req ≠ VNull ->
  s (sanitizeBody (req_body req)) = inr (FZod issues) ->
  exists e,
    next_arg (validate schema stack req) = Some e
    /\ status (errorHandler env ts e rid) = 400
    /\ error_code (errorHandler env ts e rid) = VALIDATION_ERROR
    /\ body_message (errorHandler env ts e rid) = str "Validation failed"
    /\ error_details (errorHandler env ts e rid) = Some (VArr (formatIssues issues))
    /\ length (formatIssues issues) = length issues
    /\ errorHandler env ts e rid = errorHandler env ts (FZod issues) rid.
Proof.
  intros Hs Hu Hn Hrej.
  exists (FApp (ValidationError (Some (str "Validation failed"))
                  (VArr (formatIssues issues)))).
  split.
  - unfold validate, validateSchema. rewrite Hs.
    destruct (req_body req) eqn:Hb; try congruence; rewrite Hrej; reflexivity.
  - unfold formatIssues. rewrite length_map. repeat split.
Qed.

Lemma rejected_body_is_answered_400_witness :
  let issue := {| issue_path := [Key (str "email")];
                  issue_message := str "Invalid email address" |} in
  let schema := {| body := Some (fun _ => inr (FZod [issue]));
                   query := Some (fun _ => inr (FZod [])); params := None |} in
  let req := {| req_ip := None; req_method := str "POST"; req_path := str "/patients";
                req_authorization := None; req_contentType := None;
                req_cookie_accessToken := None;
                req_body := VObj [(str "email", VStr (str "nope"))];
                req_query := VObj []; req_params := VObj [];
                req_correlationId := None |} in
  exists e,
    next_arg (validate schema [] req) = Some e
    /\ status (errorHandler production [] e None) = 400.
Proof.
  destruct (rejected_body_is_answered_400
              {| body := Some (fun _ => inr (FZod [{| issue_path := [Key (str "email")];
                                                      issue_message := str "Invalid email address" |}]));
                 query := Some (fun _ => inr (FZod [])); params := None |}
              (fun _ => inr (FZod [{| issue_path := [Key (str "email")];
                                      issue_message := str "Invalid email address" |}]))
              []
              {| req_ip := None; req_method := str "POST"; req_path := str "/patients";
                 req_authorization := None; req_contentType := None;
                 req_cookie_accessToken := None;
                 req_body := VObj [(str "email", VStr (str "nope"))];
                 req_query := VObj []; req_params := VObj [];
                 req_correlationId := None |}
              [{| issue_path := [Key (str "email")];
                  issue_message := str "Invalid email address" |}]
              production [] None) as (e & He & Hst & _);
    try reflexivity; try discriminate.
  exists e. split; assumption.
Defined.

End TranslatorFacts.

(** ** Authentication and authorization *)

Section GateFacts.
Import Http Sanitization Auth AuthNotions.

Lemma startsWith_app (pre t : jsstring) : startsWith pre (pre ++ t) = true.
Proof.
  induction pre as [| p pre IH]; simpl; [reflexivity |].
  rewrite N.eqb_refl. exact IH.
Qed.

Lemma bearer_of_header (t : jsstring) :
  bearer (Some (str "Bearer " ++ t)) = Some t.
Proof.
  unfold bearer. rewrite startsWith_app.
  change 7%nat with (length (str "Bearer ")). rewrite drop_app_length. reflexivity.
Qed.

Lemma bearer_Some (h : option jsstring) (t : jsstring) :
  bearer h = Some t <-> h = Some (str "Bearer " ++ t).
Proof.
  split; [| intros ->; apply bearer_of_header].
  unfold bearer. destruct h as [h |]; [| discriminate].
  destruct (startsWith (str "Bearer ") h) eqn:Hs; [| discriminate].
  intros [= <-]. f_equal. exact (startsWith_split _ _ Hs).
Qed.

Lemma authenticate_presented verify req :
  authenticate verify req
  = match presented_token req with
    | Some t => of_verified (verify t)
    | None => NextError noToken
    end.
Proof.
  unfold authenticate, presented_token.
  destruct (truthy (req_cookie_accessToken req)) as [t |];
    [| destruct (truthy (bearer (req_authorization req))) as [t |]];
    try reflexivity; destruct (verify t); reflexivity.
Qed.

(** X19.  [authenticate] takes the token from the [accessToken] cookie
    when that is not empty, whatever the header says; otherwise from a
    header [Bearer <token>] with a non-empty token; with neither it hands
    over the 401 error [No access token provided] without calling the
    verifier.  The outcome is then the verifier's: its decoded token, or
    the error it throws. *)
Theorem authenticate_token_source (verify : Verify) (req : Request) (t : jsstring) :
  t ≠ [] ->
  (req_cookie_accessToken req = Some t ->
   authenticate verify req = of_verified (verify t))
  /\ (truthy (req_cookie_accessToken req) = None ->
      req_authorization req = Some (str "Bearer " ++ t) ->
      authenticate verify req = of_verified (verify t))
  /\ (truthy (req_cookie_accessToken req) = None ->
      (req_authorization req = None
       \/ req_authorization req = Some (str "Bearer ")
       \/ exists h, req_authorization req = Some h
                    /\ startsWith (str "Bearer ") h = false) ->
      authenticate verify req = NextError noToken
      /\ answered_status (authenticate verify req) = Some 401).
Proof.
  intros Ht. rewrite authenticate_presented. unfold presented_token.
  split; [| split].
  - intros ->. destruct t; [congruence | reflexivity].
  - intros -> ->. rewrite bearer_of_header. destruct t; [congruence | reflexivity].
  - intros -> [-> | [-> | (h & -> & Hh)]]; try (split; reflexivity).
    unfold bearer. rewrite Hh. split; reflexivity.
Qed.

Lemma authenticate_token_source_witness :
  let req := {| req_ip := None; req_method := str "GET"; req_path := str "/me";
                req_authorization := Some (str "Bearer header-token");
                req_contentType := None;
                req_cookie_accessToken := Some (str "cookie-token");
                req_body := VUndefined; req_query := VObj []; req_params := VObj [];
                req_correlationId := None |} in
  let verify : Verify := fun t =>
    inl {| userId := t; role := PATIENT; sessionId := None; iat := 0; exp := 900 |} in
  authenticate verify req
  = Next {| userId := str "cookie-token"; role := PATIENT; sessionId := None;
            iat := 0; exp := 900 |}.
Proof.
  destruct (authenticate_token_source
              (fun t => inl {| userId := t; role := PATIENT; sessionId := None;
                               iat := 0; exp := 900 |})
              {| req_ip := None; req_method := str "GET"; req_path := str "/me";
                 req_authorization := Some (str "Bearer header-token");
                 req_contentType := None;
                 req_cookie_accessToken := Some (str "cookie-token");
                 req_body := VUndefined; req_query := VObj []; req_params := VObj [];
                 req_correlationId := None |}
              (str "cookie-token")) as [H _]; [discriminate |].
  apply H. reflexivity.
Defined.

Lemma includes_role_In (roles : list UserRole) (r : UserRole) :
  includes_role roles r = true <-> In r roles.
Proof.
  unfold includes_role. rewrite existsb_exists. split.
  - intros (x & Hx & Hr). destruct r, x; try discriminate Hr; exact Hx.
  - intros H. exists r. split; [exact H | destruct r; reflexivity].
Qed.

(** X20.  On a route guarded by [authenticate] and then
    [authorize(...allowedRoles)], a request passes exactly when it
    presents a token that the verifier accepts and whose role is among the
    allowed ones; without a token it is answered 401, and with an accepted
    token of another role 403.  With no allowed role nobody passes. *)
Theorem authenticated_route_outcomes (verify : Verify) (roles : list UserRole)
    (req : Request) :
  (forall u,
     authenticated_route verify roles req = Next u
     <-> exists t, presented_token req = Some t /\ verify t = inl u /\ In (role u) roles)
  /\ (presented_token req = None ->
      answered_status (authenticated_route verify roles req) = Some 401)
  /\ (forall t u,
        presented_token req = Some t -> verify t = inl u -> ¬ In (role u) roles ->
        answered_status (authenticated_route verify roles req) = Some 403)
  /\ (roles = [] -> forall u, authenticated_route verify roles req ≠ Next u).
Proof.
  assert (Hmain : forall u,
     authenticated_route verify roles req = Next u
     <-> exists t, presented_token req = Some t /\ verify t = inl u /\ In (role u) roles).
  { intros u. unfold authenticated_route. rewrite authenticate_presented.
    destruct (presented_token req) as [t |].
    - destruct (verify t) as [d | e] eqn:Hv; simpl.
      + destruct (includes_role roles (role d)) eqn:Hr; simpl.
        * split.
          -- intros [= ->]. exists t. split; [reflexivity |].
             split; [exact Hv |]. apply includes_role_In. exact Hr.
          -- intros (t' & [= <-] & Hv' & _). congruence.
        * split; [discriminate |].
          intros (t' & [= <-] & Hv' & Hin). rewrite Hv in Hv'. injection Hv' as ->.
          apply includes_role_In in Hin. congruence.
      + split; [discriminate |]. intros (t' & [= <-] & Hv' & _). congruence.
    - split; [discriminate |]. intros (t' & [=] & _). }
  split; [exact Hmain |]. split; [| split].
  - intros Hn. unfold authenticated_route. rewrite authenticate_presented, Hn.
    reflexivity.
  - intros t u Ht Hv Hout. unfold authenticated_route.
    rewrite authenticate_presented, Ht, Hv. simpl.
    destruct (includes_role roles (role u)) eqn:Hr; [| reflexivity].
    apply includes_role_In in Hr. contradiction.
  - intros -> u H. apply Hmain in H as (t & _ & _ & []).
Qed.

Lemma authenticated_route_outcomes_witness :
  let req := {| req_ip := None; req_method := str "GET"; req_path := str "/doctors";
                req_authorization := Some (str "Bearer abc"); req_contentType := None;
                req_cookie_accessToken := None;
                req_body := VUndefined; req_query := VObj []; req_params := VObj [];
                req_correlationId := None |} in
  let verify : Verify := fun t =>
    inl {| userId := t; role := PATIENT; sessionId := None; iat := 0; exp := 900 |} in
  answered_status (authenticated_route verify [DOCTOR; ADMIN] req) = Some 403.
Proof.
  destruct (authenticated_route_outcomes
              (fun t => inl {| userId := t; role := PATIENT; sessionId := None;
                               iat := 0; exp := 900 |})
              [DOCTOR; ADMIN]
              {| req_ip := None; req_method := str "GET"; req_path := str "/doctors";
                 req_authorization := Some (str "Bearer abc"); req_contentType := None;
                 req_cookie_accessToken := None;
                 req_body := VUndefined; req_query := VObj []; req_params := VObj [];
                 req_correlationId := None |}) as (_ & _ & H & _).
  apply (H (str "abc") {| userId := str "abc"; role := PATIENT; sessionId := None;
                          iat := 0; exp := 900 |}).
  - reflexivity.
  - reflexivity.
  - simpl. intros [H' | [H' | []]]; discriminate H'.
Defined.

Lemma optionalAuth_bearer verify req :
  optionalAuth verify req
  = match bearer (req_authorization req) with
    | Some t => match verify t with inl decoded => Some decoded | inr _ => None end
    | None => None
    end.
Proof.
  unfold optionalAuth, bearer. destruct (req_authorization req) as [[| c h] |];
    try reflexivity.
  destruct (startsWith (str "Bearer ") (c :: h)); reflexivity.
Qed.

(** X21.  [optionalAuth] attaches a user exactly when the request has a
    header [Bearer <token>] whose token the verifier accepts; it never
    reads the cookie, so a request that [authenticate] accepts by its
    cookie alone stays anonymous under [optionalAuth]. *)
Theorem optionalAuth_reads_the_header_only (verify : Verify) (req : Request) :
  (forall u,
     optionalAuth verify req = Some u
     <-> exists t, req_authorization req = Some (str "Bearer " ++ t)
                   /\ verify t = inl u)
  /\ (forall t u,
        t ≠ [] -> req_cookie_accessToken req = Some t -> verify t = inl u ->
        req_authorization req = None ->
        authenticate verify req = Next u /\ optionalAuth verify req = None).
Proof.
  split.
  - intros u. rewrite optionalAuth_bearer.
    destruct (bearer (req_authorization req)) as [t |] eqn:Hb.
    + apply bearer_Some in Hb. destruct (verify t) as [d | e] eqn:Hv.
      * split.
        -- intros [= ->]. exists t. split; assumption.
        -- intros (t' & Ht' & Hv'). rewrite Ht' in Hb.
           apply bearer_Some in Hb. rewrite bearer_of_header in Hb.
           injection Hb as ->. congruence.
      * split; [discriminate |].
        intros (t' & Ht' & Hv'). rewrite Ht' in Hb.
        apply bearer_Some in Hb. rewrite bearer_of_header in Hb.
        injection Hb as ->. congruence.
    + split; [discriminate |].
      intros (t' & Ht' & _). rewrite Ht', bearer_of_header in Hb. discriminate.
  - intros t u Ht Hc Hv Hh. split.
    + rewrite authenticate_presented. unfold presented_token. rewrite Hc.
      destruct t; [congruence |]. simpl. rewrite Hv. reflexivity.
    + unfold optionalAuth. rewrite Hh. reflexivity.
Qed.

Lemma optionalAuth_reads_the_header_only_witness :
  let req := {| req_ip := None; req_method := str "GET"; req_path := str "/feed";
                req_authorization := None; req_contentType := None;
                req_cookie_accessToken := Some (str "cookie-token");
                req_body := VUndefined; req_query := VObj []; req_params := VObj [];
                req_correlationId := None |} in
  let verify : Verify := fun t =>
    inl {| userId := t; role := DOCTOR; sessionId := None; iat := 0; exp := 900 |} in
  authenticate verify req
  = Next {| userId := str "cookie-token"; role := DOCTOR; sessionId := None;
            iat := 0; exp := 900 |}
  /\ optionalAuth verify req = None.
Proof.
  destruct (optionalAuth_reads_the_header_only
              (fun t => inl {| userId := t; role := DOCTOR; sessionId := None;
                               iat := 0; exp := 900 |})
              {| req_ip := None; req_method := str "GET"; req_path := str "/feed";
                 req_authorization := None; req_contentType := None;
                 req_cookie_accessToken := Some (str "cookie-token");
                 req_body := VUndefined; req_query := VObj []; req_params := VObj [];
                 req_correlationId := None |}) as [_ H].
  apply (H (str "cookie-token")); try reflexivity. discriminate.
Defined.

(** X22.  [requireAdmin] lets a request through exactly when it carries a
    user with the role admin whose record is found and active, and then
    attaches the id, email, admin role and permissions of that record; for
    a user with another role it answers 403 without looking the record
    up. *)
Theorem requireAdmin_passes_iff (user : option DecodedToken)
    (findById : jsstring -> lookup) :
  (forall data,
     requireAdmin user findById = Next data
     <-> exists u admin,
           user = Some u /\ role u = ADMIN
           /\ findById (userId u) = Found admin /\ doc_isActive admin = true
           /\ data = {| id := doc_id admin; email := doc_email admin;
                        adminRole := doc_adminRole admin;
                        permissions := doc_permissions admin |})
  /\ (forall u findById',
        user = Some u -> role u ≠ ADMIN ->
        requireAdmin user findById = requireAdmin user findById'
        /\ answered_status (requireAdmin user findById) = Some 403).
Proof.
  split.
  - intros data. unfold requireAdmin. destruct user as [u |].
    + destruct (role u) eqn:Hrole; simpl;
        try (split; [discriminate | intros (u' & a & [= <-] & Hr & _); congruence]).
      destruct (findById (userId u)) as [admin | | e] eqn:Hf.
      * destruct (doc_isActive admin) eqn:Ha; simpl.
        -- split.
           ++ intros [= <-]. exists u, admin. repeat split; assumption.
           ++ intros (u' & a & [= <-] & _ & Hf' & _ & ->).
              rewrite Hf in Hf'. injection Hf' as <-. reflexivity.
        -- split; [discriminate |].
           intros (u' & a & [= <-] & _ & Hf' & Ha' & _).
           rewrite Hf in Hf'. injection Hf' as <-. congruence.
      * split; [discriminate |].
        intros (u' & a & [= <-] & _ & Hf' & _). congruence.
      * split; [discriminate |].
        intros (u' & a & [= <-] & _ & Hf' & _). congruence.
    + split; [discriminate |]. intros (u' & a & [=] & _).
  - intros u findById' -> Hrole. unfold requireAdmin.
    destruct (role u); try congruence; split; reflexivity.
Qed.

Lemma requireAdmin_passes_iff_witness :
  answered_status
    (requireAdmin (Some {| userId := str "u1"; role := DOCTOR; sessionId := None;
                           iat := 0; exp := 900 |})
       (fun _ => Missing)) = Some 403.
Proof.
  destruct (requireAdmin_passes_iff
              (Some {| userId := str "u1"; role := DOCTOR; sessionId := None;
                       iat := 0; exp := 900 |})
              (fun _ => Missing)) as [_ H].
  apply (H {| userId := str "u1"; role := DOCTOR; sessionId := None;
              iat := 0; exp := 900 |} (fun _ => Missing)).
  - reflexivity.
  - discriminate.
Defined.

(** X23.  [requireSuperAdmin] passes exactly the admins whose role is
    [super_admin], and whoever passes it passes [requirePermission] for
    every permission; without admin data both answer 401. *)
Theorem requireSuperAdmin_covers_permissions (admin : option AdminData) :
  (requireSuperAdmin admin = Next tt
   <-> exists a, admin = Some a /\ adminRole a = str "super_admin")
  /\ (requireSuperAdmin admin = Next tt ->
      forall permission, requirePermission permission admin = Next tt)
  /\ (admin = None ->
      answered_status (requireSuperAdmin admin) = Some 401
      /\ forall permission,
           answered_status (requirePermission permission admin) = Some 401).
Proof.
  assert (Hiff : requireSuperAdmin admin = Next tt
                 <-> exists a, admin = Some a /\ adminRole a = str "super_admin").
  { unfold requireSuperAdmin. destruct admin as [a |].
    - destruct (jsstring_eqb (adminRole a) (str "super_admin")) eqn:Hr; simpl.
      + apply jsstring_eqb_true in Hr. split; [| reflexivity].
        intros _. exists a. split; [reflexivity | exact Hr].
      + apply jsstring_eqb_false in Hr. split; [discriminate |].
        intros (a' & [= <-] & Hs). contradiction.
    - split; [discriminate |]. intros (a & [=] & _). }
  split; [exact Hiff |]. split.
  - intros (a & -> & Hs)%Hiff permission.
    apply requirePermission_super. exact Hs.
  - intros ->. split; [reflexivity |]. intros permission. reflexivity.
Qed.

Lemma requireSuperAdmin_covers_permissions_witness :
  requirePermission (str "delete_everything")
    (Some {| id := str "a1"; email := str "root@example.org";
             adminRole := str "super_admin"; permissions := ∅ |}) = Next tt.
Proof.
  destruct (requireSuperAdmin_covers_permissions
              (Some {| id := str "a1"; email := str "root@example.org";
                       adminRole := str "super_admin"; permissions := ∅ |}))
    as (_ & H & _).
  apply H. reflexivity.
Defined.

End GateFacts.

(** ** Plain objects: reading after writing *)

Section ObjectAccessFacts.
Import Sanitization Leaves RequestLogger BaseSchema.

Implicit Types (o : list (jsstring * value)) (k : jsstring) (v : value).

Lemma get_prop_assign k k' v o :
  get_prop k (assign k' v o) = if jsstring_eqb k k' then Some v else get_prop k o.
Proof.
  induction o as [| [k0 v0] o IH]; simpl.
  - destruct (jsstring_eqb k k'); reflexivity.
  - destruct (jsstring_eqb k' k0) eqn:H0; simpl.
    + apply jsstring_eqb_true in H0. subst k0.
      destruct (jsstring_eqb k k'); reflexivity.
    + destruct (jsstring_eqb k k0) eqn:H1.
      * apply jsstring_eqb_true in H1. subst k0.
        apply jsstring_eqb_false in H0.
        rewrite (proj2 (jsstring_eqb_false k k')); [reflexivity | congruence].
      * exact IH.
Qed.

Lemma get_prop_delete k k' o :
  get_prop k (delete_prop k' o) = if jsstring_eqb k k' then None else get_prop k o.
Proof.
  unfold delete_prop. induction o as [| [k0 v0] o IH]; simpl.
  - destruct (jsstring_eqb k k'); reflexivity.
  - destruct (jsstring_eqb k0 k') eqn:H0; simpl.
    + apply jsstring_eqb_true in H0. subst k0. rewrite IH.
      destruct (jsstring_eqb k k'); reflexivity.
    + destruct (jsstring_eqb k k0) eqn:H1; [| exact IH].
      apply jsstring_eqb_true in H1. subst k0. rewrite H0. reflexivity.
Qed.

Lemma has_key_get k o : has_key k o = bool_decide (is_Some (get_prop k o)).
Proof.
  unfold has_key, keys. induction o as [| [k0 v0] o IH]; simpl.
  - reflexivity.
  - destruct (jsstring_eqb k k0); simpl; [reflexivity | exact IH].
Qed.

Lemma keys_assign_present k v o : has_key k o = true -> keys (assign k v o) = keys o.
Proof.
  unfold has_key, keys. induction o as [| [k0 v0] o IH]; simpl; [discriminate |].
  destruct (jsstring_eqb k k0) eqn:H0; simpl.
  - apply jsstring_eqb_true in H0. subst k0. reflexivity.
  - intros H. rewrite (IH H). reflexivity.
Qed.

Lemma assign_same k v o : get_prop k o = Some v -> assign k v o = o.
Proof.
  induction o as [| [k0 v0] o IH]; simpl; [discriminate |].
  destruct (jsstring_eqb k k0) eqn:H0.
  - apply jsstring_eqb_true in H0. subst k0. intros [= ->]. reflexivity.
  - intros H. rewrite (IH H). reflexivity.
Qed.

(** One field of the loop. *)
Lemma redact_step_get field k o :
  get_prop k (if has_key field o then assign field REDACTED o else o)
  = if jsstring_eqb k field && has_key k o then Some REDACTED else get_prop k o.
Proof.
  destruct (jsstring_eqb k field) eqn:Hk; simpl.
  - apply jsstring_eqb_true in Hk. subst field.
    destruct (has_key k o) eqn:Hh; [| reflexivity].
    rewrite get_prop_assign. unfold jsstring_eqb. rewrite bool_decide_eq_true_2; reflexivity.
  - destruct (has_key field o); [| reflexivity].
    rewrite get_prop_assign, Hk. reflexivity.
Qed.

Lemma redact_step_keys field o :
  keys (if has_key field o then assign field REDACTED o else o) = keys o.
Proof.
  destruct (has_key field o) eqn:Hh; [| reflexivity].
  apply keys_assign_present. exact Hh.
Qed.

Lemma redact_keys fields : forall o, keys (redact fields o) = keys o.
Proof.
  unfold redact. induction fields as [| f fields IH]; intros o; cbn [fold_left];
    [reflexivity |].
  rewrite IH. apply redact_step_keys.
Qed.

Lemma redact_get fields : forall o k,
  get_prop k (redact fields o)
  = if existsb (jsstring_eqb k) fields && has_key k o then Some REDACTED
    else get_prop k o.
Proof.
  unfold redact. induction fields as [| f fields IH]; intros o k;
    cbn [fold_left existsb]; [reflexivity |].
  rewrite IH, redact_step_get.
  assert (Hh : has_key k (if has_key f o then assign f REDACTED o else o) = has_key k o).
  { destruct (has_key f o) eqn:Hf; [| reflexivity].
    unfold has_key at 1. rewrite (keys_assign_present f REDACTED o Hf). reflexivity. }
  rewrite Hh.
  destruct (jsstring_eqb k f), (existsb (jsstring_eqb k) fields), (has_key k o);
    reflexivity.
Qed.

Lemma redact_fixed fields : forall o,
  (forall f, In f fields -> has_key f o = true -> get_prop f o = Some REDACTED) ->
  redact fields o = o.
Proof.
  unfold redact. induction fields as [| f fields IH]; intros o H; cbn [fold_left];
    [reflexivity |].
  assert (Hstep : (if has_key f o then assign f REDACTED o else o) = o).
  { destruct (has_key f o) eqn:Hh; [| reflexivity].
    apply assign_same, H; [left; reflexivity | exact Hh]. }
  rewrite Hstep. apply IH. intros g Hg. apply H. right. exact Hg.
Qed.

(** X24.  [sanitizeLogData] keeps the keys of the data and their order,
    replaces the value of each of [password], [token], [otp], [apiKey] and
    [secret] that is present by [***REDACTED***], and leaves every other
    value as it is, also a nested object that holds such a key; a second
    pass changes nothing. *)
Theorem sanitizeLogData_redacts (data : list (jsstring * value)) :
  keys (sanitizeLogData data) = keys data
  /\ (forall k,
        get_prop k (sanitizeLogData data)
        = if existsb (jsstring_eqb k) sensitiveFields && has_key k data
          then Some REDACTED else get_prop k data)
  /\ sanitizeLogData (sanitizeLogData data) = sanitizeLogData data.
Proof.
  unfold sanitizeLogData. split; [apply redact_keys |]. split; [apply redact_get |].
  apply redact_fixed. intros f Hf Hh. rewrite redact_get.
  unfold has_key in Hh. rewrite redact_keys in Hh. fold (has_key f data) in Hh.
  rewrite Hh, andb_true_r.
  replace (existsb (jsstring_eqb f) sensitiveFields) with true; [reflexivity |].
  symmetry. apply existsb_exists. exists f. split; [exact Hf |].
  apply jsstring_eqb_true. reflexivity.
Qed.

(** What the pass leaves in place: a secret one level down, and a key
    that differs in case. *)
Example sanitizeLogData_is_shallow :
  sanitizeLogData
    [(str "user", VObj [(str "password", VStr (str "hunter2"))]);
     (str "Password", VStr (str "hunter2"));
     (str "otp", VNum 482913)]
  = [(str "user", VObj [(str "password", VStr (str "hunter2"))]);
     (str "Password", VStr (str "hunter2"));
     (str "otp", REDACTED)].
Proof. reflexivity. Qed.

(** X25.  The [toJSON] transform never lets [_id], [isDeleted],
    [deletedAt] or [deletedBy] out; it sets [id] to the former [_id]
    ([undefined] when there was none) and leaves every other property as
    it was. *)
Theorem toJSON_transform_hides_internals (ret : list (jsstring * value)) :
  let out := toJSON_transform ret in
  get_prop (str "_id") out = None
  /\ get_prop (str "isDeleted") out = None
  /\ get_prop (str "deletedAt") out = None
  /\ get_prop (str "deletedBy") out = None
  /\ get_prop (str "id") out = Some (default VUndefined (get_prop (str "_id") ret))
  /\ (forall k,
        k ≠ str "id" -> k ≠ str "_id" -> k ≠ str "isDeleted" ->
        k ≠ str "deletedAt" -> k ≠ str "deletedBy" ->
        get_prop k out = get_prop k ret).
Proof.
  unfold toJSON_transform. simpl.
  repeat split; try (rewrite !get_prop_delete, ?get_prop_assign; reflexivity).
  intros k H1 H2 H3 H4 H5.
  rewrite !get_prop_delete, get_prop_assign.
  rewrite !(proj2 (jsstring_eqb_false k _)) by assumption. reflexivity.
Qed.

Lemma toJSON_transform_hides_internals_witness :
  get_prop (str "name")
    (toJSON_transform [(str "_id", VStr (str "65f0")); (str "name", VStr (str "Asha"));
                       (str "isDeleted", VBool false)])
  = Some (VStr (str "Asha")).
Proof.
  destruct (toJSON_transform_hides_internals
              [(str "_id", VStr (str "65f0")); (str "name", VStr (str "Asha"));
               (str "isDeleted", VBool false)]) as (_ & _ & _ & _ & _ & H).
  rewrite (H (str "name")); [reflexivity | | | | |]; discriminate.
Defined.

End ObjectAccessFacts.

(** ** Pagination *)

Section PaginationFacts.
Import Http BaseSchema.

Lemma ceil_div_bounds (a b : Z) :
  0 < b -> a <= ceil_div a b * b < a + b.
Proof.
  intros Hb. unfold ceil_div.
  pose proof (Z.div_mod (- a) b ltac:(lia)) as Hdm.
  pose proof (Z.mod_pos_bound (- a) b Hb) as Hm.
  nia.
Qed.

(** X26.  For a count [total >= 0], [paginate] reports a page of at least
    1 and a limit between 1 and 100, skips a non-negative number of
    documents, and its [totalPages] is the least number of pages that
    hold [total] documents; [hasNextPage] holds exactly when documents
    remain behind this page, and [hasPrevPage] exactly when documents were
    skipped. *)
Theorem pagination_is_consistent (options : PaginationOptions) (total : Z) :
  0 <= total ->
  let p := pagination options total in
  1 <= p_page p
  /\ 1 <= p_limit p <= 100
  /\ 0 <= query_skip options
  /\ 0 <= p_totalPages p
  /\ total <= p_totalPages p * p_limit p < total + p_limit p
  /\ (p_hasNextPage p = true <-> query_skip options + p_limit p < total)
  /\ (p_hasPrevPage p = true <-> 0 < query_skip options).
Proof.
  intros Htotal. simpl. unfold query_skip.
  set (pg := effective_page options). set (lim := effective_limit options).
  assert (Hpg : 1 <= pg) by (unfold pg, effective_page; lia).
  assert (Hlim : 1 <= lim <= 100) by (unfold lim, effective_limit; lia).
  pose proof (ceil_div_bounds total lim ltac:(lia)) as Hc.
  rewrite Z.ltb_lt, Z.gtb_gt.
  repeat split; try lia; try nia.
Qed.

Lemma pagination_is_consistent_witness :
  p_hasNextPage (pagination {| page := Some 3; limit := Some 250 |} 301) = true
  <-> query_skip {| page := Some 3; limit := Some 250 |}
      + p_limit (pagination {| page := Some 3; limit := Some 250 |} 301) < 301.
Proof.
  apply (pagination_is_consistent {| page := Some 3; limit := Some 250 |} 301). lia.
Defined.

End PaginationFacts.

(** ** The database connection *)

Section DatabaseFacts.
Import Database.

Lemma budget_step (a : nat) :
  budget a = if (S a <? MAX_RETRY_ATTEMPTS)%nat then S (budget (S a)) else 1%nat.
Proof.
  unfold budget, MAX_RETRY_ATTEMPTS.
  destruct (S a <? 5)%nat eqn:H; [apply Nat.ltb_lt in H | apply Nat.ltb_ge in H]; lia.
Qed.

Lemma connect_succeeds_at (attempt : nat -> bool) (fuel : nat) : forall a calls j,
  (budget a <= fuel)%nat -> (j < budget a)%nat ->
  (forall i, (i < j)%nat -> attempt (calls + i)%nat = false) ->
  attempt (calls + j)%nat = true ->
  connect fuel attempt calls {| isConnected := false; connectionAttempts := a |}
  = Some (true, {| isConnected := true; connectionAttempts := 0 |}, S (calls + j)).
Proof.
  induction fuel as [| fuel IH]; intros a calls j Hfuel Hj Hfail Hok.
  - unfold budget in Hfuel. lia.
  - simpl. destruct j as [| j].
    + rewrite Nat.add_0_r in Hok. rewrite Hok, Nat.add_0_r. reflexivity.
    + pose proof (Hfail 0%nat ltac:(lia)) as H0. rewrite Nat.add_0_r in H0. rewrite H0.
      rewrite budget_step in Hfuel, Hj.
      destruct (S a <? MAX_RETRY_ATTEMPTS)%nat; [| lia].
      rewrite (IH (S a) (S calls) j); try lia.
      * replace (S calls + j)%nat with (calls + S j)%nat by lia. reflexivity.
      * intros i Hi. specialize (Hfail (S i) ltac:(lia)).
        rewrite <- Hfail. f_equal. lia.
      * rewrite <- Hok. f_equal. lia.
Qed.

Lemma connect_gives_up (attempt : nat -> bool) (fuel : nat) : forall a calls,
  (budget a <= fuel)%nat ->
  (forall i, (i < budget a)%nat -> attempt (calls + i)%nat = false) ->
  connect fuel attempt calls {| isConnected := false; connectionAttempts := a |}
  = Some (false, {| isConnected := false; connectionAttempts := a + budget a |},
          (calls + budget a)%nat).
Proof.
  induction fuel as [| fuel IH]; intros a calls Hfuel Hfail.
  - unfold budget in Hfuel. lia.
  - simpl.
    pose proof (Hfail 0%nat ltac:(unfold budget; lia)) as H0.
    rewrite Nat.add_0_r in H0. rewrite H0.
    rewrite budget_step in Hfuel, Hfail. rewrite (budget_step a).
    destruct (S a <? MAX_RETRY_ATTEMPTS)%nat.
    + rewrite (IH (S a) (S calls)); try lia.
      * replace (S a + budget (S a))%nat with (a + S (budget (S a)))%nat by lia.
        replace (S calls + budget (S a))%nat with (calls + S (budget (S a)))%nat by lia.
        reflexivity.
      * intros i Hi. specialize (Hfail (S i) ltac:(lia)).
        rewrite <- Hfail. f_equal. lia.
    + replace (a + 1)%nat with (S a) by lia.
      replace (calls + 1)%nat with (S calls) by lia. reflexivity.
Qed.

(** X27.  A [connect()] on a disconnected object with [a] recorded
    failures calls [mongoose.connect] at most [max 1 (5 - a)] times: it
    resolves at the first call that succeeds, with the failure counter
    back at 0, and rejects when all of them fail, with the counter at
    [a] plus the calls made.  A rejection does not reset the counter, so
    every [connect()] after one makes a single call. *)
Theorem connect_retries_are_bounded (attempt : nat -> bool) (fuel a calls : nat) :
  (budget a <= fuel)%nat ->
  (forall j,
     (j < budget a)%nat ->
     (forall i, (i < j)%nat -> attempt (calls + i)%nat = false) ->
     attempt (calls + j)%nat = true ->
     connect fuel attempt calls {| isConnected := false; connectionAttempts := a |}
     = Some (true, {| isConnected := true; connectionAttempts := 0 |}, S (calls + j)))
  /\ ((forall i, (i < budget a)%nat -> attempt (calls + i)%nat = false) ->
      connect fuel attempt calls {| isConnected := false; connectionAttempts := a |}
      = Some (false, {| isConnected := false; connectionAttempts := a + budget a |},
              (calls + budget a)%nat))
  /\ (budget a <= 5)%nat
  /\ budget (a + budget a) = 1%nat.
Proof.
  intros Hfuel. split; [| split; [| split]].
  - intros j Hj Hfail Hok. exact (connect_succeeds_at attempt fuel a calls j Hfuel Hj Hfail Hok).
  - intros Hfail. exact (connect_gives_up attempt fuel a calls Hfuel Hfail).
  - unfold budget, MAX_RETRY_ATTEMPTS. lia.
  - unfold budget, MAX_RETRY_ATTEMPTS. lia.
Qed.

Lemma connect_retries_are_bounded_witness :
  connect 5 (fun i => (2 <=? i)%nat) 0
    {| isConnected := false; connectionAttempts := 0 |}
  = Some (true, {| isConnected := true; connectionAttempts := 0 |}, 3%nat)
  /\ connect 5 (fun _ => false) 5
       {| isConnected := false; connectionAttempts := 5 |}
     = Some (false, {| isConnected := false; connectionAttempts := 6 |}, 6%nat).
Proof.
  split.
  - destruct (connect_retries_are_bounded (fun i => (2 <=? i)%nat) 5 0 0) as [H _];
      [vm_compute; lia |].
    apply (H 2%nat).
    + vm_compute. lia.
    + intros [| [| i]] Hi; try reflexivity. lia.
    + reflexivity.
  - destruct (connect_retries_are_bounded (fun _ => false) 5 5 5) as (_ & H & _);
      [vm_compute; lia |].
    apply H. reflexivity.
Defined.

End DatabaseFacts.

(** ** The content type check *)

Section ContentTypeFacts.
Import Http Sanitization Security.

Lemma includes_iff (needle hay : jsstring) :
  includes needle hay = true <-> exists pre post, hay = pre ++ needle ++ post.
Proof.
  split.
  - induction hay as [| c hay IH]; simpl.
    + rewrite orb_false_r. intros H. exists [], (skipn (length needle) []).
      exact (startsWith_split needle [] H).
    + intros [H | H]%orb_true_iff.
      * exists [], (skipn (length needle) (c :: hay)).
        exact (startsWith_split needle (c :: hay) H).
      * destruct (IH H) as (pre & post & ->). exists (c :: pre), post. reflexivity.
  - intros (pre & post & ->). induction pre as [| c pre IH]; simpl.
    + assert (Hu : forall h, startsWith needle h = true -> includes needle h = true).
      { intros [| x h] Hh; simpl; rewrite Hh; reflexivity. }
      apply Hu, startsWith_app.
    + rewrite IH. apply orb_true_r.
Qed.

(** X28.  [validateContentType] lets a request pass exactly when its
    method is not POST, PUT or PATCH, or its content type holds
    [application/json] somewhere (so a charset parameter is fine, and so
    is [application/jsonp]); a request it stops is answered with status
    500 and the generic message, since it throws a plain [Error]. *)
Theorem validateContentType_passes_iff (stack : jsstring) (req : Request) :
  (validateContentType stack req = None
   <-> carries_body (req_method req) = false
       \/ exists pre post,
            req_contentType req = Some (pre ++ str "application/json" ++ post))
  /\ (forall e env ts rid,
        validateContentType stack req = Some e ->
        errorHandler env ts e rid = generic_response ts rid).
Proof.
  unfold validateContentType. split.
  - destruct (carries_body (req_method req)); [| split; [left; reflexivity | reflexivity]].
    destruct (req_contentType req) as [[| c r] |].
    + split; [discriminate |]. intros [[=] | (pre & post & [= H])].
      destruct pre; discriminate H.
    + destruct (includes (str "application/json") (c :: r)) eqn:Hi.
      * split; [| reflexivity]. intros _. right.
        apply includes_iff in Hi as (pre & post & ->). exists pre, post. reflexivity.
      * split; [discriminate |]. intros [[=] | (pre & post & [= H])].
        assert (Hin : includes (str "application/json") (c :: r) = true).
        { apply includes_iff. exists pre, post. exact H. }
        congruence.
    + split; [discriminate |]. intros [[=] | (pre & post & [=])].
  - intros e env ts rid H.
    assert (He : e = wrongContentType stack).
    { destruct (carries_body (req_method req)); [| discriminate].
      destruct (req_contentType req) as [[| c r] |]; try congruence.
      destruct (includes (str "application/json") (c :: r)); congruence. }
    subst e. apply errorHandler_unrecognized. reflexivity.
Qed.

Lemma validateContentType_passes_iff_witness :
  errorHandler production (str "t")
    (wrongContentType []) (Some (str "c-7"))
  = generic_response (str "t") (Some (str "c-7")).
Proof.
  destruct (validateContentType_passes_iff []
              {| req_ip := None; req_method := str "POST"; req_path := str "/patients";
                 req_authorization := None; req_contentType := Some (str "text/plain");
                 req_cookie_accessToken := None; req_body := VUndefined;
                 req_query := VObj []; req_params := VObj [];
                 req_correlationId := Some (str "c-7") |}) as [_ H].
  apply H. reflexivity.
Defined.

End ContentTypeFacts.
